(** * zscilib: the vector layer and the adjugate inverse

    A shallow embedding of [src/vectors.c] and of the matrix record of
    [zsl/matrices.h], with the determinant, the adjugate inverse and the
    matrix product of [src/matrices.c] modelled from their specification.

    Modelling decisions.
    - [zsl_real_t] (a C [double], or [float] in the single precision
      build) is idealised as a real number of the Standard Library: no
      rounding, overflow, underflow, infinity or not-a-number element.
      Statements that rest on the laws of the reals say so.  The
      not-a-number value a scalar-returning function can produce is a
      separate constructor of its return type.
    - [size_t] is a 64 bit unsigned integer (the LP64 host the standalone
      sample is built on) and [int] a 32 bit signed one; both are carried
      by [Z] and every wrap-around or conversion is written out.
    - A vector is its declared length [sz] and its backing buffer [data];
      the buffer's capacity is the length of the list.  A read or write
      outside the buffer is undefined behaviour in C and is the outcome
      [Fault] here.
    - Every function returns its [int] status together with the final
      state of the object it writes through a pointer.  Distinct pointer
      arguments denote distinct objects. *)

From HB Require Import structures.
From mathcomp Require Import ssreflect ssrfun ssrbool eqtype ssrnat div seq.
From mathcomp Require Import choice fintype bigop ssralg matrix.
From Stdlib Require Import ZArith Reals Lia Lra.
From Stdlib Require Import ClassicalEpsilon FunctionalExtensionality.

Set Implicit Arguments.
Unset Strict Implicit.
Unset Printing Implicit Defensive.
Set Bullet Behavior "Strict Subproofs".

(** ** Scalars, sizes and status codes *)

Definition zsl_real_t : Type := R.

(** The comparisons [s == 0] and [mag != 0.0] of the code. *)
Definition Req_bool (x y : R) : bool := if Req_dec_T x y then true else false.

Lemma Req_boolP : Equality.axiom Req_bool.
Proof. by move=> x y; rewrite /Req_bool; case: (Req_dec_T x y) => H; constructor. Qed.

HB.instance Definition _ := hasDecEq.Build R Req_boolP.

Definition SIZE_MOD : Z := 18446744073709551616.   (* 2^64 *)
Definition SIZE_MAX : Z := SIZE_MOD - 1.
Definition INT_MOD : Z := 4294967296.               (* 2^32 *)
Definition INT_MAX : Z := 2147483647.               (* 2^31 - 1 *)

(** Arithmetic on [size_t] is modulo [SIZE_MOD]. *)
Definition size_wrap (z : Z) : Z := (z mod SIZE_MOD)%Z.

(** [(int) s] for a [size_t] [s]: the low 32 bits, read as two's
    complement. *)
Definition int_of_size (s : Z) : Z :=
  let m := (s mod INT_MOD)%Z in
  if (m <=? INT_MAX)%Z then m else (m - INT_MOD)%Z.

(** [(size_t) k] for an [int] [k], as in the comparison [sz_last != v[i]->sz]
    and the assignment [w->sz = sz_last]. *)
Definition size_of_int (k : Z) : Z := (k mod SIZE_MOD)%Z.

Definition EINVAL : Z := 22.

(** ** Outcomes *)

Inductive result (A : Type) : Type :=
| Ok of A        (* the call returned *)
| Fault          (* an access outside a backing buffer *)
| OutOfFuel.     (* the loop bound of the model was too small *)

Arguments Fault {A}.
Arguments OutOfFuel {A}.

Definition bind {A B : Type} (m : result A) (f : A -> result B) : result B :=
  match m with
  | Ok a => f a
  | Fault => Fault
  | OutOfFuel => OutOfFuel
  end.

Notation "x <- m ;; k" := (bind m (fun x => k))
  (at level 61, m at next level, right associativity).

(** ** Buffers *)

Definition in_buf (d : seq R) (i : Z) : bool :=
  (0 <=? i)%Z && (i <? Z.of_nat (size d))%Z.

(** [d[i]] as an rvalue. *)
Definition load (d : seq R) (i : Z) : result R :=
  if in_buf d i then Ok (nth 0%R d (Z.to_nat i)) else Fault.

(** [d[i] = x]. *)
Definition store (d : seq R) (i : Z) (x : R) : result (seq R) :=
  if in_buf d i then Ok (set_nth 0%R d (Z.to_nat i) x) else Fault.

(** [memset(d, 0, n * sizeof(zsl_real_t))]: the all-zero byte pattern is
    the scalar [0.0].  The count is in elements: the byte count
    [n * sizeof(zsl_real_t)] is taken without the wrap-around that a
    count of [2^61] elements or more would have, which is more than a
    buffer in a 64 bit address space holds. *)
Definition mem_zero (d : seq R) (n : Z) : result (seq R) :=
  if (0 <=? n)%Z && (n <=? Z.of_nat (size d))%Z
  then Ok (nseq (Z.to_nat n) 0%R ++ drop (Z.to_nat n) d)
  else Fault.

(** [memcpy(dst, &src[off], n * sizeof(zsl_real_t))], counted in elements
    likewise. *)
Definition mem_copy (dst src : seq R) (off n : Z) : result (seq R) :=
  if [&& (0 <=? off)%Z, (0 <=? n)%Z,
         (off + n <=? Z.of_nat (size src))%Z & (n <=? Z.of_nat (size dst))%Z]
  then Ok (take (Z.to_nat n) (drop (Z.to_nat off) src) ++ drop (Z.to_nat n) dst)
  else Fault.

(** [for (size_t i = i0; i < i0 + n; i++) body]: the counter never wraps,
    as it stays at most the bound, itself a [size_t]. *)
Fixpoint for_loop {S : Type} (n : nat) (i : Z) (body : Z -> S -> result S)
    (s : S) : result S :=
  if n is n'.+1 then s' <- body i s ;; for_loop n' (i + 1)%Z body s'
  else Ok s.

(** ** Vectors *)

(** [struct zsl_vec]: the declared length [sz] and the buffer [data], as
    [src/vectors.c] uses them. *)
Record zsl_vec : Type := Vec { sz : Z; data : seq R }.

(** [v[i]] for an array [v] of pointers to vectors. *)
Definition vload (v : seq zsl_vec) (i : Z) : result zsl_vec :=
  if (0 <=? i)%Z && (i <? Z.of_nat (size v))%Z
  then Ok (nth (Vec 0 [::]) v (Z.to_nat i)) else Fault.

(** The value a function returning [zsl_real_t] hands back. *)
Inductive zsl_scalar : Type :=
| Real of R
| NAN.

Section Vectors.

(** The build-time switch [CONFIG_ZSL_BOUNDS_CHECKS]. *)
Variable CONFIG_ZSL_BOUNDS_CHECKS : bool.

Definition zsl_vec_init (v : zsl_vec) : result (Z * zsl_vec) :=
  d <- mem_zero (data v) (sz v) ;;
  Ok (0%Z, Vec (sz v) d).

(** [a] is the array the caller passes, with as many slots as the list is
    long. *)
Definition zsl_vec_from_arr (v : zsl_vec) (a : seq R) : result (Z * zsl_vec) :=
  d <- mem_copy (data v) a 0%Z (sz v) ;;
  Ok (0%Z, Vec (sz v) d).

Definition zsl_vec_get_subset (v : zsl_vec) (offset len : Z) (vsub : zsl_vec)
    : result (Z * zsl_vec) :=
  if CONFIG_ZSL_BOUNDS_CHECKS && (sz v <=? offset)%Z then Ok ((- EINVAL)%Z, vsub)
  else
    let len :=
      if CONFIG_ZSL_BOUNDS_CHECKS && (sz v <=? size_wrap (offset + len))%Z
      then size_wrap (sz v - offset) else len in
    if CONFIG_ZSL_BOUNDS_CHECKS && (sz vsub <? len)%Z then Ok ((- EINVAL)%Z, vsub)
    else
      let vsub_sz := if (len <? sz vsub)%Z then len else sz vsub in
      d <- mem_copy (data vsub) (data v) offset len ;;
      Ok (0%Z, Vec vsub_sz d).

Definition zsl_vec_add (v w x : zsl_vec) : result (Z * zsl_vec) :=
  if CONFIG_ZSL_BOUNDS_CHECKS
     && (negb (sz v =? sz w)%Z || negb (sz v =? sz x)%Z)
  then Ok ((- EINVAL)%Z, x)
  else
    d <- for_loop (Z.to_nat (sz v)) 0%Z
           (fun i d => a <- load (data v) i ;; b <- load (data w) i ;;
                       store d i (a + b)%R)
           (data x) ;;
    Ok (0%Z, Vec (sz x) d).

Definition zsl_vec_sub (v w x : zsl_vec) : result (Z * zsl_vec) :=
  if CONFIG_ZSL_BOUNDS_CHECKS
     && (negb (sz v =? sz w)%Z || negb (sz v =? sz x)%Z)
  then Ok ((- EINVAL)%Z, x)
  else
    d <- for_loop (Z.to_nat (sz v)) 0%Z
           (fun i d => a <- load (data v) i ;; b <- load (data w) i ;;
                       store d i (a - b)%R)
           (data x) ;;
    Ok (0%Z, Vec (sz x) d).

Definition zsl_vec_neg (v : zsl_vec) : result (Z * zsl_vec) :=
  d <- for_loop (Z.to_nat (sz v)) 0%Z
         (fun i d => a <- load d i ;; store d i (- a)%R) (data v) ;;
  Ok (0%Z, Vec (sz v) d).

(** The size check of [zsl_vec_sum]: [Ok false] is its early
    [return -EINVAL]. *)
Fixpoint sum_check (v : seq zsl_vec) (sz_last : Z) (n : nat) (i : Z)
    : result bool :=
  if n is n'.+1 then
    vi <- vload v i ;;
    if negb (size_of_int sz_last =? sz vi)%Z then Ok false
    else sum_check v sz_last n' (i + 1)%Z
  else Ok true.

(** [v[i]] is read where the code reads it: for [sz_last], in the size
    check, and in the body of the inner loop, so that with no element to
    add it is not read at all. *)
Definition zsl_vec_sum (v : seq zsl_vec) (n : Z) (w : zsl_vec)
    : result (Z * zsl_vec) :=
  if (n =? 0)%Z then Ok ((- EINVAL)%Z, w)
  else
    v0 <- vload v 0%Z ;;
    let sz_last := int_of_size (sz v0) in
    same <- (if CONFIG_ZSL_BOUNDS_CHECKS
             then sum_check v sz_last (Z.to_nat n) 0%Z else Ok true) ;;
    if negb same then Ok ((- EINVAL)%Z, w)
    else
      let w_sz := size_of_int sz_last in
      d <- for_loop (Z.to_nat n) 0%Z
             (fun i d =>
                for_loop (Z.to_nat w_sz) 0%Z
                  (fun j d => vi <- vload v i ;;
                              a <- load d j ;; b <- load (data vi) j ;;
                              store d j (a + b)%R) d)
             (data w) ;;
      Ok (0%Z, Vec w_sz d).

Definition zsl_vec_scalar_add (v : zsl_vec) (s : zsl_real_t)
    : result (Z * zsl_vec) :=
  d <- for_loop (Z.to_nat (sz v)) 0%Z
         (fun i d => a <- load d i ;; store d i (a + s)%R) (data v) ;;
  Ok (0%Z, Vec (sz v) d).

Definition zsl_vec_scalar_mult (v : zsl_vec) (s : zsl_real_t)
    : result (Z * zsl_vec) :=
  d <- for_loop (Z.to_nat (sz v)) 0%Z
         (fun i d => a <- load d i ;; store d i (a * s)%R) (data v) ;;
  Ok (0%Z, Vec (sz v) d).

Definition zsl_vec_scalar_div (v : zsl_vec) (s : zsl_real_t)
    : result (Z * zsl_vec) :=
  if s == 0%R then Ok ((- EINVAL)%Z, v)
  else
    d <- for_loop (Z.to_nat (sz v)) 0%Z
           (fun i d => a <- load d i ;; store d i (a / s)%R) (data v) ;;
    Ok (0%Z, Vec (sz v) d).

(** [d] is the prior content of the cell the result is written to. *)
Definition zsl_vec_dot (v w : zsl_vec) (d : zsl_real_t)
    : result (Z * zsl_real_t) :=
  if CONFIG_ZSL_BOUNDS_CHECKS && negb (sz v =? sz w)%Z
  then Ok ((- EINVAL)%Z, d)
  else
    res <- for_loop (Z.to_nat (sz v)) 0%Z
             (fun i res => a <- load (data v) i ;; b <- load (data w) i ;;
                           Ok (res + a * b)%R)
             0%R ;;
    Ok (0%Z, res).

Definition zsl_vec_sum_of_sqrs (v : zsl_vec) : result zsl_real_t :=
  r <- zsl_vec_dot v v 0%R ;;
  Ok r.2.

Definition zsl_vec_magn (v : zsl_vec) : result zsl_real_t :=
  s <- zsl_vec_sum_of_sqrs v ;;
  Ok (sqrt s).

(** [xdat] is the variable length array of the call's own frame, cleared
    by [memset]. *)
Definition zsl_vec_dist (v w : zsl_vec) : result zsl_scalar :=
  let xdat := nseq (Z.to_nat (sz v)) 0%R in
  let x := Vec (sz v) xdat in
  r <- zsl_vec_sub v w x ;;
  if negb (r.1 =? 0)%Z then Ok NAN
  else m <- zsl_vec_magn r.2 ;; Ok (Real m).

Definition zsl_vec_norm (v : zsl_vec) : result zsl_real_t :=
  sum <- for_loop (Z.to_nat (sz v)) 0%Z
           (fun i sum => a <- load (data v) i ;; Ok (sum + a * a)%R) 0%R ;;
  Ok (sqrt sum).

Definition zsl_vec_to_unit (v : zsl_vec) : result (Z * zsl_vec) :=
  mag <- zsl_vec_norm v ;;
  if mag != 0%R then
    r <- zsl_vec_scalar_mult v (1 / mag)%R ;;
    Ok (0%Z, r.2)
  else
    r <- zsl_vec_init v ;;
    d <- store (data r.2) 0%Z 1%R ;;
    Ok (0%Z, Vec (sz r.2) d).

Definition zsl_vec_cross (v w c : zsl_vec) : result (Z * zsl_vec) :=
  if CONFIG_ZSL_BOUNDS_CHECKS
     && [|| negb (sz v =? 3)%Z, negb (sz w =? 3)%Z | negb (sz c =? 3)%Z]
  then Ok ((- EINVAL)%Z, c)
  else
    v0 <- load (data v) 0%Z ;; v1 <- load (data v) 1%Z ;;
    v2 <- load (data v) 2%Z ;;
    w0 <- load (data w) 0%Z ;; w1 <- load (data w) 1%Z ;;
    w2 <- load (data w) 2%Z ;;
    d <- store (data c) 0%Z (v1 * w2 - v2 * w1)%R ;;
    d <- store d 1%Z (v2 * w0 - v0 * w2)%R ;;
    d <- store d 2%Z (v0 * w1 - v1 * w0)%R ;;
    Ok (0%Z, Vec (sz c) d).

(** [1/n] is a quotient of integers ([1] is an [int], [n] a [size_t]); it
    is converted to [zsl_real_t] only when passed on. *)
Definition zsl_vec_mean (v : seq zsl_vec) (n : Z) (m : zsl_vec)
    : result (Z * zsl_vec) :=
  differs <- (if CONFIG_ZSL_BOUNDS_CHECKS
              then v0 <- vload v 0%Z ;; Ok (negb (sz m =? sz v0)%Z)
              else Ok false) ;;
  if differs then Ok ((- EINVAL)%Z, m)
  else
    r <- zsl_vec_sum v n m ;;
    if negb (r.1 =? 0)%Z then Ok r
    else
      r' <- zsl_vec_scalar_mult r.2 (IZR (1 / n)) ;;
      Ok (0%Z, r'.2).

(** [m] is the prior content of the cell the mean is written to; the
    division [*m /= v->sz] converts the length to [zsl_real_t]. *)
Definition zsl_vec_ar_mean (v : zsl_vec) (m : zsl_real_t)
    : result (Z * zsl_real_t) :=
  if (sz v <? 1)%Z then Ok ((- EINVAL)%Z, m)
  else
    m <- for_loop (Z.to_nat (sz v)) 0%Z
           (fun i m => a <- load (data v) i ;; Ok (m + a)%R) 0%R ;;
    Ok (0%Z, (m / IZR (sz v))%R).

(** The loop of [zsl_vec_rev]; [fuel] bounds the number of iterations. *)
Fixpoint rev_loop (fuel : nat) (start end_ : Z) (d : seq R) : result (seq R) :=
  if (start <? end_)%Z then
    if fuel is fuel'.+1 then
      t <- load d start ;;
      e <- load d end_ ;;
      d <- store d start e ;;
      d <- store d end_ t ;;
      rev_loop fuel' (size_wrap (start + 1)) (size_wrap (end_ - 1)) d
    else OutOfFuel
  else Ok d.

Definition zsl_vec_rev (v : zsl_vec) : result (Z * zsl_vec) :=
  let start := 0%Z in
  let end_ := size_wrap (sz v - 1) in
  d <- rev_loop (Z.to_nat end_) start end_ (data v) ;;
  Ok (0%Z, Vec (sz v) d).

(** The loop of [zsl_vec_is_equal]: [Ok false] is its early
    [return false]. *)
Fixpoint is_equal_loop (dv dw : seq R) (n : nat) (i : Z) : result bool :=
  if n is n'.+1 then
    a <- load dv i ;;
    b <- load dw i ;;
    if a != b then Ok false else is_equal_loop dv dw n' (i + 1)%Z
  else Ok true.

Definition zsl_vec_is_equal (v w : zsl_vec) : result bool :=
  if negb (sz v =? sz w)%Z then Ok false
  else is_equal_loop (data v) (data w) (Z.to_nat (sz v)) 0%Z.

(** The comparison [x < 0.0] of the code. *)
Definition Rlt_bool (x y : R) : bool := if Rlt_dec x y then true else false.

(** The loop of [zsl_vec_is_nonneg]: [Ok false] is its early
    [return false]. *)
Fixpoint is_nonneg_loop (d : seq R) (n : nat) (i : Z) : result bool :=
  if n is n'.+1 then
    a <- load d i ;;
    if Rlt_bool a 0%R then Ok false else is_nonneg_loop d n' (i + 1)%Z
  else Ok true.

Definition zsl_vec_is_nonneg (v : zsl_vec) : result bool :=
  is_nonneg_loop (data v) (Z.to_nat (sz v)) 0%Z.

End Vectors.

(** ** Matrices *)

(** The matrix record of [zsl/matrices.h]: [sz_rows] rows, [sz_cols]
    columns, the entries in row-major order.  ([mtx_data] is the field
    [data]; the name is taken by the vector record.) *)
Record zsl_mtx : Type := Mtx { sz_rows : Z; sz_cols : Z; mtx_data : seq R }.

(** The failure taxonomy of the determinant and inverse subsystem. *)
Inductive zsl_status : Type :=
| Success
| ShapeMismatch
| Singular.

(** Entry [(i, j)] of a row-major buffer with [n] columns; a slot the
    buffer does not have reads as zero. *)
Definition entry (n : nat) (d : seq R) (i j : nat) : R := nth 0%R d (i * n + j).

(** The sum of [f 0], ..., [f (n - 1)]. *)
Definition sum_upto (n : nat) (f : nat -> R) : R :=
  \big[Rplus/0%R]_(0 <= k < n) f k.

(** Modelled from the spec: the reduction step of [src/matrices.c], whose
    body is not among the sources (only the header [zsl/matrices.h] is).
    The submatrix formed by deleting row [i] and column [j] of the [n] by
    [n] matrix [d]. *)
Definition delete_row_col (n : nat) (d : seq R) (i j : nat) : seq R :=
  mkseq (fun k => entry n d (bump i (k %/ n.-1)) (bump j (k %% n.-1)))
        (n.-1 * n.-1).

(** Modelled from the spec: the recursion of [zsl_mtx_deter_recur] in the
    absent [src/matrices.c], the determinant by recursive cofactor
    expansion.  Order 1 returns the sole element, order 2 returns
    [ad - bc], a larger order expands along the first row, summing each
    element times its cofactor (the minor scaled by [(-1)^(0+j)]).  The
    spec does not speak of order 0; the empty product 1 is taken. *)
Fixpoint deter (n : nat) (d : seq R) : R :=
  match n with
  | 0 => 1%R
  | 1 => entry 1 d 0 0
  | 2 => (entry 2 d 0 0 * entry 2 d 1 1 - entry 2 d 0 1 * entry 2 d 1 0)%R
  | n'.+1 =>
      sum_upto n (fun j =>
        entry n d 0 j * (pow (- 1) (0 + j) * deter n' (delete_row_col n d 0 j)))%R
  end.

(** Modelled from the spec: what [zsl_mtx_minor] of the absent
    [src/matrices.c] computes, the determinant of the submatrix formed by
    deleting row [i] and column [j]. *)
Definition minor (n : nat) (d : seq R) (i j : nat) : R :=
  deter n.-1 (delete_row_col n d i j).

(** Modelled from the spec: what [zsl_mtx_cofactor] of the absent
    [src/matrices.c] computes, the minor scaled by [(-1)^(i+j)]. *)
Definition cofactor (n : nat) (d : seq R) (i j : nat) : R :=
  (pow (- 1) (i + j) * minor n d i j)%R.

(** Modelled from the spec: what [zsl_mtx_adjoint] of the absent
    [src/matrices.c] computes entry by entry, the adjugate: the transpose
    of the cofactor matrix. *)
Definition adjoint (n : nat) (d : seq R) : seq R :=
  mkseq (fun k => cofactor n d (k %% n) (k %/ n)) (n * n).

(** Order, shape tests and entries of a matrix record. *)
Definition order (m : zsl_mtx) : nat := Z.to_nat (sz_rows m).

Definition is_square (m : zsl_mtx) : bool := (sz_rows m =? sz_cols m)%Z.

Definition same_shape (ma mb : zsl_mtx) : bool :=
  (sz_rows ma =? sz_rows mb)%Z && (sz_cols ma =? sz_cols mb)%Z.

Definition mtx_get (m : zsl_mtx) (i j : nat) : R :=
  entry (Z.to_nat (sz_cols m)) (mtx_data m) i j.

(** Modelled from the spec: [zsl_mtx_deter_recur] of the absent
    [src/matrices.c], the determinant of a square matrix; a non-square
    matrix is a shape mismatch.  [d] is the prior content of the cell the
    result is written to. *)
Definition zsl_mtx_deter_recur (m : zsl_mtx) (d : R) : zsl_status * R :=
  if is_square m then (Success, deter (order m) (mtx_data m))
  else (ShapeMismatch, d).

(** Modelled from the spec: [zsl_mtx_inv] of the absent [src/matrices.c],
    the inverse by the adjugate method, [inverse = adjugate / determinant];
    it is rejected with the singular-matrix error when the determinant is
    exactly zero, and with a shape mismatch when [m] is not square or [mi]
    has another shape.  On rejection the output [mi] is as it was. *)
Definition zsl_mtx_inv (m mi : zsl_mtx) : zsl_status * zsl_mtx :=
  if is_square m && same_shape m mi then
    let det := deter (order m) (mtx_data m) in
    if det == 0%R then (Singular, mi)
    else (Success,
          Mtx (sz_rows mi) (sz_cols mi)
              [seq (a / det)%R | a <- adjoint (order m) (mtx_data m)])
  else (ShapeMismatch, mi).

(** Modelled from the spec: [zsl_mtx_mult] of the absent [src/matrices.c],
    the row-by-column product; the left column count must equal the right row count and the output has
    the left's rows and the right's columns. *)
Definition zsl_mtx_mult (ma mb mc : zsl_mtx) : zsl_status * zsl_mtx :=
  if [&& (sz_cols ma =? sz_rows mb)%Z, (sz_rows mc =? sz_rows ma)%Z
       & (sz_cols mc =? sz_cols mb)%Z] then
    let r := Z.to_nat (sz_rows ma) in
    let c := Z.to_nat (sz_cols mb) in
    let p := Z.to_nat (sz_cols ma) in
    (Success,
     Mtx (sz_rows mc) (sz_cols mc)
         (mkseq (fun k =>
                   sum_upto p (fun l =>
                     entry p (mtx_data ma) (k %/ c) l
                     * entry c (mtx_data mb) l (k %% c))%R)
                (r * c)))
  else (ShapeMismatch, mc).

(** ** The vocabulary of the statements *)

(** The declared length is a [size_t] and fits the backing buffer. *)
Definition vec_ok (v : zsl_vec) : bool :=
  [&& (0 <=? sz v)%Z, (sz v <? SIZE_MOD)%Z & (sz v <=? Z.of_nat (size (data v)))%Z].

(** Element [i] of the buffer. *)
Definition vget (v : zsl_vec) (i : Z) : R := nth 0%R (data v) (Z.to_nat i).

(** The logical content: the first [sz] slots. *)
Definition elems (v : zsl_vec) : seq R := take (Z.to_nat (sz v)) (data v).

(** The vector over a buffer cut to exactly its declared length. *)
Definition tight (v : zsl_vec) : zsl_vec := Vec (sz v) (elems v).

(** The loop of [zsl_vec_rev] once more, with a ghost record of the
    indices it reads and writes, in the order of the iterations;
    [rev_loop_erase] shows it is the same computation. *)
Fixpoint rev_loop_trace (fuel : nat) (start end_ : Z) (d : seq R)
    : result (seq R * seq Z) :=
  if (start <? end_)%Z then
    if fuel is fuel'.+1 then
      t <- load d start ;;
      e <- load d end_ ;;
      d <- store d start e ;;
      d <- store d end_ t ;;
      r <- rev_loop_trace fuel' (size_wrap (start + 1)) (size_wrap (end_ - 1)) d ;;
      Ok (r.1, start :: end_ :: r.2)
    else OutOfFuel
  else Ok (d, [::]).

(** The indices [zsl_vec_rev] touches. *)
Definition zsl_vec_rev_trace (v : zsl_vec) : result (seq Z) :=
  let end_ := size_wrap (sz v - 1) in
  r <- rev_loop_trace (Z.to_nat end_) 0%Z end_ (data v) ;;
  Ok r.2.

(** The sum of element [j] over a list of vectors. *)
Fixpoint col_sum (vs : seq zsl_vec) (j : Z) : R :=
  if vs is u :: vs' then (vget u j + col_sum vs' j)%R else 0%R.

(** The Euclidean norm of a list of reals, as mathematics has it. *)
Definition sum_of_squares (l : seq R) : R :=
  foldr (fun a acc => (a * a + acc)%R) 0%R l.

Definition euclidean_norm (l : seq R) : R := sqrt (sum_of_squares l).

(** The element-wise difference of two lists. *)
Definition seq_diff (a b : seq R) : seq R := [seq (p.1 - p.2)%R | p <- zip a b].

(** The vector [v] with its first [sz] slots holding [l]. *)
Definition with_elems (v : zsl_vec) (l : seq R) : zsl_vec :=
  Vec (sz v) (l ++ drop (Z.to_nat (sz v)) (data v)).

(** The sum and the dot product of lists of reals, as mathematics has
    them. *)
Definition seq_sum (l : seq R) : R := foldr Rplus 0%R l.

Definition dot_product (a b : seq R) : R :=
  foldr (fun p acc => (p.1 * p.2 + acc)%R) 0%R (zip a b).

(** The MathComp matrix an [n] by [n] row-major buffer stands for. *)
Section MatrixView.

Local Open Scope ring_scope.

Definition to_mx (n : nat) (d : seq R) : 'M[R]_n :=
  \matrix_(i < n, j < n) entry n d i j.

End MatrixView.

(** ** Sample data *)

(** Sample vectors used to exercise the theorems. *)
Definition vec_12 : zsl_vec := Vec 2 [:: 1%R; 2%R].
Definition vec_34 : zsl_vec := Vec 2 [:: 3%R; 4%R].
Definition vec_00 : zsl_vec := Vec 2 [:: 0%R; 0%R].

Definition vec_100 : zsl_vec := Vec 3 [:: 1%R; 0%R; 0%R].
Definition vec_010 : zsl_vec := Vec 3 [:: 0%R; 1%R; 0%R].
Definition vec_000 : zsl_vec := Vec 3 [:: 0%R; 0%R; 0%R].

Definition vec_12345 : zsl_vec := Vec 5 [:: 1%R; 2%R; 3%R; 4%R; 5%R].

(** An output that declares one slot over a buffer of five. *)
Definition vec_1of5 : zsl_vec := Vec 1 [:: 10%R; 20%R; 30%R; 40%R; 50%R].
Definition vec_11_22_33_44_55 : zsl_vec :=
  Vec 5 [:: (10 + 1)%R; (20 + 2)%R; (30 + 3)%R; (40 + 4)%R; (50 + 5)%R].

Definition vec_24 : zsl_vec := Vec 2 [:: 2%R; 4%R].
Definition vec_48 : zsl_vec := Vec 2 [:: 4%R; 8%R].

Definition vec_empty : zsl_vec := Vec 0 [::].

Definition vec_neg12 : zsl_vec := Vec 2 [:: (- 1)%R; 2%R].

(** A vector of [2^32 + 2] elements, each of them 1. *)
Definition vec_big : zsl_vec :=
  Vec 4294967298 (nseq (Z.to_nat 4294967298) 1%R).

(** The spec's concrete scenarios. *)
Definition mtx_1234 : zsl_mtx := Mtx 2 2 [:: 1%R; 2%R; 3%R; 4%R].
Definition mtx_2002 : zsl_mtx := Mtx 2 2 [:: 2%R; 0%R; 0%R; 2%R].
Definition mtx_0000 : zsl_mtx := Mtx 2 2 [:: 0%R; 0%R; 0%R; 0%R].

(** * Proofs *)

(** ** Well-formed vectors *)

Lemma vec_okP v :
  reflect ((0 <= sz v < SIZE_MOD)%Z /\ (sz v <= Z.of_nat (size (data v)))%Z)
          (vec_ok v).
Proof.
rewrite /vec_ok; apply: (iffP and3P).
- by case=> /Z.leb_le ? /Z.ltb_lt ? /Z.leb_le ?.
- by case=> -[? ?] ?; split; [apply/Z.leb_le | apply/Z.ltb_lt | apply/Z.leb_le].
Qed.

(** ** Buffer lemmas *)

Lemma in_bufP d i : reflect (0 <= i < Z.of_nat (size d))%Z (in_buf d i).
Proof.
rewrite /in_buf; apply: (iffP andP).
- by case=> /Z.leb_le ? /Z.ltb_lt ?.
- by case=> ? ?; split; [apply/Z.leb_le | apply/Z.ltb_lt].
Qed.

Lemma load_ok d i :
  (0 <= i < Z.of_nat (size d))%Z -> load d i = Ok (nth 0%R d (Z.to_nat i)).
Proof. by move=> /in_bufP H; rewrite /load H. Qed.

Lemma store_ok d i x :
  (0 <= i < Z.of_nat (size d))%Z ->
  store d i x = Ok (set_nth 0%R d (Z.to_nat i) x).
Proof. by move=> /in_bufP H; rewrite /store H. Qed.

Lemma size_set_nth_in (d : seq R) (i : nat) x :
  (i < size d)%coq_nat -> size (set_nth 0%R d i x) = size d.
Proof.
move=> /ltP H; rewrite size_set_nth; apply/maxn_idPr; exact: H.
Qed.

Lemma nth_set_nth_nat (d : seq R) (i k : nat) x :
  nth 0%R (set_nth 0%R d i x) k = if Nat.eqb k i then x else nth 0%R d k.
Proof.
rewrite nth_set_nth /=; case: eqP => [->|H].
- by rewrite Nat.eqb_refl.
- by case: (Nat.eqb_spec k i).
Qed.

(** The loop rule: an invariant kept by every iteration holds at exit,
    and the loop returns. *)
Lemma for_loop_inv (S : Type) (P : Z -> S -> Prop) (body : Z -> S -> result S)
    (n : nat) :
  forall (i0 : Z) (s : S),
    P i0 s ->
    (forall i s0, (i0 <= i < i0 + Z.of_nat n)%Z -> P i s0 ->
       exists2 s1, body i s0 = Ok s1 & P (i + 1)%Z s1) ->
    exists2 s', for_loop n i0 body s = Ok s' & P (i0 + Z.of_nat n)%Z s'.
Proof.
elim: n => [|n IH] i0 s H0 Hstep.
- by exists s => //; rewrite Z.add_0_r.
- have [|s1 E1 H1] := Hstep i0 s _ H0; first lia.
  have [|s' E' H'] := IH (i0 + 1)%Z s1 H1.
    by move=> i s0 Hi; apply: Hstep; lia.
  exists s'; first by rewrite /= E1.
  by have -> : (i0 + Z.of_nat n.+1 = i0 + 1 + Z.of_nat n)%Z by lia.
Qed.

(** Writing [f (dv[i]) (dw[i])] to [d[i]] for [i < n]. *)
Lemma zip_loop (f : R -> R -> R) (dv dw dx : seq R) (n : nat) :
  (n <= size dv)%coq_nat -> (n <= size dw)%coq_nat -> (n <= size dx)%coq_nat ->
  exists2 d',
    for_loop n 0%Z
      (fun i d => a <- load dv i ;; b <- load dw i ;; store d i (f a b)) dx
    = Ok d'
    & size d' = size dx /\
      forall k : nat,
        ((k < n)%coq_nat -> nth 0%R d' k = f (nth 0%R dv k) (nth 0%R dw k)) /\
        ((n <= k)%coq_nat -> nth 0%R d' k = nth 0%R dx k).
Proof.
move=> Hv Hw Hx.
pose P (i : Z) (d : seq R) :=
  size d = size dx /\
  forall k : nat,
    ((Z.of_nat k < i)%Z -> nth 0%R d k = f (nth 0%R dv k) (nth 0%R dw k)) /\
    ((i <= Z.of_nat k)%Z -> nth 0%R d k = nth 0%R dx k).
have [||d' E [Hs Hd]] := @for_loop_inv _ P
  (fun i d => a <- load dv i ;; b <- load dw i ;; store d i (f a b)) n 0%Z dx.
- by split=> // k; split=> //; lia.
- move=> i d Hi [Hs Hd].
  rewrite load_ok /=; [lia | ].
  rewrite load_ok /=; [lia | ].
  rewrite store_ok; [lia | ].
  eexists; first reflexivity.
  split; first by rewrite size_set_nth_in //; lia.
  move=> k; rewrite nth_set_nth_nat; case: (Nat.eqb_spec k (Z.to_nat i)) => Hk.
  + split=> [_|?]; last lia.
    by rewrite Hk.
  + by split=> Hlt; [apply (Hd k).1 | apply (Hd k).2]; lia.
- exists d' => //; split=> // k.
  by split=> Hk; [apply (Hd k).1 | apply (Hd k).2]; lia.
Qed.

(** Updating [d[i]] to [g i (d[i])] for [i < n]. *)
Lemma map_loop (g : Z -> R -> result R) (h : nat -> R -> R) (d0 : seq R) (n : nat) :
  (n <= size d0)%coq_nat ->
  (forall (i : Z) a, (0 <= i < Z.of_nat n)%Z -> g i a = Ok (h (Z.to_nat i) a)) ->
  exists2 d',
    for_loop n 0%Z (fun i d => a <- load d i ;; b <- g i a ;; store d i b) d0
    = Ok d'
    & size d' = size d0 /\
      forall k : nat,
        ((k < n)%coq_nat -> nth 0%R d' k = h k (nth 0%R d0 k)) /\
        ((n <= k)%coq_nat -> nth 0%R d' k = nth 0%R d0 k).
Proof.
move=> H0 Hg.
pose P (i : Z) (d : seq R) :=
  size d = size d0 /\
  forall k : nat,
    ((Z.of_nat k < i)%Z -> nth 0%R d k = h k (nth 0%R d0 k)) /\
    ((i <= Z.of_nat k)%Z -> nth 0%R d k = nth 0%R d0 k).
have [||d' E [Hs Hd]] := @for_loop_inv _ P
  (fun i d => a <- load d i ;; b <- g i a ;; store d i b) n 0%Z d0.
- by split=> // k; split=> //; lia.
- move=> i d Hi [Hs Hd].
  rewrite load_ok /=; [lia | ].
  rewrite Hg /=; [lia | ].
  rewrite store_ok; [lia | ].
  eexists; first reflexivity.
  split; first by rewrite size_set_nth_in //; lia.
  move=> k; rewrite nth_set_nth_nat; case: (Nat.eqb_spec k (Z.to_nat i)) => Hk.
  + split=> [_|?]; last lia.
    by rewrite Hk (Hd (Z.to_nat i)).2 //; lia.
  + by split=> Hlt; [apply (Hd k).1 | apply (Hd k).2]; lia.
- exists d' => //; split=> // k.
  by split=> Hk; [apply (Hd k).1 | apply (Hd k).2]; lia.
Qed.

Lemma for_loop_ext (S : Type) (f g : Z -> S -> result S) :
  (forall i s, f i s = g i s) ->
  forall n i s, for_loop n i f s = for_loop n i g s.
Proof.
move=> Hfg; elim=> [|n IH] i s //=.
by rewrite Hfg; case: (g i s) => //= s'.
Qed.

(** Two vectors with the same declared length and the same first [sz]
    slots have the same content. *)
Lemma elems_eq (v w : zsl_vec) :
  vec_ok v -> vec_ok w -> sz v = sz w ->
  (forall i, (0 <= i < sz v)%Z -> vget v i = vget w i) ->
  elems v = elems w.
Proof.
move=> /vec_okP [Hv1 Hv2] /vec_okP [Hw1 Hw2] Hsz H.
have Hsize (u : zsl_vec) : (sz u <= Z.of_nat (size (data u)))%Z ->
    size (elems u) = Z.to_nat (sz u).
  move=> Hu; rewrite /elems size_take.
  case: ltP => // Hn; lia.
apply: (@eq_from_nth _ 0%R); first by rewrite !Hsize // Hsz.
move=> k; rewrite Hsize // => /ltP Hk.
rewrite /elems !nth_take; try (apply/ltP; lia).
have := H (Z.of_nat k); rewrite /vget Nat2Z.id; apply; lia.
Qed.

Section VectorFacts.

Variable chk : bool.

(** The common shape of [zsl_vec_add] and [zsl_vec_sub]. *)
Lemma zip_call (f : R -> R -> R) (v w x : zsl_vec) :
  vec_ok v -> vec_ok w -> vec_ok x -> sz v = sz w -> sz v = sz x ->
  exists2 x',
    (if chk && (negb (sz v =? sz w)%Z || negb (sz v =? sz x)%Z)
     then Ok ((- EINVAL)%Z, x)
     else d <- for_loop (Z.to_nat (sz v)) 0%Z
                 (fun i d => a <- load (data v) i ;; b <- load (data w) i ;;
                             store d i (f a b)) (data x) ;;
          Ok (0%Z, Vec (sz x) d)) = Ok (0%Z, x')
    & [/\ sz x' = sz x, vec_ok x',
          forall i, (0 <= i < sz v)%Z -> vget x' i = f (vget v i) (vget w i)
        & forall i, (sz v <= i)%Z -> vget x' i = vget x i].
Proof.
move=> /vec_okP [Hv1 Hv2] /vec_okP [Hw1 Hw2] /vec_okP [Hx1 Hx2] Hvw Hvx.
rewrite -Hvw -Hvx !Z.eqb_refl /= andbF.
have [| | |d' -> [Hs Hd]] := @zip_loop f (data v) (data w) (data x)
  (Z.to_nat (sz v)); try lia.
exists (Vec (sz v) d') => //=; split=> //.
- by apply/vec_okP; rewrite /= Hs; split=> //; lia.
- move=> i Hi; rewrite /vget /=; apply (Hd (Z.to_nat i)).1; lia.
- move=> i Hi; rewrite /vget /=; apply (Hd (Z.to_nat i)).2; lia.
Qed.

Lemma zsl_vec_add_ok (v w x : zsl_vec) :
  vec_ok v -> vec_ok w -> vec_ok x -> sz v = sz w -> sz v = sz x ->
  exists2 x',
    zsl_vec_add chk v w x = Ok (0%Z, x')
    & [/\ sz x' = sz x, vec_ok x',
          forall i, (0 <= i < sz v)%Z -> vget x' i = (vget v i + vget w i)%R
        & forall i, (sz v <= i)%Z -> vget x' i = vget x i].
Proof. exact: zip_call. Qed.

Lemma zsl_vec_sub_ok (v w x : zsl_vec) :
  vec_ok v -> vec_ok w -> vec_ok x -> sz v = sz w -> sz v = sz x ->
  exists2 x',
    zsl_vec_sub chk v w x = Ok (0%Z, x')
    & [/\ sz x' = sz x, vec_ok x',
          forall i, (0 <= i < sz v)%Z -> vget x' i = (vget v i - vget w i)%R
        & forall i, (sz v <= i)%Z -> vget x' i = vget x i].
Proof. exact: zip_call. Qed.

(** Swapping the operands of [zsl_vec_add] changes neither the status nor
    the vector written, whatever the buffers hold. *)
Lemma zsl_vec_add_swap (v w x : zsl_vec) :
  sz v = sz w -> zsl_vec_add chk v w x = zsl_vec_add chk w v x.
Proof.
move=> Hvw; rewrite /zsl_vec_add -Hvw Z.eqb_refl.
congr (if _ then _ else bind _ _).
apply: for_loop_ext => i d.
rewrite /load; case: (in_buf (data v) i); case: (in_buf (data w) i) => //=.
by rewrite Rplus_comm.
Qed.

End VectorFacts.

(** C7. For vectors [v] and [w] of one common length and outputs [x], [y]
    of that length, [zsl_vec_add v w x] and [zsl_vec_add w v x] return the
    same status and write the same vector, and [zsl_vec_sub] applied to the
    sum and [w] returns 0 and writes a vector whose elements are those of
    [v], exactly. *)
Theorem zsl_vec_add_comm_sub_roundtrip (chk : bool) (v w x y : zsl_vec) :
  vec_ok v -> vec_ok w -> vec_ok x -> vec_ok y ->
  sz w = sz v -> sz x = sz v -> sz y = sz v ->
  zsl_vec_add chk v w x = zsl_vec_add chk w v x /\
  exists x' y',
    [/\ zsl_vec_add chk v w x = Ok (0%Z, x'),
        zsl_vec_sub chk x' w y = Ok (0%Z, y'),
        sz y' = sz v,
        forall i, (0 <= i < sz v)%Z -> vget y' i = vget v i
      & elems y' = elems v].
Proof.
move=> Hv Hw Hx Hy Hwv Hxv Hyv.
split; first exact: zsl_vec_add_swap.
have [x' Ex [Hsx Hokx Hx' _]] := zsl_vec_add_ok chk Hv Hw Hx (esym Hwv) (esym Hxv).
have Hx'w : sz x' = sz w by rewrite Hsx Hxv.
have Hx'y : sz x' = sz y by rewrite Hsx Hxv.
have [y' Ey [Hsy Hoky Hy' _]] := zsl_vec_sub_ok chk Hokx Hw Hy Hx'w Hx'y.
have Hel i : (0 <= i < sz v)%Z -> vget y' i = vget v i.
  move=> Hi; rewrite Hy'; first by rewrite Hsx Hxv.
  rewrite Hx' //; lra.
exists x', y'; split=> //; first by rewrite Hsy.
apply: elems_eq => //; first by rewrite Hsy.
by move=> i; rewrite Hsy Hyv; exact: Hel.
Qed.

Lemma zsl_vec_add_comm_sub_roundtrip_witness :
  zsl_vec_add true vec_12 vec_34 vec_00 = zsl_vec_add true vec_34 vec_12 vec_00 /\
  exists x' y',
    [/\ zsl_vec_add true vec_12 vec_34 vec_00 = Ok (0%Z, x'),
        zsl_vec_sub true x' vec_34 vec_00 = Ok (0%Z, y'),
        sz y' = sz vec_12,
        forall i, (0 <= i < sz vec_12)%Z -> vget y' i = vget vec_12 i
      & elems y' = elems vec_12].
Proof. by apply: (@zsl_vec_add_comm_sub_roundtrip true vec_12 vec_34 vec_00 vec_00). Defined.

(** The in-place loops [d[i] = g (d[i])] over a whole vector. *)
Lemma scale_call (g : R -> R) (v : zsl_vec) :
  vec_ok v ->
  exists2 v',
    (d <- for_loop (Z.to_nat (sz v)) 0%Z
            (fun i d => a <- load d i ;; store d i (g a)) (data v) ;;
     Ok (0%Z, Vec (sz v) d)) = Ok (0%Z, v')
    & [/\ sz v' = sz v, vec_ok v',
          forall i, (0 <= i < sz v)%Z -> vget v' i = g (vget v i)
        & forall i, (sz v <= i)%Z -> vget v' i = vget v i].
Proof.
move=> /vec_okP [Hv1 Hv2].
have [| |d' E [Hs Hd]] := @map_loop (fun _ a => Ok (g a)) (fun _ a => g a)
  (data v) (Z.to_nat (sz v)); [lia | by [] | ].
rewrite /= in E; rewrite E /=.
exists (Vec (sz v) d') => //; split=> //.
- by apply/vec_okP; rewrite /= Hs.
- move=> i Hi; rewrite /vget /=; apply (Hd (Z.to_nat i)).1; lia.
- move=> i Hi; rewrite /vget /=; apply (Hd (Z.to_nat i)).2; lia.
Qed.

Lemma zsl_vec_scalar_mult_ok (v : zsl_vec) (s : R) :
  vec_ok v ->
  exists2 v',
    zsl_vec_scalar_mult v s = Ok (0%Z, v')
    & [/\ sz v' = sz v, vec_ok v',
          forall i, (0 <= i < sz v)%Z -> vget v' i = (vget v i * s)%R
        & forall i, (sz v <= i)%Z -> vget v' i = vget v i].
Proof. exact: (@scale_call (fun a => a * s)%R). Qed.

(** C8. [zsl_vec_scalar_div] returns [-EINVAL] exactly when the scalar is
    zero, and then leaves the vector as it was; for a nonzero scalar it
    returns 0 and has divided every element by the scalar in place. *)
Theorem zsl_vec_scalar_div_spec (v : zsl_vec) (s : R) :
  [/\ (exists v', zsl_vec_scalar_div v s = Ok ((- EINVAL)%Z, v')) <-> s = 0%R,
      s = 0%R -> zsl_vec_scalar_div v s = Ok ((- EINVAL)%Z, v)
    & s <> 0%R -> vec_ok v ->
      exists2 v',
        zsl_vec_scalar_div v s = Ok (0%Z, v')
        & [/\ sz v' = sz v,
              forall i, (0 <= i < sz v)%Z -> vget v' i = (vget v i / s)%R
            & forall i, (sz v <= i)%Z -> vget v' i = vget v i]].
Proof.
have H0 : s = 0%R -> zsl_vec_scalar_div v s = Ok ((- EINVAL)%Z, v).
  by move=> ->; rewrite /zsl_vec_scalar_div eqxx.
split=> //.
- split; last by move=> /H0 E; exists v.
  case=> v'; rewrite /zsl_vec_scalar_div; case: eqP => // _.
  by case: (for_loop _ _ _ _).
- move=> /eqP /negbTE Hs Hv; rewrite /zsl_vec_scalar_div Hs.
  have [v' E [H1 _ H2 H3]] := @scale_call (fun a => a / s)%R v Hv.
  by exists v'.
Qed.

Lemma zsl_vec_scalar_div_spec_witness :
  exists2 v',
    zsl_vec_scalar_div vec_34 2%R = Ok (0%Z, v')
    & [/\ sz v' = sz vec_34,
          forall i, (0 <= i < sz vec_34)%Z -> vget v' i = (vget vec_34 i / 2)%R
        & forall i, (sz vec_34 <= i)%Z -> vget v' i = vget vec_34 i].
Proof.
have [_ _ H] := zsl_vec_scalar_div_spec vec_34 2%R.
apply: H; [lra | reflexivity].
Defined.

Section CrossFacts.

Variable chk : bool.

(** A well-formed vector of declared length 3 has at least three slots. *)
Lemma vec3_data (v : zsl_vec) :
  vec_ok v -> sz v = 3%Z ->
  exists a0 a1 a2 r, data v = [:: a0, a1, a2 & r].
Proof.
move=> /vec_okP [_ H] E; rewrite E in H.
case: (data v) H => [|a0 [|a1 [|a2 r]]] /= H; try lia.
by exists a0, a1, a2, r.
Qed.

Lemma zsl_vec_cross_ok (v w c : zsl_vec) :
  vec_ok v -> vec_ok w -> vec_ok c ->
  sz v = 3%Z -> sz w = 3%Z -> sz c = 3%Z ->
  zsl_vec_cross chk v w c =
  Ok (0%Z, Vec 3
     [:: (vget v 1 * vget w 2 - vget v 2 * vget w 1)%R,
         (vget v 2 * vget w 0 - vget v 0 * vget w 2)%R,
         (vget v 0 * vget w 1 - vget v 1 * vget w 0)%R
       & drop 3 (data c)]).
Proof.
move=> Hv Hw Hc Ev Ew Ec.
have [a0 [a1 [a2 [ra Da]]]] := vec3_data Hv Ev.
have [b0 [b1 [b2 [rb Db]]]] := vec3_data Hw Ew.
have [c0 [c1 [c2 [rc Dc]]]] := vec3_data Hc Ec.
rewrite /zsl_vec_cross /vget Ev Ew Ec Da Db Dc /= andbF.
repeat (rewrite load_ok /=; [lia | ]).
repeat (rewrite store_ok /=; [lia | ]).
by rewrite drop0.
Qed.

End CrossFacts.

Lemma zsl_vec_neg3 (x0 x1 x2 : R) (r : seq R) :
  zsl_vec_neg (Vec 3 [:: x0, x1, x2 & r]) =
  Ok (0%Z, Vec 3 [:: (- x0)%R, (- x1)%R, (- x2)%R & r]).
Proof.
rewrite /zsl_vec_neg /=.
repeat (rewrite load_ok /=; [lia | ]; rewrite store_ok /=; [lia | ]).
by [].
Qed.

(** C5. With the bounds checks compiled in, [zsl_vec_cross] on three
    vectors of length 3 returns 0 and the vector it writes for [(v, w)] is
    the negation, element by element, of the one it writes for [(w, v)];
    when one of the three lengths is not 3 it returns [-EINVAL] and the
    output is as it was.  The first part holds in either build. *)
Theorem zsl_vec_cross_anticomm (v w c : zsl_vec) :
  (forall chk : bool,
     vec_ok v -> vec_ok w -> vec_ok c ->
     sz v = 3%Z -> sz w = 3%Z -> sz c = 3%Z ->
     exists c1 c2 c2',
       [/\ zsl_vec_cross chk v w c = Ok (0%Z, c1),
           zsl_vec_cross chk w v c = Ok (0%Z, c2),
           zsl_vec_neg c2 = Ok (0%Z, c2'),
           c1 = c2'
         & forall i, (0 <= i < 3)%Z -> vget c1 i = (- vget c2 i)%R]) /\
  (~ [/\ sz v = 3%Z, sz w = 3%Z & sz c = 3%Z] ->
     zsl_vec_cross true v w c = Ok ((- EINVAL)%Z, c)).
Proof.
split.
- move=> chk Hv Hw Hc Ev Ew Ec.
  rewrite (zsl_vec_cross_ok chk Hv Hw Hc Ev Ew Ec).
  rewrite (zsl_vec_cross_ok chk Hw Hv Hc Ew Ev Ec).
  do 3 eexists; split; [reflexivity | reflexivity | exact: zsl_vec_neg3 | | ].
  + by congr (Vec _ [:: _, _, _ & _]); ring.
  + move=> i Hi; rewrite /vget /=.
    have [-> | [-> | ->]] : i = 0%Z \/ i = 1%Z \/ i = 2%Z by lia.
    all: by rewrite /=; ring.
- move=> H; rewrite /zsl_vec_cross /=.
  case: (Z.eqb_spec (sz v) 3) => Ev //=.
  case: (Z.eqb_spec (sz w) 3) => Ew //=.
  case: (Z.eqb_spec (sz c) 3) => Ec //=.
  by case: H.
Qed.

Lemma zsl_vec_cross_anticomm_witness :
  (exists c1 c2 c2',
     [/\ zsl_vec_cross true vec_100 vec_010 vec_000 = Ok (0%Z, c1),
         zsl_vec_cross true vec_010 vec_100 vec_000 = Ok (0%Z, c2),
         zsl_vec_neg c2 = Ok (0%Z, c2'),
         c1 = c2'
       & forall i, (0 <= i < 3)%Z -> vget c1 i = (- vget c2 i)%R]) /\
  zsl_vec_cross true vec_100 vec_12 vec_000 = Ok ((- EINVAL)%Z, vec_000).
Proof.
split.
- by apply: (proj1 (zsl_vec_cross_anticomm vec_100 vec_010 vec_000) true).
- apply: (proj2 (zsl_vec_cross_anticomm vec_100 vec_12 vec_000)).
  by case=> _ H _; discriminate H.
Defined.

(** Without the bounds checks a short vector is not rejected: the third
    component is read outside its buffer. *)
Example zsl_vec_cross_unchecked :
  zsl_vec_cross false vec_12 vec_34 vec_00 = Fault.
Proof. by []. Qed.

(** The spec's concrete scenario: the cross product of [1,0,0] and [0,1,0]
    is [0,0,1]. *)
Example zsl_vec_cross_e1_e2 :
  exists c, zsl_vec_cross true vec_100 vec_010 vec_000 = Ok (0%Z, c) /\
            elems c = [:: 0%R; 0%R; 1%R].
Proof.
rewrite zsl_vec_cross_ok //; eexists; split; first reflexivity.
by rewrite /elems /vget /=; congr [:: _; _; _]; ring.
Qed.

(** [lia] after turning the arithmetic of [ssrnat] back into that of the
    Standard Library. *)
Ltac nat_lia :=
  move=> *;
  repeat match goal with
         | H : context [addn] |- _ => rewrite -!plusE in H
         | H : context [subn] |- _ => rewrite -!minusE in H
         | H : context [muln] |- _ => rewrite -!multE in H
         end;
  rewrite -?plusE -?minusE -?multE; lia.

Lemma size_wrap_small (z : Z) : (0 <= z < SIZE_MOD)%Z -> size_wrap z = z.
Proof. by move=> H; rewrite /size_wrap Z.mod_small. Qed.

Lemma mem_copy_ok (dst src : seq R) (off n : Z) :
  (0 <= off)%Z -> (0 <= n)%Z ->
  (off + n <= Z.of_nat (size src))%Z -> (n <= Z.of_nat (size dst))%Z ->
  mem_copy dst src off n =
  Ok (take (Z.to_nat n) (drop (Z.to_nat off) src) ++ drop (Z.to_nat n) dst).
Proof.
move=> /Z.leb_le H1 /Z.leb_le H2 /Z.leb_le H3 /Z.leb_le H4.
by rewrite /mem_copy H1 H2 H3 H4.
Qed.

(** What [mem_copy] leaves in the destination. *)
Lemma nth_mem_copy (dst src : seq R) (off n k : nat) :
  (off + n <= size src)%coq_nat -> (n <= size dst)%coq_nat ->
  nth 0%R (take n (drop off src) ++ drop n dst) k =
  if (Z.of_nat k <? Z.of_nat n)%Z then nth 0%R src (off + k) else nth 0%R dst k.
Proof.
move=> Hs Hd.
have Hsz : size (take n (drop off src)) = n.
  rewrite size_take size_drop; case: ltP => // H; nat_lia.
rewrite nth_cat Hsz; case: (Z.ltb_spec (Z.of_nat k) (Z.of_nat n)) => Hk.
- have -> : (k < n) = true by apply/ltP; lia.
  by rewrite nth_take ?nth_drop //; apply/ltP; lia.
- have -> : (k < n) = false by apply/ltP; lia.
  rewrite nth_drop; congr (nth _ _ _); nat_lia.
Qed.

(** C2, as amended.  With the bounds checks compiled in, for a
    well-formed source [v] and destination [vsub], an offset below [v]'s
    length and a request reaching the end of [v] (the sum [offset + len]
    not wrapping): when the destination declares at least [sz v - offset]
    slots the call returns 0, has copied exactly the [sz v - offset]
    elements from [offset] on, and the destination's declared length is
    [sz v - offset], never above what it was; when the destination
    declares fewer it returns [-EINVAL] and the destination is as it was.
    For an offset at or beyond [v]'s length it returns [-EINVAL] and the
    destination is as it was. *)
Theorem zsl_vec_get_subset_spec (v : zsl_vec) (offset len : Z) (vsub : zsl_vec) :
  vec_ok v -> vec_ok vsub ->
  (0 <= offset)%Z -> (0 <= len)%Z -> (offset + len < SIZE_MOD)%Z ->
  [/\ (offset < sz v)%Z -> (sz v <= offset + len)%Z ->
      (sz v - offset <= sz vsub)%Z ->
      exists2 vsub',
        zsl_vec_get_subset true v offset len vsub = Ok (0%Z, vsub')
        & [/\ sz vsub' = (sz v - offset)%Z, (sz vsub' <= sz vsub)%Z,
              elems vsub' = drop (Z.to_nat offset) (elems v),
              forall i, (0 <= i < sz v - offset)%Z ->
                        vget vsub' i = vget v (offset + i)
            & forall i, (sz v - offset <= i)%Z -> vget vsub' i = vget vsub i],
      (offset < sz v)%Z -> (sz v <= offset + len)%Z ->
      (sz vsub < sz v - offset)%Z ->
      zsl_vec_get_subset true v offset len vsub = Ok ((- EINVAL)%Z, vsub)
    & (sz v <= offset)%Z ->
      zsl_vec_get_subset true v offset len vsub = Ok ((- EINVAL)%Z, vsub)].
Proof.
move=> /vec_okP [Hv1 Hv2] /vec_okP [Hs1 Hs2] Ho Hl Hsum.
have Hguard : (offset < sz v)%Z -> (sz v <= offset + len)%Z ->
    zsl_vec_get_subset true v offset len vsub =
    if (sz vsub <? sz v - offset)%Z then Ok ((- EINVAL)%Z, vsub)
    else d <- mem_copy (data vsub) (data v) offset (sz v - offset)%Z ;;
         Ok (0%Z, Vec (if (sz v - offset <? sz vsub)%Z
                       then (sz v - offset)%Z else sz vsub) d).
  move=> Hlt Hge; rewrite /zsl_vec_get_subset /=.
  have -> : (sz v <=? offset)%Z = false by apply/Z.leb_gt.
  rewrite (size_wrap_small (z:=offset + len)); first lia.
  have -> : (sz v <=? offset + len)%Z = true by apply/Z.leb_le.
  by rewrite size_wrap_small; first lia.
split.
- move=> Hlt Hge Hfit; rewrite Hguard //.
  have -> : (sz vsub <? sz v - offset)%Z = false by apply/Z.ltb_ge.
  rewrite mem_copy_ok /=; try lia.
  eexists; first reflexivity.
  have Hsz : (if (sz v - offset <? sz vsub)%Z then (sz v - offset)%Z
              else sz vsub) = (sz v - offset)%Z.
    by case: Z.ltb_spec => //; lia.
  have Hnth (k : nat) :
      nth 0%R (take (Z.to_nat (sz v - offset)) (drop (Z.to_nat offset) (data v))
               ++ drop (Z.to_nat (sz v - offset)) (data vsub)) k =
      if (Z.of_nat k <? sz v - offset)%Z
      then nth 0%R (data v) (Z.to_nat offset + k)
      else nth 0%R (data vsub) k.
    rewrite nth_mem_copy; try nat_lia.
    by rewrite Z2Nat.id; first lia.
  rewrite Hsz; split=> //=.
  + rewrite /elems /= take_size_cat.
      by rewrite size_take size_drop; case: ltP => // H; nat_lia.
    rewrite take_drop; congr (drop _ (take _ _)).
    nat_lia.
  + move=> i Hi; rewrite /vget /=.
    rewrite Hnth Z2Nat.id; first lia.
    have -> : (i <? sz v - offset)%Z = true by apply/Z.ltb_lt; lia.
    congr (nth _ _ _); nat_lia.
  + move=> i Hi; rewrite /vget /= Hnth Z2Nat.id; first lia.
    by have -> : (i <? sz v - offset)%Z = false by apply/Z.ltb_ge.
- move=> Hlt Hge Hsmall; rewrite Hguard //.
  by have -> : (sz vsub <? sz v - offset)%Z = true by apply/Z.ltb_lt.
- move=> Hge; rewrite /zsl_vec_get_subset /=.
  by have -> : (sz v <=? offset)%Z = true by apply/Z.leb_le.
Qed.

Lemma zsl_vec_get_subset_spec_witness :
  exists2 vsub',
    zsl_vec_get_subset true vec_12345 3 10 vec_000 = Ok (0%Z, vsub')
    & [/\ sz vsub' = (sz vec_12345 - 3)%Z, (sz vsub' <= sz vec_000)%Z,
          elems vsub' = drop (Z.to_nat 3) (elems vec_12345),
          forall i, (0 <= i < sz vec_12345 - 3)%Z ->
                    vget vsub' i = vget vec_12345 (3 + i)
        & forall i, (sz vec_12345 - 3 <= i)%Z -> vget vsub' i = vget vec_000 i].
Proof.
have [H _ _] : [/\ _, _ & _] :=
  @zsl_vec_get_subset_spec vec_12345 3 10 vec_000 erefl erefl
    ltac:(done) ltac:(done) ltac:(done).
by apply: H.
Defined.

(** C2 as stated fails: the request reaches past the end of the source and
    the offset is in range, yet the call does not succeed, because the
    destination declares fewer slots than remain in the source. *)
Lemma zsl_vec_get_subset_short_destination :
  [/\ vec_ok vec_12345, vec_ok vec_00,
      (0 < sz vec_12345)%Z, (sz vec_12345 < 0 + 10)%Z
    & ~ exists vsub',
          zsl_vec_get_subset true vec_12345 0 10 vec_00 = Ok (0%Z, vsub')].
Proof.
by split=> //; case=> vsub'.
Qed.

(** A request whose end [offset + len] wraps around [size_t] is not
    truncated; it is refused as too long for the destination. *)
Example zsl_vec_get_subset_wrapped_request :
  zsl_vec_get_subset true vec_12345 1 SIZE_MAX vec_12345
  = Ok ((- EINVAL)%Z, vec_12345).
Proof. by []. Qed.

(** The spec's scenario: near the end of a 5-element vector a request for
    10 elements copies the 2 that remain and the destination's declared
    length drops from 3 to 2. *)
Example zsl_vec_get_subset_tail :
  zsl_vec_get_subset true vec_12345 3 10 vec_000
  = Ok (0%Z, Vec 2 [:: 4%R; 5%R; 0%R]).
Proof. by []. Qed.

(** ** Reading a successful run back *)

Lemma bind_Ok (A B : Type) (m : result A) (f : A -> result B) (b : B) :
  bind m f = Ok b -> exists2 a, m = Ok a & f a = Ok b.
Proof. by case: m => //= a H; exists a. Qed.

Lemma load_Ok (d : seq R) (i : Z) (a : R) :
  load d i = Ok a ->
  (0 <= i < Z.of_nat (size d))%Z /\ a = nth 0%R d (Z.to_nat i).
Proof. by rewrite /load; case: in_bufP => // H [<-]. Qed.

Lemma store_Ok (d : seq R) (i : Z) (x : R) (d' : seq R) :
  store d i x = Ok d' ->
  (0 <= i < Z.of_nat (size d))%Z /\ d' = set_nth 0%R d (Z.to_nat i) x.
Proof. by rewrite /store; case: in_bufP => // H [<-]. Qed.

Lemma vload_Ok (v : seq zsl_vec) (i : Z) (u : zsl_vec) :
  vload v i = Ok u ->
  (0 <= i < Z.of_nat (size v))%Z /\ u = nth (Vec 0 [::]) v (Z.to_nat i).
Proof.
rewrite /vload; case: Z.leb_spec => //= H1; case: Z.ltb_spec => //= H2 [<-].
by split.
Qed.

(** The loop rule for a run known to have returned. *)
Lemma for_loop_run (S : Type) (P : Z -> S -> Prop) (body : Z -> S -> result S)
    (n : nat) :
  forall (i0 : Z) (s s' : S),
    P i0 s ->
    (forall i s0 s1, (i0 <= i < i0 + Z.of_nat n)%Z -> P i s0 ->
       body i s0 = Ok s1 -> P (i + 1)%Z s1) ->
    for_loop n i0 body s = Ok s' -> P (i0 + Z.of_nat n)%Z s'.
Proof.
elim: n => [|n IH] i0 s s' H0 Hstep /=.
- by case=> <-; rewrite Z.add_0_r.
- case E1: (body i0 s) => [s1| |] //= E'.
  have H1 : P (i0 + 1)%Z s1 by apply: (Hstep i0 s) => //; lia.
  have -> : (i0 + Z.of_nat n.+1 = i0 + 1 + Z.of_nat n)%Z by lia.
  apply: (IH (i0 + 1)%Z s1 s' H1) => // i s0 s2 Hi.
  by apply: Hstep; lia.
Qed.

Lemma col_sum_rcons (vs : seq zsl_vec) (u : zsl_vec) (j : Z) :
  col_sum (rcons vs u) j = (col_sum vs j + vget u j)%R.
Proof. by elim: vs => [|a vs IH] /=; [ring | rewrite IH; ring]. Qed.

(** The inner loop of [zsl_vec_sum]: [d[j] += dv[j]] for [j < m]. *)
Lemma accumulate_run (dv d d' : seq R) (m : nat) :
  for_loop m 0%Z
    (fun j d => a <- load d j ;; b <- load dv j ;; store d j (a + b)%R) d
  = Ok d' ->
  size d' = size d /\
  forall k : nat,
    nth 0%R d' k =
    if (Z.of_nat k <? Z.of_nat m)%Z then (nth 0%R d k + nth 0%R dv k)%R
    else nth 0%R d k.
Proof.
pose P (i : Z) (e : seq R) :=
  size e = size d /\
  forall k : nat,
    nth 0%R e k =
    if (Z.of_nat k <? i)%Z then (nth 0%R d k + nth 0%R dv k)%R
    else nth 0%R d k.
move=> H; apply: (for_loop_run (P := P) _ _ H).
- by split=> // k; case: Z.ltb_spec => //; lia.
- move=> i s0 s1 Hi [Hs Hd] E0.
  have [a /load_Ok [Ha ->] E1] := bind_Ok E0.
  have [b /load_Ok [Hb ->] /store_Ok [Hst ->]] := bind_Ok E1.
  split; first by rewrite size_set_nth_in //; lia.
  move=> k; rewrite nth_set_nth_nat !Hd.
  case: (Nat.eqb_spec k (Z.to_nat i)) => Hk.
  + rewrite -Hk; do 2 (case: Z.ltb_spec => //; try lia).
  + by do 2 (case: Z.ltb_spec => //; try lia).
Qed.

Lemma sum_check_true (v : seq zsl_vec) (sz_last : Z) (n : nat) :
  forall i0 : Z,
    sum_check v sz_last n i0 = Ok true ->
    forall i, (i0 <= i < i0 + Z.of_nat n)%Z ->
      exists2 u, vload v i = Ok u & size_of_int sz_last = sz u.
Proof.
elim: n => [|n IH] i0 /=; first by move=> _ i; lia.
case E: (vload v i0) => [u| |] //=.
case: Z.eqb_spec => //= Hu Hrest i Hi.
have [-> | Hi'] : i = i0 \/ (i0 + 1 <= i < i0 + 1 + Z.of_nat n)%Z by lia.
- by exists u.
- exact: (IH _ Hrest).
Qed.

Lemma vload_ok (v : seq zsl_vec) (i : Z) :
  (0 <= i < Z.of_nat (size v))%Z ->
  vload v i = Ok (nth (Vec 0 [::]) v (Z.to_nat i)).
Proof.
move=> [H1 H2]; rewrite /vload.
have -> : (0 <=? i)%Z = true by apply/Z.leb_le.
by have -> : (i <? Z.of_nat (size v))%Z = true by apply/Z.ltb_lt.
Qed.

(** The size check in closed form. *)
Lemma sum_check_eq (v : seq zsl_vec) (sz_last : Z) (n : nat) :
  forall i : nat,
    (Z.of_nat i + Z.of_nat n <= Z.of_nat (size v))%Z ->
    sum_check v sz_last n (Z.of_nat i)
    = Ok (all (fun u => (size_of_int sz_last =? sz u)%Z) (take n (drop i v))).
Proof.
elim: n => [|n IH] i Hi; first by rewrite take0.
rewrite /= vload_ok; first lia.
rewrite /= Nat2Z.id (drop_nth (Vec 0 [::])); first by apply/ltP; lia.
rewrite /=; case: (Z.eqb _ _) => //=.
have -> : (Z.of_nat i + 1 = Z.of_nat i.+1)%Z by lia.
by apply: IH; lia.
Qed.

Lemma accumulate_ok (dv d : seq R) (m : nat) :
  (m <= size d)%coq_nat -> (m <= size dv)%coq_nat ->
  exists2 d',
    for_loop m 0%Z
      (fun j d => a <- load d j ;; b <- load dv j ;; store d j (a + b)%R) d
    = Ok d'
    & size d' = size d.
Proof.
move=> Hd Hv.
have [| |d' E Hs] := @for_loop_inv _ (fun _ e => size e = size d)
  (fun j d => a <- load d j ;; b <- load dv j ;; store d j (a + b)%R)
  m 0%Z d.
- by [].
- move=> i s0 Hi Hs; rewrite load_ok /=; first by rewrite Hs; lia.
  rewrite load_ok /=; first lia.
  rewrite store_ok; first by rewrite Hs; lia.
  eexists; first reflexivity.
  by rewrite size_set_nth_in ?Hs //; lia.
- by exists d'.
Qed.

(** The inner loop of [zsl_vec_sum] reads [v[i]] in its body: with no
    element to add it never does. *)
Lemma sum_inner_loop (v : seq zsl_vec) (i : Z) (m : nat) (d : seq R) :
  for_loop m 0%Z
    (fun j d => vi <- vload v i ;; a <- load d j ;; b <- load (data vi) j ;;
                store d j (a + b)%R) d
  = if m is 0 then Ok d
    else vi <- vload v i ;;
         for_loop m 0%Z
           (fun j d => a <- load d j ;; b <- load (data vi) j ;;
                       store d j (a + b)%R) d.
Proof. by case: m => [|m] //; case E: (vload v i) => [vi| |]. Qed.

Lemma sum_inner_Ok (v : seq zsl_vec) (i : Z) (m : nat) (d d' : seq R) :
  for_loop m 0%Z
    (fun j d => vi <- vload v i ;; a <- load d j ;; b <- load (data vi) j ;;
                store d j (a + b)%R) d
  = Ok d' ->
  (m = 0%nat /\ d' = d) \/
  exists2 vi,
    vload v i = Ok vi
    & for_loop m 0%Z
        (fun j d => a <- load d j ;; b <- load (data vi) j ;;
                    store d j (a + b)%R) d
      = Ok d'.
Proof.
rewrite sum_inner_loop; case: m => [[<-]|m]; first by left.
by move=> H; have [vi E1 E2] := bind_Ok H; right; exists vi.
Qed.

Lemma sum_inner_ok (v : seq zsl_vec) (i : Z) (m : nat) (d : seq R) :
  (m <= size d)%coq_nat ->
  (m <> 0%nat ->
   (0 <= i < Z.of_nat (size v))%Z /\
   (m <= size (data (nth (Vec 0 [::]) v (Z.to_nat i))))%coq_nat) ->
  exists2 d',
    for_loop m 0%Z
      (fun j d => vi <- vload v i ;; a <- load d j ;; b <- load (data vi) j ;;
                  store d j (a + b)%R) d
    = Ok d'
    & size d' = size d.
Proof.
move=> Hd Hv; rewrite sum_inner_loop.
case: m Hd Hv => [|m] Hd Hv; first by exists d.
have [Hi Hcap] := Hv ltac:(done).
rewrite vload_ok //.
exact: accumulate_ok.
Qed.

(** The conversions of a [size_t] to [int] and back are exact on lengths
    an [int] can hold. *)
Lemma size_of_int_of_size (s : Z) :
  (0 <= s <= INT_MAX)%Z -> size_of_int (int_of_size s) = s.
Proof.
move=> H; rewrite /size_of_int /int_of_size /INT_MOD /SIZE_MOD.
rewrite /INT_MAX in H.
rewrite (Z.mod_small s); first lia.
case: Z.leb_spec => Hle; last by rewrite /INT_MAX in Hle; lia.
by rewrite Z.mod_small; lia.
Qed.

Section SumFacts.

Variable chk : bool.

(** What a returning call of [zsl_vec_sum] has done. *)
Lemma zsl_vec_sum_run (v : seq zsl_vec) (n : Z) (w w' : zsl_vec) :
  (0 < n)%Z ->
  zsl_vec_sum chk v n w = Ok (0%Z, w') ->
  let v0 := nth (Vec 0 [::]) v 0 in
  [/\ sz w' = size_of_int (int_of_size (sz v0)),
      chk -> forall i, (0 <= i < n)%Z ->
                       sz (nth (Vec 0 [::]) v (Z.to_nat i)) = sz w',
      size (data w') = size (data w)
    & forall k : nat,
        nth 0%R (data w') k =
        if (Z.of_nat k <? sz w')%Z
        then (nth 0%R (data w) k
              + col_sum (take (Z.to_nat n) v) (Z.of_nat k))%R
        else nth 0%R (data w) k].
Proof.
move=> Hn; rewrite /zsl_vec_sum.
have -> : (n =? 0)%Z = false by apply/Z.eqb_neq; lia.
case E0: (vload v 0%Z) => [v0| |] //=.
have [H0 Ev0] := vload_Ok E0; rewrite -Ev0.
set sz_last := int_of_size (sz v0); set w_sz := size_of_int sz_last.
case Ec: (if chk then _ else _) => [same| |] //=.
case: same Ec => //= Ec.
case El: (for_loop _ _ _ _) => [d| |] //= [<-] /=.
have Hchk : chk -> forall i, (0 <= i < n)%Z ->
    sz (nth (Vec 0 [::]) v (Z.to_nat i)) = w_sz.
  move=> Hc; rewrite Hc in Ec => i Hi.
  have [|u /vload_Ok [_ <-] <- //] := sum_check_true Ec (i := i).
  by rewrite Z2Nat.id; lia.
pose Q (i : Z) (e : seq R) :=
  size e = size (data w) /\
  forall k : nat,
    nth 0%R e k =
    if (Z.of_nat k <? w_sz)%Z
    then (nth 0%R (data w) k + col_sum (take (Z.to_nat i) v) (Z.of_nat k))%R
    else nth 0%R (data w) k.
have [Hs Hd] : Q (0 + Z.of_nat (Z.to_nat n))%Z d.
{ apply: (for_loop_run (P := Q) _ _ El).
  - split=> // k; rewrite take0 /=; case: Z.ltb_spec => // _; ring.
  - move=> i s0 s1 Hi [Hs Hd] Eb.
    have Hw0 : (0 <= w_sz)%Z.
      rewrite /w_sz /size_of_int /SIZE_MOD.
      by have := Z.mod_pos_bound sz_last 18446744073709551616; lia.
    have [[Em ->]|[vi /vload_Ok [Hvi Evi] Einner]] := sum_inner_Ok Eb.
      split=> // k; rewrite Hd.
      by case: Z.ltb_spec => // ?; lia.
    have [Hs1 Hd1] := accumulate_run Einner.
    split; first by rewrite Hs1.
    move=> k; rewrite Hd1 Hd.
    have -> : Z.to_nat (i + 1) = (Z.to_nat i).+1 by lia.
    rewrite (take_nth (Vec 0 [::])); first by apply/ltP; lia.
    rewrite col_sum_rcons -Evi /vget Nat2Z.id.
    have -> : Z.of_nat (Z.to_nat w_sz) = Z.max 0 w_sz by lia.
    case: Z.ltb_spec => H1; case: Z.ltb_spec => H2; try lia; ring. }
split=> //.
by move: Hd; rewrite Z.add_0_l Nat2Z.id.
Qed.

End SumFacts.

(** [zsl_vec_sum] accumulates into the output as it finds it: after a
    call on [n >= 1] vectors that returned 0, element [j] of the output is
    its prior element [j] plus the sum of the inputs' elements [j], the
    slots beyond are untouched, and the output's declared length is the
    first input's length whatever it was before, in the checked build,
    and in the unchecked one for every length an [int] holds. *)
Theorem zsl_vec_sum_accumulates (chk : bool) (v : seq zsl_vec) (n : Z)
    (w w' : zsl_vec) :
  (0 < n)%Z ->
  zsl_vec_sum chk v n w = Ok (0%Z, w') ->
  let v0 := nth (Vec 0 [::]) v 0 in
  [/\ chk -> sz w' = sz v0,
      (0 <= sz v0 <= INT_MAX)%Z -> sz w' = sz v0,
      forall j, (0 <= j < sz w')%Z ->
        vget w' j = (vget w j + col_sum (take (Z.to_nat n) v) j)%R
    & forall j, (sz w' <= j)%Z -> vget w' j = vget w j].
Proof.
move=> Hn Hrun v0.
have [Hsz Hchk Hsize Hd] := zsl_vec_sum_run Hn Hrun.
split.
- by move=> Hc; rewrite -(Hchk Hc 0%Z) //; lia.
- by move=> Hv0; rewrite Hsz size_of_int_of_size.
- move=> j Hj; rewrite /vget Hd Z2Nat.id; first lia.
  by have -> : (j <? sz w')%Z = true by apply/Z.ltb_lt; lia.
- move=> j Hj; rewrite /vget Hd.
  case: Z.ltb_spec => // Hlt.
  have Hz : (0 <= sz w')%Z.
    rewrite Hsz /size_of_int /SIZE_MOD.
    by have := Z.mod_pos_bound (int_of_size (sz v0)) 18446744073709551616; lia.
  lia.
Qed.

Example zsl_vec_sum_raises_length :
  zsl_vec_sum true [:: vec_12345] 1 vec_1of5 = Ok (0%Z, vec_11_22_33_44_55).
Proof. by []. Qed.

Lemma zsl_vec_sum_accumulates_witness :
  [/\ true -> sz vec_11_22_33_44_55 = sz vec_12345,
      (0 <= sz vec_12345 <= INT_MAX)%Z -> sz vec_11_22_33_44_55 = sz vec_12345,
      forall j, (0 <= j < sz vec_11_22_33_44_55)%Z ->
        vget vec_11_22_33_44_55 j =
        (vget vec_1of5 j + col_sum (take (Z.to_nat 1) [:: vec_12345]) j)%R
    & forall j, (sz vec_11_22_33_44_55 <= j)%Z ->
        vget vec_11_22_33_44_55 j = vget vec_1of5 j] /\
  (sz vec_1of5 < sz vec_11_22_33_44_55)%Z.
Proof.
split; last by [].
by apply: (@zsl_vec_sum_accumulates true [:: vec_12345] 1 vec_1of5).
Defined.

(** A returning in-place loop [d[i] = g (d[i])] for [i < m]. *)
Lemma scale_run (g : R -> R) (d d' : seq R) (m : nat) :
  for_loop m 0%Z (fun i d => a <- load d i ;; store d i (g a)) d = Ok d' ->
  size d' = size d /\
  forall k : nat,
    nth 0%R d' k =
    if (Z.of_nat k <? Z.of_nat m)%Z then g (nth 0%R d k) else nth 0%R d k.
Proof.
pose P (i : Z) (e : seq R) :=
  size e = size d /\
  forall k : nat,
    nth 0%R e k = if (Z.of_nat k <? i)%Z then g (nth 0%R d k) else nth 0%R d k.
move=> H; apply: (for_loop_run (P := P) _ _ H).
- by split=> // k; case: Z.ltb_spec => //; lia.
- move=> i s0 s1 Hi [Hs Hd] E0.
  have [a /load_Ok [Ha ->] /store_Ok [Hst ->]] := bind_Ok E0.
  split; first by rewrite size_set_nth_in //; lia.
  move=> k; rewrite nth_set_nth_nat !Hd.
  case: (Nat.eqb_spec k (Z.to_nat i)) => Hk.
  + rewrite -Hk; do 2 (case: Z.ltb_spec => //; try lia).
  + by do 2 (case: Z.ltb_spec => //; try lia).
Qed.

(** What a returning call of [zsl_vec_mean] has written: the accumulated
    sum scaled by the integer quotient [1 / n]. *)
Lemma zsl_vec_mean_run (chk : bool) (v : seq zsl_vec) (n : Z) (m m' : zsl_vec) :
  (0 < n)%Z ->
  zsl_vec_mean chk v n m = Ok (0%Z, m') ->
  forall j, (0 <= j < sz m')%Z ->
    vget m' j =
    ((vget m j + col_sum (take (Z.to_nat n) v) j) * IZR (1 / n))%R.
Proof.
move=> Hn; rewrite /zsl_vec_mean.
case Ed: (if chk then _ else _) => [differs| |] //=.
case: differs Ed => // _.
case Es: (zsl_vec_sum chk v n m) => [[rc w]| |] //=.
case: Z.eqb_spec => [Erc | Hne] /=; last by case=> H; case: Hne.
rewrite Erc in Es.
have [Hsz _ Hsize Hd] := zsl_vec_sum_run Hn Es.
rewrite /zsl_vec_scalar_mult.
case El: (for_loop _ _ _ _) => [d| |] //= [<-] /= j Hj.
have [_ Hd'] := scale_run El.
rewrite /vget /= Hd' Hd !Z2Nat.id; try lia.
by have -> : (j <? sz w)%Z = true by apply/Z.ltb_lt; lia.
Qed.

(** For two or more inputs the quotient [1 / n] is the integer 0, and the
    vector written is all zero, whatever the inputs hold. *)
Lemma zsl_vec_mean_zero (chk : bool) (v : seq zsl_vec) (n : Z) (m m' : zsl_vec) :
  (2 <= n)%Z ->
  zsl_vec_mean chk v n m = Ok (0%Z, m') ->
  forall j, (0 <= j < sz m')%Z -> vget m' j = 0%R.
Proof.
move=> Hn Hrun j Hj.
have Hn' : (0 < n)%Z by lia.
rewrite (zsl_vec_mean_run Hn' Hrun) // Z.div_small; first lia.
by rewrite Rmult_0_r.
Qed.

(** C1 fails on the code.  The mean of [2,4] and [4,8] is [3,6]; the call
    returns 0 and writes [0,0], since [1/n] is evaluated on integers. *)
Theorem zsl_vec_mean_truncates :
  exists m',
    [/\ zsl_vec_mean true [:: vec_24; vec_48] 2 vec_00 = Ok (0%Z, m'),
        elems m' = [:: 0%R; 0%R]
      & elems m' <> [:: 3%R; 6%R]].
Proof.
eexists; split; first by rewrite /zsl_vec_mean /=; reflexivity.
- by rewrite /elems /= (_ : (1 / 2 = 0)%Z) // !Rmult_0_r.
- rewrite /elems /= (_ : (1 / 2 = 0)%Z) // => -[H _]; lra.
Qed.

(** ** Norms *)

Lemma sum_of_squares_rcons (l : seq R) (a : R) :
  sum_of_squares (rcons l a) = (sum_of_squares l + a * a)%R.
Proof. by elim: l => [|b l IH] /=; [ring | rewrite IH; ring]. Qed.

Lemma sum_of_squares_ge0 (l : seq R) : (0 <= sum_of_squares l)%R.
Proof. by elim: l => [|a l IH] /=; [lra | nra]. Qed.

Lemma sum_of_squares_scale (l : seq R) (c : R) :
  sum_of_squares [seq (a * c)%R | a <- l] = (sum_of_squares l * (c * c))%R.
Proof. by elim: l => [|a l IH] /=; [ring | rewrite IH; ring]. Qed.

Lemma size_elems (v : zsl_vec) : vec_ok v -> size (elems v) = Z.to_nat (sz v).
Proof.
move=> /vec_okP [H1 H2]; rewrite /elems size_take.
by case: ltP => // H; lia.
Qed.

Lemma nth_elems (v : zsl_vec) (k : nat) :
  (Z.of_nat k < sz v)%Z -> nth 0%R (elems v) k = vget v (Z.of_nat k).
Proof.
by move=> H; rewrite /elems /vget Nat2Z.id nth_take //; apply/ltP; lia.
Qed.

(** The loops of [zsl_vec_norm] and [zsl_vec_dot v v]. *)
Lemma norm_loop (d : seq R) (n : nat) :
  (n <= size d)%coq_nat ->
  for_loop n 0%Z (fun i sum => a <- load d i ;; Ok (sum + a * a)%R) 0%R
  = Ok (sum_of_squares (take n d)).
Proof.
move=> Hn.
pose P (i : Z) (s : R) := s = sum_of_squares (take (Z.to_nat i) d).
have [| |s -> ->] := @for_loop_inv _ P
  (fun i sum => a <- load d i ;; Ok (sum + a * a)%R) n 0%Z 0%R.
- by rewrite /P take0.
- move=> i s0 Hi ->; rewrite load_ok /=; first lia.
  eexists; first reflexivity.
  rewrite /P; have -> : Z.to_nat (i + 1) = (Z.to_nat i).+1 by lia.
  rewrite (take_nth 0%R); first by apply/ltP; lia.
  by rewrite sum_of_squares_rcons.
- by rewrite Z.add_0_l Nat2Z.id.
Qed.

Lemma dot_self_loop (d : seq R) (n : nat) :
  (n <= size d)%coq_nat ->
  for_loop n 0%Z
    (fun i res => a <- load d i ;; b <- load d i ;; Ok (res + a * b)%R) 0%R
  = Ok (sum_of_squares (take n d)).
Proof.
move=> Hn; rewrite -(norm_loop Hn); apply: for_loop_ext => i s.
by rewrite /load; case: (in_buf d i).
Qed.

Lemma zsl_vec_norm_ok (v : zsl_vec) :
  vec_ok v -> zsl_vec_norm v = Ok (euclidean_norm (elems v)).
Proof.
move=> /vec_okP [H1 H2]; rewrite /zsl_vec_norm norm_loop //; lia.
Qed.

Lemma zsl_vec_magn_ok (chk : bool) (v : zsl_vec) :
  vec_ok v -> zsl_vec_magn chk v = Ok (euclidean_norm (elems v)).
Proof.
move=> /vec_okP [H1 H2].
rewrite /zsl_vec_magn /zsl_vec_sum_of_sqrs /zsl_vec_dot Z.eqb_refl andbF.
by rewrite dot_self_loop //; lia.
Qed.

Lemma nth_seq_diff (a b : seq R) (k : nat) :
  size a = size b -> (k < size a)%coq_nat ->
  nth 0%R (seq_diff a b) k = (nth 0%R a k - nth 0%R b k)%R.
Proof.
move=> Hs /ltP Hk; rewrite /seq_diff.
rewrite (nth_map (0%R, 0%R)); first by rewrite size_zip -Hs minnn.
by rewrite nth_zip.
Qed.

Lemma zsl_vec_dist_ok (chk : bool) (v w : zsl_vec) :
  vec_ok v -> vec_ok w -> sz v = sz w ->
  zsl_vec_dist chk v w
  = Ok (Real (euclidean_norm (seq_diff (elems v) (elems w)))).
Proof.
move=> Hv Hw Hsz; rewrite /zsl_vec_dist.
set x := Vec (sz v) _.
have Hx : vec_ok x.
  move/vec_okP: Hv => [Hv1 Hv2]; apply/vec_okP.
  by rewrite /x /= size_nseq; lia.
have [x' -> [Hsx Hokx Hx' _]] := zsl_vec_sub_ok chk Hv Hw Hx Hsz (erefl _).
rewrite /= (zsl_vec_magn_ok chk Hokx) /=.
congr (Ok (Real (euclidean_norm _))).
have Hsv := size_elems Hv; have Hsw := size_elems Hw.
have Hsx' := size_elems Hokx; rewrite Hsx /= in Hsx'.
move/vec_okP: (Hv) => [Hv1 _].
apply: (@eq_from_nth _ 0%R).
- by rewrite /seq_diff size_map size_zip Hsv Hsw -Hsz minnn.
- move=> k; rewrite Hsx' => /ltP Hk.
  rewrite nth_seq_diff; [by rewrite Hsv Hsw Hsz | by rewrite Hsv | ].
  rewrite !nth_elems; try lia.
  + by rewrite Hsx /=; lia.
  + by apply: Hx'; lia.
Qed.

(** C6. With the bounds checks compiled in, [zsl_vec_dist] on vectors of
    differing lengths returns the not-a-number value, neither a status
    code nor a fault; on vectors of equal length it returns the Euclidean
    norm of their element-wise difference (in either build). *)
Theorem zsl_vec_dist_spec (v w : zsl_vec) :
  (sz v <> sz w -> zsl_vec_dist true v w = Ok NAN) /\
  (forall chk : bool,
     vec_ok v -> vec_ok w -> sz v = sz w ->
     zsl_vec_dist chk v w
     = Ok (Real (euclidean_norm (seq_diff (elems v) (elems w))))).
Proof.
split; last by move=> chk; exact: zsl_vec_dist_ok.
move=> /Z.eqb_neq H.
by rewrite /zsl_vec_dist /zsl_vec_sub /= H.
Qed.

Lemma zsl_vec_dist_spec_witness :
  zsl_vec_dist true vec_12 vec_000 = Ok NAN /\
  zsl_vec_dist true vec_12 vec_34
  = Ok (Real (euclidean_norm (seq_diff (elems vec_12) (elems vec_34)))).
Proof.
split.
- by apply: (proj1 (zsl_vec_dist_spec vec_12 vec_000)).
- by apply: (proj2 (zsl_vec_dist_spec vec_12 vec_34) true).
Defined.

(** Without the bounds checks a length mismatch is not detected: the loop
    runs over the first vector's length and is a fault when the second is
    shorter. *)
Example zsl_vec_dist_unchecked :
  zsl_vec_dist false vec_12345 vec_12 = Fault.
Proof. by []. Qed.

(** The distance between [1,2] and [3,4] is the square root of 8. *)
Example zsl_vec_dist_12_34 :
  zsl_vec_dist true vec_12 vec_34 = Ok (Real (sqrt 8)).
Proof.
rewrite zsl_vec_dist_ok //.
by congr (Ok (Real (sqrt _))); rewrite /elems /seq_diff /=; ring.
Qed.

(** ** Unit vectors *)

Lemma zsl_vec_init_ok (v : zsl_vec) :
  vec_ok v ->
  zsl_vec_init v
  = Ok (0%Z, Vec (sz v) (nseq (Z.to_nat (sz v)) 0%R ++ drop (Z.to_nat (sz v)) (data v))).
Proof.
move=> /vec_okP [[/Z.leb_le H1 _] /Z.leb_le H2].
by rewrite /zsl_vec_init /mem_zero H1 H2.
Qed.

Lemma zsl_vec_to_unit_scaled (v : zsl_vec) :
  vec_ok v -> euclidean_norm (elems v) <> 0%R ->
  exists2 v',
    zsl_vec_to_unit v = Ok (0%Z, v')
    & [/\ sz v' = sz v,
          forall i, (0 <= i < sz v)%Z ->
                    vget v' i = (vget v i / euclidean_norm (elems v))%R,
          forall i, (sz v <= i)%Z -> vget v' i = vget v i
        & zsl_vec_norm v' = Ok 1%R].
Proof.
move=> Hv Hmag; set mag := euclidean_norm (elems v) in Hmag *.
rewrite /zsl_vec_to_unit zsl_vec_norm_ok //= -/mag.
have -> : (mag != 0%R) = true by apply/eqP.
have [v' -> [Hsz Hok Hin Hout]] := zsl_vec_scalar_mult_ok (1 / mag)%R Hv.
exists v' => //=; split=> //.
- by move=> i Hi; rewrite Hin //; field.
- rewrite zsl_vec_norm_ok //; congr Ok.
  have -> : elems v' = [seq (a * (1 / mag))%R | a <- elems v].
    apply: (@eq_from_nth _ 0%R); first by rewrite size_map !size_elems // Hsz.
    move=> k; rewrite size_elems // Hsz => /ltP Hk.
    move/vec_okP: (Hv) => [Hv1 _].
    rewrite (nth_map 0%R); first by rewrite size_elems //; apply/ltP.
    by rewrite !nth_elems; try lia; apply: Hin; lia.
  rewrite /euclidean_norm sum_of_squares_scale.
  have HS := sum_of_squares_ge0 (elems v).
  have Hsq : (mag * mag = sum_of_squares (elems v))%R by apply: sqrt_sqrt.
  rewrite -Hsq (_ : (mag * mag * (1 / mag * (1 / mag)) = 1)%R) ?sqrt_1 //.
  by field.
Qed.

Lemma zsl_vec_to_unit_fallback (v : zsl_vec) :
  vec_ok v -> (1 <= sz v)%Z -> euclidean_norm (elems v) = 0%R ->
  zsl_vec_to_unit v
  = Ok (0%Z, Vec (sz v) (1%R :: nseq (Z.to_nat (sz v) - 1) 0%R
                         ++ drop (Z.to_nat (sz v)) (data v))).
Proof.
move=> Hv H1 Hmag.
rewrite /zsl_vec_to_unit zsl_vec_norm_ok //= Hmag eqxx /= zsl_vec_init_ok //=.
move/vec_okP: Hv => [Hv1 Hv2].
have [n En] : exists n, Z.to_nat (sz v) = n.+1 by exists (Z.to_nat (sz v)).-1; lia.
by rewrite En /= subn1.
Qed.

(** Where [zsl_vec_to_unit] does what is expected of it, over the reals:
    for a well-formed vector of length at least 1, with [mag] its
    Euclidean norm as [zsl_vec_norm] returns it, when [mag] is not zero
    the call returns 0 and has divided every element by [mag] in place, so
    that the norm of the result is 1; when [mag] is zero it returns 0 and
    the vector holds 1 in element 0 and 0 in every other element. *)
Theorem zsl_vec_to_unit_spec (v : zsl_vec) :
  vec_ok v -> (1 <= sz v)%Z ->
  let mag := euclidean_norm (elems v) in
  [/\ zsl_vec_norm v = Ok mag,
      mag <> 0%R ->
      exists2 v',
        zsl_vec_to_unit v = Ok (0%Z, v')
        & [/\ sz v' = sz v,
              forall i, (0 <= i < sz v)%Z -> vget v' i = (vget v i / mag)%R
            & zsl_vec_norm v' = Ok 1%R]
    & mag = 0%R ->
      exists2 v',
        zsl_vec_to_unit v = Ok (0%Z, v')
        & [/\ sz v' = sz v,
              elems v' = 1%R :: nseq (Z.to_nat (sz v) - 1) 0%R
            & forall i, (sz v <= i)%Z -> vget v' i = vget v i]].
Proof.
move=> Hv H1 mag; split; first exact: zsl_vec_norm_ok.
- move=> Hmag; have [v' E [Hs Hin _ Hn]] := zsl_vec_to_unit_scaled Hv Hmag.
  by exists v'.
- move=> Hmag; rewrite zsl_vec_to_unit_fallback //.
  eexists; first reflexivity.
  move/vec_okP: Hv => [Hv1 Hv2].
  have [n En] : exists n, Z.to_nat (sz v) = n.+1
    by exists (Z.to_nat (sz v)).-1; lia.
  split=> //.
  + rewrite /elems /= En /= subn1 /= take_size_cat //.
    by rewrite size_nseq.
  + move=> i Hi; rewrite /vget /= En subn1 /=.
    have [k Ek] : exists k, Z.to_nat i = (n.+1 + k)%coq_nat
      by exists (Z.to_nat i - n.+1)%coq_nat; lia.
    rewrite Ek /= nth_cat size_nseq.
    have -> : ((n + k)%coq_nat < n) = false by apply/ltP; lia.
    rewrite nth_drop; congr (nth _ _ _).
    by nat_lia.
Qed.

Lemma euclidean_norm_34 : euclidean_norm (elems vec_34) <> 0%R.
Proof.
rewrite /euclidean_norm /elems /= => H.
have := sqrt_eq_0 _ _ H; lra.
Qed.

Lemma euclidean_norm_00 : euclidean_norm (elems vec_00) = 0%R.
Proof.
rewrite /euclidean_norm /elems /=.
by rewrite (_ : (0 * 0 + (0 * 0 + 0) = 0)%R) ?sqrt_0 //; ring.
Qed.

Lemma zsl_vec_to_unit_spec_witness :
  (exists2 v',
     zsl_vec_to_unit vec_34 = Ok (0%Z, v')
     & [/\ sz v' = sz vec_34,
           forall i, (0 <= i < sz vec_34)%Z ->
                     vget v' i = (vget vec_34 i / euclidean_norm (elems vec_34))%R
         & zsl_vec_norm v' = Ok 1%R]) /\
  (exists2 v',
     zsl_vec_to_unit vec_00 = Ok (0%Z, v')
     & [/\ sz v' = sz vec_00,
           elems v' = 1%R :: nseq (Z.to_nat (sz vec_00) - 1) 0%R
         & forall i, (sz vec_00 <= i)%Z -> vget v' i = vget vec_00 i]).
Proof.
split.
- have [_ H _] := @zsl_vec_to_unit_spec vec_34 erefl ltac:(done).
  exact: (H euclidean_norm_34).
- have [_ _ H] := @zsl_vec_to_unit_spec vec_00 erefl ltac:(done).
  exact: (H euclidean_norm_00).
Defined.

(** C3 fails on the code.  The empty vector has norm exactly zero, so the
    call takes the fallback branch, whose write [v->data[0] = 1.0] has no
    element 0 to land in: it falls outside the buffer.  With a slot to
    spare behind the empty vector the call returns 0, having written 1
    into that slot, beyond the declared length. *)
Theorem zsl_vec_to_unit_empty :
  [/\ vec_ok vec_empty,
      zsl_vec_norm vec_empty = Ok 0%R,
      zsl_vec_to_unit vec_empty = Fault
    & zsl_vec_to_unit (Vec 0 [:: 7%R]) = Ok (0%Z, Vec 0 [:: 1%R])].
Proof.
split=> //; first by rewrite /zsl_vec_norm /= sqrt_0.
- by rewrite /zsl_vec_to_unit /zsl_vec_norm /= sqrt_0 eqxx.
- by rewrite /zsl_vec_to_unit /zsl_vec_norm /= sqrt_0 eqxx.
Qed.

(** ** Reversal *)

(** The loop of [zsl_vec_rev] on indices inside the buffer: it returns,
    within the fuel [end_ - start], having mirrored the slots from [start]
    to [end_] and touched no other. *)
Lemma rev_loop_ok (fuel : nat) :
  forall (s e : Z) (d : seq R),
    (0 <= s)%Z -> (e < Z.of_nat (size d))%Z -> (e < SIZE_MOD)%Z ->
    (e - s <= Z.of_nat fuel)%Z ->
    exists2 d',
      rev_loop fuel s e d = Ok d'
      & size d' = size d /\
        forall k : nat,
          nth 0%R d' k =
          if (s <=? Z.of_nat k)%Z && (Z.of_nat k <=? e)%Z
          then nth 0%R d (Z.to_nat (s + e - Z.of_nat k))
          else nth 0%R d k.
Proof.
elim: fuel => [|f IH] s e d Hs He Hmax Hfuel.
- exists d; first by rewrite /=; case: Z.ltb_spec => //; lia.
  split=> // k; case: Z.leb_spec => //= H1; case: Z.leb_spec => //= H2.
  by congr (nth _ _ _); lia.
- rewrite /=; case: Z.ltb_spec => Hlt; last first.
    exists d => //; split=> // k.
    case: Z.leb_spec => //= H1; case: Z.leb_spec => //= H2.
    by congr (nth _ _ _); lia.
  rewrite load_ok /=; first lia.
  rewrite load_ok /=; first lia.
  rewrite store_ok /=; first lia.
  rewrite store_ok /=; first by rewrite size_set_nth_in; lia.
  rewrite !size_wrap_small; try lia.
  set d2 := set_nth _ _ _ _.
  have Hd2 : size d2 = size d by rewrite /d2 !size_set_nth_in ?size_set_nth_in; lia.
  have [| | | |d' -> [Hsz Hd']] := IH (s + 1)%Z (e - 1)%Z d2; try lia.
  exists d' => //; split; first by rewrite Hsz.
  move=> k; rewrite Hd' /d2 !nth_set_nth_nat.
  case: (Z.leb_spec (s + 1) (Z.of_nat k)) => /= H1;
  case: (Z.leb_spec (Z.of_nat k) (e - 1)) => /= H2;
  case: (Z.leb_spec s (Z.of_nat k)) => /= H3;
  case: (Z.leb_spec (Z.of_nat k) e) => /= H4; try lia;
  repeat (case: Nat.eqb_spec => ?); try lia; try (congr (nth _ _ _); lia).
Qed.

Lemma size_wrap_minus1 : size_wrap (0 - 1) = SIZE_MAX.
Proof. by []. Qed.

(** With [end_] wrapped to [SIZE_MAX], the first iteration reads outside
    every buffer a [size_t] can index. *)
Lemma rev_loop_fault (d : seq R) :
  (Z.of_nat (size d) < SIZE_MOD)%Z ->
  rev_loop (Z.to_nat SIZE_MAX) 0%Z SIZE_MAX d = Fault.
Proof.
move=> Hd.
have [f ->] : exists f, Z.to_nat SIZE_MAX = f.+1
  by exists (Z.to_nat SIZE_MAX).-1; rewrite /SIZE_MAX /SIZE_MOD; lia.
rewrite [rev_loop _ _ _ _]/= /load; case: in_bufP => //= _.
by case: in_bufP => //; rewrite /SIZE_MAX; lia.
Qed.

Lemma rev_loop_erase (fuel : nat) :
  forall (s e : Z) (d : seq R),
    rev_loop fuel s e d = (r <- rev_loop_trace fuel s e d ;; Ok r.1).
Proof.
elim: fuel => [|f IH] s e d /=; first by case: (s <? e)%Z.
case: (s <? e)%Z => //.
case: (load d s) => [t| |] //=; case: (load d e) => [x| |] //=.
case: (store d s x) => [d1| |] //=; case: (store d1 e t) => [d2| |] //=.
by rewrite IH; case: (rev_loop_trace _ _ _ _).
Qed.

(** Every index a returning run touches lies between the bounds it
    started from. *)
Lemma rev_loop_trace_bounds (fuel : nat) :
  forall (s e : Z) (d : seq R) (r : seq R * seq Z),
    (0 <= s)%Z -> (e < SIZE_MOD)%Z ->
    rev_loop_trace fuel s e d = Ok r ->
    all (fun i => (s <=? i)%Z && (i <=? e)%Z) r.2.
Proof.
elim: fuel => [|f IH] s e d r Hs He /=.
- by case: Z.ltb_spec => // _ [<-].
- case: Z.ltb_spec => [Hlt|_]; last by case=> <-.
  case: (load d s) => [t| |] //=; case: (load d e) => [x| |] //=.
  case: (store d s x) => [d1| |] //=; case: (store d1 e t) => [d2| |] //=.
  rewrite !size_wrap_small; try lia.
  case E: (rev_loop_trace _ _ _ _) => [r'| |] //= [<-] /=.
  have -> : (s <=? s)%Z by apply/Z.leb_le; lia.
  have -> : (s <=? e)%Z by apply/Z.leb_le; lia.
  have -> : (e <=? e)%Z by apply/Z.leb_le; lia.
  rewrite /=; apply/(all_nthP 0%Z) => k Hk.
  have /(_ k Hk) /andP [/Z.leb_le H1 /Z.leb_le H2] :=
    all_nthP 0%Z (IH (s + 1)%Z (e - 1)%Z d2 r' ltac:(lia) ltac:(lia) E).
  by apply/andP; split; apply/Z.leb_le; lia.
Qed.

Lemma zsl_vec_rev_ok (v : zsl_vec) :
  vec_ok v -> (1 <= sz v)%Z ->
  exists2 v',
    zsl_vec_rev v = Ok (0%Z, v')
    & [/\ sz v' = sz v,
          forall i, (0 <= i < sz v)%Z -> vget v' i = vget v (sz v - 1 - i)
        & forall i, (sz v <= i)%Z -> vget v' i = vget v i].
Proof.
move=> /vec_okP [Hv1 Hv2] H1; rewrite /zsl_vec_rev.
rewrite size_wrap_small; first lia.
have [| | | |d' -> [Hs Hd]] :=
  @rev_loop_ok (Z.to_nat (sz v - 1)) 0%Z (sz v - 1)%Z (data v); try lia.
exists (Vec (sz v) d') => //; split=> //.
- move=> i Hi; rewrite /vget /= Hd Z2Nat.id; first lia.
  have -> : (0 <=? i)%Z && (i <=? sz v - 1)%Z.
    by apply/andP; split; [apply/Z.leb_le | apply/Z.leb_le]; lia.
  by congr (nth _ _ (Z.to_nat _)); lia.
- move=> i Hi; rewrite /vget /= Hd Z2Nat.id; first lia.
  by have -> : (i <=? sz v - 1)%Z = false; [apply/Z.leb_gt; lia | rewrite andbF].
Qed.

Lemma tight_ok (v : zsl_vec) : vec_ok v -> vec_ok (tight v).
Proof.
move=> Hv; have Hs := size_elems Hv.
move/vec_okP: Hv => [Hv1 Hv2]; apply/vec_okP.
by rewrite /tight /= Hs; lia.
Qed.

Lemma zsl_vec_rev_trace_ok (v : zsl_vec) :
  vec_ok v -> (1 <= sz v)%Z ->
  exists2 tr,
    zsl_vec_rev_trace v = Ok tr
    & all (fun i => (0 <=? i)%Z && (i <? sz v)%Z) tr.
Proof.
move=> Hv H1; have [v' E _] := zsl_vec_rev_ok Hv H1.
move/vec_okP: Hv => [Hv1 Hv2].
move: E; rewrite /zsl_vec_rev /zsl_vec_rev_trace rev_loop_erase.
rewrite size_wrap_small; first lia.
case E: (rev_loop_trace _ _ _ _) => [[d' tr]| |] //= _.
exists tr => //.
have := rev_loop_trace_bounds (Z.le_refl 0) _ E => /(_ ltac:(lia)) /= Hall.
apply/(all_nthP 0%Z) => k Hk.
have /andP [/Z.leb_le Ha /Z.leb_le Hb] := all_nthP 0%Z Hall k Hk.
by apply/andP; split; [apply/Z.leb_le | apply/Z.ltb_lt]; lia.
Qed.

(** C10. [zsl_vec_rev] on a well-formed vector of length at least 1
    returns 0 with element [i] of the result the old element [sz-1-i];
    every index it touches lies in [[0, sz)], and accordingly the call
    also returns on the buffer cut to exactly [sz] slots.  On a vector of
    length 0 the end index [sz - 1] wraps to [SIZE_MAX] and the first
    iteration reads outside the buffer: the call faults. *)
Theorem zsl_vec_rev_spec (v : zsl_vec) :
  (vec_ok v -> (1 <= sz v)%Z ->
     exists2 v',
       zsl_vec_rev v = Ok (0%Z, v')
       & [/\ sz v' = sz v,
             forall i, (0 <= i < sz v)%Z -> vget v' i = vget v (sz v - 1 - i),
             forall i, (sz v <= i)%Z -> vget v' i = vget v i,
             exists2 tr, zsl_vec_rev_trace v = Ok tr
                         & all (fun i => (0 <=? i)%Z && (i <? sz v)%Z) tr
           & exists t, zsl_vec_rev (tight v) = Ok (0%Z, t)]) /\
  (sz v = 0%Z -> (Z.of_nat (size (data v)) < SIZE_MOD)%Z ->
     size_wrap (sz v - 1) = SIZE_MAX /\ zsl_vec_rev v = Fault).
Proof.
split.
- move=> Hv H1; have [v' E [Hs Hin Hout]] := zsl_vec_rev_ok Hv H1.
  exists v' => //; split=> //; first exact: zsl_vec_rev_trace_ok.
  have [t Et _] := zsl_vec_rev_ok (tight_ok Hv) H1.
  by exists t.
- move=> E Hd; rewrite /zsl_vec_rev E size_wrap_minus1; split=> //.
  by rewrite rev_loop_fault.
Qed.

Lemma zsl_vec_rev_spec_witness :
  (exists2 v',
     zsl_vec_rev vec_12345 = Ok (0%Z, v')
     & [/\ sz v' = sz vec_12345,
           forall i, (0 <= i < sz vec_12345)%Z ->
                     vget v' i = vget vec_12345 (sz vec_12345 - 1 - i),
           forall i, (sz vec_12345 <= i)%Z -> vget v' i = vget vec_12345 i,
           exists2 tr, zsl_vec_rev_trace vec_12345 = Ok tr
                       & all (fun i => (0 <=? i)%Z && (i <? sz vec_12345)%Z) tr
         & exists t, zsl_vec_rev (tight vec_12345) = Ok (0%Z, t)]) /\
  (size_wrap (sz vec_empty - 1) = SIZE_MAX /\ zsl_vec_rev vec_empty = Fault).
Proof.
split.
- by apply: (proj1 (zsl_vec_rev_spec vec_12345)).
- by apply: (proj2 (zsl_vec_rev_spec vec_empty)).
Defined.

Example zsl_vec_rev_trace_12345 :
  zsl_vec_rev_trace vec_12345 = Ok [:: 0%Z; 4%Z; 1%Z; 3%Z].
Proof. by []. Qed.

Example zsl_vec_rev_12345 :
  zsl_vec_rev vec_12345 = Ok (0%Z, Vec 5 [:: 5%R; 4%R; 3%R; 2%R; 1%R]).
Proof. by []. Qed.

Example deter_1234 : deter 2 (mtx_data mtx_1234) = (- 2)%R.
Proof. by rewrite /= /entry /=; ring. Qed.

Example zsl_mtx_inv_2002 :
  exists mi, zsl_mtx_inv mtx_2002 mtx_0000 = (Success, mi) /\
             [/\ mtx_get mi 0 0 = (1 / 2)%R, mtx_get mi 0 1 = 0%R,
                 mtx_get mi 1 0 = 0%R & mtx_get mi 1 1 = (1 / 2)%R].
Proof.
rewrite /zsl_mtx_inv /=.
have -> : (entry 2 [:: 2; 0; 0; 2] 0 0 * entry 2 [:: 2; 0; 0; 2] 1 1
           - entry 2 [:: 2; 0; 0; 2] 0 1 * entry 2 [:: 2; 0; 0; 2] 1 0 = 4)%R.
  by rewrite /entry /=; ring.
have -> : (4%R == 0%R) = false by apply/eqP; lra.
eexists; split; first reflexivity.
by cbv -[Rplus Rmult Rminus Ropp Rinv Rdiv IZR]; split; field.
Qed.

(** ** The reals as a commutative ring of MathComp *)

Definition R_find (P : pred R) (n : nat) : option R :=
  match excluded_middle_informative (exists x, P x) with
  | left ex => Some (proj1_sig (constructive_indefinite_description _ ex))
  | right _ => None
  end.

Lemma R_find_correct (P : pred R) (n : nat) (x : R) : R_find P n = Some x -> P x.
Proof.
rewrite /R_find; case: excluded_middle_informative => // ex [<-].
exact: (proj2_sig (constructive_indefinite_description _ ex)).
Qed.

Lemma R_find_complete (P : pred R) : (exists x, P x) -> exists n, R_find P n.
Proof.
by move=> ex; exists 0; rewrite /R_find; case: excluded_middle_informative.
Qed.

Lemma R_find_ext (P Q : pred R) : P =1 Q -> R_find P =1 R_find Q.
Proof.
move=> PQ n; have -> // : P = Q.
exact: functional_extensionality.
Qed.

HB.instance Definition _ :=
  hasChoice.Build R R_find_correct R_find_complete R_find_ext.

Lemma RplusA : associative Rplus.
Proof. by move=> x y z; rewrite Rplus_assoc. Qed.

Lemma RmultA : associative Rmult.
Proof. by move=> x y z; rewrite Rmult_assoc. Qed.

Lemma RmultDl : left_distributive Rmult Rplus.
Proof. by move=> x y z; rewrite Rmult_plus_distr_r. Qed.

Lemma R1_neq_0 : R1 != R0.
Proof. by apply/eqP; exact: R1_neq_R0. Qed.

HB.instance Definition _ :=
  GRing.isZmodule.Build R RplusA Rplus_comm Rplus_0_l Rplus_opp_l.

HB.instance Definition _ :=
  GRing.Zmodule_isComNzRing.Build R RmultA Rmult_comm Rmult_1_l RmultDl R1_neq_0.

(** ** From row-major buffers to MathComp matrices *)

Section Bridge.

Import GRing.Theory.
Local Open Scope ring_scope.

Lemma sum_uptoE (n : nat) (f : nat -> R) : sum_upto n f = \sum_(k < n) f k.
Proof. by rewrite /sum_upto big_mkord. Qed.

Lemma powN1E (k : nat) : pow (- 1)%R k = (- 1) ^+ k.
Proof. by elim: k => [|k IH] //=; rewrite exprS -IH. Qed.

Lemma entry_mkseq (n : nat) (f : nat -> R) (r c : nat) :
  r < n -> c < n ->
  entry n (mkseq f (n * n)) r c = f (r * n + c)%nat.
Proof.
move=> /ltP Hr /ltP Hc; rewrite /entry nth_mkseq //.
by apply/ltP; rewrite -plusE -!multE; nia.
Qed.

Lemma entry_delete (n : nat) (d : seq R) (i j r c : nat) :
  r < n -> c < n ->
  entry n (delete_row_col n.+1 d i j) r c = entry n.+1 d (bump i r) (bump j c).
Proof.
move=> Hr Hc; rewrite /delete_row_col /= entry_mkseq //.
have Hn : 0 < n by exact: leq_ltn_trans Hr.
by rewrite divnMDl // modnMDl divn_small // modn_small // addn0.
Qed.

Lemma to_mx_delete (n : nat) (d : seq R) (i j : 'I_n.+1) :
  to_mx n (delete_row_col n.+1 d i j) = row' i (col' j (to_mx n.+1 d)).
Proof. by apply/matrixP => r c; rewrite !mxE entry_delete. Qed.

(** The determinant of every positive order is the expansion along the
    first row; the closed forms of orders 1 and 2 are instances. *)
Lemma deter_expand (n : nat) (d : seq R) :
  deter n.+1 d =
  sum_upto n.+1 (fun j =>
    entry n.+1 d 0 j
    * (pow (- 1) (0 + j) * deter n (delete_row_col n.+1 d 0 j)))%R.
Proof.
case: n => [|[|n]] //.
- rewrite /sum_upto /index_iota subn0 /= big_cons big_nil /=.
  lra.
- rewrite /sum_upto /index_iota subn0 /= !big_cons big_nil /=.
  rewrite !(entry_delete (n := 1)) //= /bump /= !addn0.
  lra.
Qed.

Lemma deter_det (n : nat) : forall d : seq R, deter n d = \det (to_mx n d).
Proof.
elim: n => [|n IH] d; first by rewrite det_mx00.
rewrite deter_expand sum_uptoE (expand_det_row _ ord0).
apply: eq_bigr => j _.
by rewrite /matrix.cofactor mxE IH (to_mx_delete d ord0 j) powN1E.
Qed.

Lemma cofactorE (n : nat) (d : seq R) (i j : 'I_n) :
  cofactor n d i j = matrix.cofactor (to_mx n d) i j.
Proof.
case: n i j d => [[]|n] // i j d.
by rewrite /cofactor /minor /matrix.cofactor /= deter_det to_mx_delete powN1E.
Qed.

Lemma to_mx_adjoint (n : nat) (d : seq R) :
  to_mx n (adjoint n d) = \adj (to_mx n d).
Proof.
apply/matrixP => i j; rewrite !mxE /adjoint entry_mkseq //.
have Hn : 0 < n by exact: leq_ltn_trans (ltn_ord i).
rewrite divnMDl // modnMDl divn_small // modn_small // addn0.
exact: cofactorE.
Qed.

(** Row [i] of a matrix against column [k] of its adjugate: the
    determinant on the diagonal, zero elsewhere. *)
Lemma row_adjoint_col (n : nat) (d : seq R) (i k : nat) :
  i < n -> k < n ->
  sum_upto n (fun l => entry n d i l * entry n (adjoint n d) l k)%R
  = if i == k then deter n d else 0%R.
Proof.
move=> Hi Hk; rewrite sum_uptoE deter_det.
have := mul_mx_adj (to_mx n d) => /matrixP /(_ (Ordinal Hi) (Ordinal Hk)).
rewrite -to_mx_adjoint !mxE /= mulrb => <-.
by apply: eq_bigr => l _; rewrite !mxE.
Qed.

Lemma sum_upto_scale (n : nat) (f : nat -> R) (c : R) :
  sum_upto n (fun l => f l * c)%R = (sum_upto n f * c)%R.
Proof.
rewrite !sum_uptoE.
change (\sum_(l < n) f l * c = (\sum_(l < n) f l) * c).
by rewrite big_distrl.
Qed.

Lemma sum_upto_ext (n : nat) (f g : nat -> R) :
  (forall l, l < n -> f l = g l) -> sum_upto n f = sum_upto n g.
Proof.
by move=> H; rewrite !sum_uptoE; apply: eq_bigr => l _; apply: H.
Qed.

Lemma size_adjoint (n : nat) (d : seq R) : size (adjoint n d) = (n * n)%nat.
Proof. by rewrite /adjoint size_mkseq. Qed.

Lemma index_lt (n i j : nat) : i < n -> j < n -> (i * n + j < n * n)%nat.
Proof.
by move=> /ltP Hi /ltP Hj; apply/ltP; rewrite -plusE -!multE; nia.
Qed.

Lemma index_divmod (n i j : nat) :
  j < n -> ((i * n + j) %/ n = i)%nat /\ ((i * n + j) %% n = j)%nat.
Proof.
move=> Hj; have Hn : 0 < n by exact: leq_ltn_trans Hj.
by rewrite divnMDl // modnMDl divn_small // modn_small // addn0.
Qed.

End Bridge.

(** ** The inverse *)

Lemma entry_inverse (n : nat) (d : seq R) (det : R) (i j : nat) :
  i < n -> j < n ->
  entry n [seq (a / det)%R | a <- adjoint n d] i j
  = (entry n (adjoint n d) i j / det)%R.
Proof.
move=> Hi Hj; rewrite /entry (nth_map 0%R) // size_adjoint.
exact: index_lt.
Qed.

(** The row-by-column product of a matrix with its adjugate over its
    determinant is the identity. *)
Lemma mult_inverse_entry (n : nat) (d : seq R) (i k : nat) :
  deter n d <> 0%R -> i < n -> k < n ->
  sum_upto n (fun l =>
    entry n d i l
    * entry n [seq (a / deter n d)%R | a <- adjoint n d] l k)%R
  = if i == k then 1%R else 0%R.
Proof.
move=> Hdet Hi Hk.
rewrite (@sum_upto_ext n _
  (fun l => entry n d i l * entry n (adjoint n d) l k * / deter n d)%R).
  by move=> l Hl; rewrite entry_inverse // /Rdiv Rmult_assoc.
rewrite sum_upto_scale row_adjoint_col //.
by case: (i == k); field.
Qed.

(** C4.  For a square matrix [m] and an output [mi] of its shape,
    [zsl_mtx_inv] reports the singular-matrix error exactly when the
    determinant of [m] is zero, and then leaves [mi] as it was; when the
    determinant is not zero it succeeds, the matrix written is the
    adjugate of [m] divided by the determinant, and [zsl_mtx_mult] of [m]
    and that matrix succeeds and yields the identity. *)
Theorem zsl_mtx_inv_spec (m mi : zsl_mtx) :
  is_square m -> same_shape m mi ->
  let n := order m in
  let det := deter n (mtx_data m) in
  [/\ (zsl_mtx_inv m mi).1 = Singular <-> det = 0%R,
      det = 0%R -> zsl_mtx_inv m mi = (Singular, mi)
    & det <> 0%R ->
      exists2 mi',
        zsl_mtx_inv m mi = (Success, mi')
        & [/\ same_shape m mi',
              forall i j, i < n -> j < n ->
                mtx_get mi' i j = (entry n (adjoint n (mtx_data m)) i j / det)%R
            & forall mc, same_shape m mc ->
                exists2 mc',
                  zsl_mtx_mult m mi' mc = (Success, mc')
                  & same_shape m mc' /\
                    forall i j, i < n -> j < n ->
                      mtx_get mc' i j = if i == j then 1%R else 0%R]].
Proof.
case: m mi => [r c d] [r' c' d'].
rewrite /is_square /same_shape /order /=.
move=> /Z.eqb_eq Hrc /andP [/Z.eqb_eq Hr /Z.eqb_eq Hc].
move: Hrc Hr Hc => <- <- <-.
set m := Mtx r r d; set mi := Mtx r r d'.
set n := Z.to_nat r; set det := deter n d.
have Hinv : zsl_mtx_inv m mi =
    if det == 0%R then (Singular, mi)
    else (Success, Mtx r r [seq (a / det)%R | a <- adjoint n d]).
  by rewrite /zsl_mtx_inv /is_square /same_shape /= !Z.eqb_refl.
split.
- by rewrite Hinv; case: eqP.
- by move=> H0; rewrite Hinv H0 eqxx.
- move=> /eqP /negbTE Hdet; rewrite Hinv Hdet.
  eexists; first reflexivity.
  split; first by rewrite /= !Z.eqb_refl.
  + by move=> i j Hi Hj; rewrite /mtx_get /= entry_inverse.
  + case=> [rc cc dc] /= /andP [/Z.eqb_eq <- /Z.eqb_eq <-].
    rewrite /zsl_mtx_mult /= !Z.eqb_refl /=.
    eexists; first reflexivity.
    split; first by rewrite /= !Z.eqb_refl.
    move=> i j Hi Hj; rewrite /mtx_get /= -/n entry_mkseq //.
    have [-> ->] := index_divmod i Hj.
    apply: mult_inverse_entry => //.
    by move/eqP: Hdet.
Qed.

Lemma deter_2002 : deter (order mtx_2002) (mtx_data mtx_2002) <> 0%R.
Proof. by rewrite /= /entry /=; lra. Qed.

Lemma deter_0000 : deter (order mtx_0000) (mtx_data mtx_0000) = 0%R.
Proof. by rewrite /= /entry /=; lra. Qed.

Lemma zsl_mtx_inv_spec_witness :
  (exists2 mi',
     zsl_mtx_inv mtx_2002 mtx_0000 = (Success, mi')
     & [/\ same_shape mtx_2002 mi',
           forall i j, i < order mtx_2002 -> j < order mtx_2002 ->
             mtx_get mi' i j =
             (entry (order mtx_2002)
                    (adjoint (order mtx_2002) (mtx_data mtx_2002)) i j
              / deter (order mtx_2002) (mtx_data mtx_2002))%R
         & forall mc, same_shape mtx_2002 mc ->
             exists2 mc',
               zsl_mtx_mult mtx_2002 mi' mc = (Success, mc')
               & same_shape mtx_2002 mc' /\
                 forall i j, i < order mtx_2002 -> j < order mtx_2002 ->
                   mtx_get mc' i j = if i == j then 1%R else 0%R]) /\
  zsl_mtx_inv mtx_0000 mtx_2002 = (Singular, mtx_2002).
Proof.
split.
- have [_ _ H] := @zsl_mtx_inv_spec mtx_2002 mtx_0000 erefl erefl.
  exact: (H deter_2002).
- have [_ H _] := @zsl_mtx_inv_spec mtx_0000 mtx_2002 erefl erefl.
  exact: (H deter_0000).
Defined.

(** * Further properties of the vector layer *)

(** ** Vectors as a content and a rest *)

Lemma with_elems_ok (v : zsl_vec) (l : seq R) :
  vec_ok v -> size l = Z.to_nat (sz v) -> vec_ok (with_elems v l).
Proof.
move=> /vec_okP [H1 H2] Hl; apply/vec_okP; split=> //=.
rewrite size_cat size_drop Hl -plusE -minusE.
lia.
Qed.

Lemma elems_with_elems (v : zsl_vec) (l : seq R) :
  size l = Z.to_nat (sz v) -> elems (with_elems v l) = l.
Proof. by move=> Hl; rewrite /elems /= -Hl take_size_cat. Qed.

Lemma with_elems_twice (v : zsl_vec) (l l' : seq R) :
  size l = Z.to_nat (sz v) ->
  with_elems (with_elems v l) l' = with_elems v l'.
Proof. by move=> Hl; rewrite /with_elems /= -Hl drop_size_cat. Qed.

Lemma with_elems_id (v : zsl_vec) : with_elems v (elems v) = v.
Proof. by case: v => n d; rewrite /with_elems /elems /= cat_take_drop. Qed.

Lemma sz_with_elems (v : zsl_vec) (l : seq R) : sz (with_elems v l) = sz v.
Proof. by []. Qed.

(** The in-place loops in closed form. *)
Lemma inplace_loop (g : R -> R) (d : seq R) (n : nat) :
  (n <= size d)%coq_nat ->
  for_loop n 0%Z (fun i d => a <- load d i ;; store d i (g a)) d
  = Ok ([seq g a | a <- take n d] ++ drop n d).
Proof.
move=> Hn.
have [|d' E [Hs Hd]] :=
  @map_loop (fun _ a => Ok (g a)) (fun _ a => g a) d n Hn; first by [].
rewrite /= in E; rewrite E; congr Ok.
have Hst : size (take n d) = n.
  by rewrite size_take; case: ltP => // H; lia.
apply: (@eq_from_nth _ 0%R).
- by rewrite Hs size_cat size_map Hst size_drop; nat_lia.
- move=> k _; rewrite nth_cat size_map Hst.
  case: (ltnP k n) => [/ltP Hk | /leP Hk].
  + rewrite (Hd k).1 // (nth_map 0%R); first by rewrite Hst; apply/ltP.
    by rewrite nth_take //; apply/ltP.
  + rewrite (Hd k).2 // nth_drop; congr (nth _ _ _); nat_lia.
Qed.

Lemma inplace_call (g : R -> R) (v : zsl_vec) :
  vec_ok v ->
  (d <- for_loop (Z.to_nat (sz v)) 0%Z
          (fun i d => a <- load d i ;; store d i (g a)) (data v) ;;
   Ok (0%Z, Vec (sz v) d))
  = Ok (0%Z, with_elems v [seq g a | a <- elems v]).
Proof.
by move=> /vec_okP [H1 H2]; rewrite inplace_loop //; lia.
Qed.

Lemma zsl_vec_neg_eq (v : zsl_vec) :
  vec_ok v ->
  zsl_vec_neg v = Ok (0%Z, with_elems v [seq (- a)%R | a <- elems v]).
Proof. exact: (@inplace_call Ropp). Qed.

Lemma zsl_vec_scalar_add_eq (v : zsl_vec) (s : R) :
  vec_ok v ->
  zsl_vec_scalar_add v s = Ok (0%Z, with_elems v [seq (a + s)%R | a <- elems v]).
Proof. exact: (@inplace_call (fun a => a + s)%R). Qed.

Lemma zsl_vec_scalar_mult_eq (v : zsl_vec) (s : R) :
  vec_ok v ->
  zsl_vec_scalar_mult v s = Ok (0%Z, with_elems v [seq (a * s)%R | a <- elems v]).
Proof. exact: (@inplace_call (fun a => a * s)%R). Qed.

Lemma zsl_vec_scalar_div_eq (v : zsl_vec) (s : R) :
  vec_ok v -> s <> 0%R ->
  zsl_vec_scalar_div v s = Ok (0%Z, with_elems v [seq (a / s)%R | a <- elems v]).
Proof.
move=> Hv /eqP /negbTE Hs; rewrite /zsl_vec_scalar_div Hs.
exact: (@inplace_call (fun a => a / s)%R).
Qed.

(** Two in-place passes whose element maps cancel give the vector back. *)
Lemma inplace_cancel (g h : R -> R) (v : zsl_vec) :
  vec_ok v -> (forall a, h (g a) = a) ->
  with_elems (with_elems v [seq g a | a <- elems v])
             [seq h a | a <- elems (with_elems v [seq g a | a <- elems v])]
  = v.
Proof.
move=> Hv Hgh.
have Hs : size [seq g a | a <- elems v] = Z.to_nat (sz v).
  by rewrite size_map size_elems.
rewrite with_elems_twice // elems_with_elems // -map_comp.
by rewrite (@eq_map _ _ _ id) ?map_id ?with_elems_id.
Qed.

(** ** Negation and the scalar operations *)

(** X1. [zsl_vec_neg] is an involution on well-formed vectors: both calls
    return 0 and the second gives back the vector, buffer included; and
    it writes what [zsl_vec_scalar_mult] by [-1] writes. *)
Theorem zsl_vec_neg_involutive (v : zsl_vec) :
  vec_ok v ->
  (exists2 v1, zsl_vec_neg v = Ok (0%Z, v1) & zsl_vec_neg v1 = Ok (0%Z, v)) /\
  zsl_vec_neg v = zsl_vec_scalar_mult v (- 1)%R.
Proof.
move=> Hv.
have Hs : size [seq (- a)%R | a <- elems v] = Z.to_nat (sz v).
  by rewrite size_map size_elems.
split.
- exists (with_elems v [seq (- a)%R | a <- elems v]); first exact: zsl_vec_neg_eq.
  rewrite zsl_vec_neg_eq; first exact: with_elems_ok.
  by rewrite inplace_cancel // => a; ring.
- rewrite zsl_vec_neg_eq // zsl_vec_scalar_mult_eq //.
  by congr (Ok (_, with_elems _ _)); apply: eq_map => a; ring.
Qed.

Lemma zsl_vec_neg_involutive_witness :
  (exists2 v1, zsl_vec_neg vec_12345 = Ok (0%Z, v1)
             & zsl_vec_neg v1 = Ok (0%Z, vec_12345)) /\
  zsl_vec_neg vec_12345 = zsl_vec_scalar_mult vec_12345 (- 1)%R.
Proof. by apply: (@zsl_vec_neg_involutive vec_12345). Defined.

(** X2. Scaling a well-formed vector by a nonzero [s] and dividing the
    result by [s] gives back the vector exactly, in either order; both
    calls return 0. *)
Theorem zsl_vec_scalar_mult_div_roundtrip (v : zsl_vec) (s : R) :
  vec_ok v -> s <> 0%R ->
  (exists2 v1, zsl_vec_scalar_mult v s = Ok (0%Z, v1)
             & zsl_vec_scalar_div v1 s = Ok (0%Z, v)) /\
  (exists2 v1, zsl_vec_scalar_div v s = Ok (0%Z, v1)
             & zsl_vec_scalar_mult v1 s = Ok (0%Z, v)).
Proof.
move=> Hv Hs.
have Hm : size [seq (a * s)%R | a <- elems v] = Z.to_nat (sz v).
  by rewrite size_map size_elems.
have Hd : size [seq (a / s)%R | a <- elems v] = Z.to_nat (sz v).
  by rewrite size_map size_elems.
split.
- eexists; first exact: zsl_vec_scalar_mult_eq.
  rewrite zsl_vec_scalar_div_eq //; first exact: with_elems_ok.
  by rewrite inplace_cancel // => a; field.
- eexists; first exact: zsl_vec_scalar_div_eq.
  rewrite zsl_vec_scalar_mult_eq; first exact: with_elems_ok.
  by rewrite inplace_cancel // => a; field.
Qed.

Lemma zsl_vec_scalar_mult_div_roundtrip_witness :
  (exists2 v1, zsl_vec_scalar_mult vec_34 2%R = Ok (0%Z, v1)
             & zsl_vec_scalar_div v1 2%R = Ok (0%Z, vec_34)) /\
  (exists2 v1, zsl_vec_scalar_div vec_34 2%R = Ok (0%Z, v1)
             & zsl_vec_scalar_mult v1 2%R = Ok (0%Z, vec_34)).
Proof.
apply: (@zsl_vec_scalar_mult_div_roundtrip vec_34 2%R); first reflexivity.
lra.
Defined.

(** X3. Over the reals: [zsl_vec_scalar_add] never fails on a well-formed
    vector, adds [s] to each of the first [sz] elements and leaves the
    rest of the buffer alone; adding [s] and then [-s] gives back the
    vector. *)
Theorem zsl_vec_scalar_add_roundtrip (v : zsl_vec) (s : R) :
  vec_ok v ->
  exists2 v1,
    zsl_vec_scalar_add v s = Ok (0%Z, v1)
    & [/\ sz v1 = sz v,
          elems v1 = [seq (a + s)%R | a <- elems v],
          forall i, (sz v <= i)%Z -> vget v1 i = vget v i
        & zsl_vec_scalar_add v1 (- s)%R = Ok (0%Z, v)].
Proof.
move=> Hv.
have Hm : size [seq (a + s)%R | a <- elems v] = Z.to_nat (sz v).
  by rewrite size_map size_elems.
eexists; first exact: zsl_vec_scalar_add_eq.
split=> //; first exact: elems_with_elems.
- move=> i Hi; rewrite /vget /= nth_cat Hm.
  move/vec_okP: Hv => [Hv1 Hv2].
  have -> : (Z.to_nat i < Z.to_nat (sz v)) = false by apply/ltP; lia.
  by rewrite nth_drop; congr (nth _ _ _); rewrite -plusE -minusE; lia.
- rewrite zsl_vec_scalar_add_eq; first exact: with_elems_ok.
  by rewrite inplace_cancel // => a; ring.
Qed.

Lemma zsl_vec_scalar_add_roundtrip_witness :
  exists2 v1,
    zsl_vec_scalar_add vec_34 2%R = Ok (0%Z, v1)
    & [/\ sz v1 = sz vec_34,
          elems v1 = [seq (a + 2)%R | a <- elems vec_34],
          forall i, (sz vec_34 <= i)%Z -> vget v1 i = vget vec_34 i
        & zsl_vec_scalar_add v1 (- 2)%R = Ok (0%Z, vec_34)].
Proof. by apply: (@zsl_vec_scalar_add_roundtrip vec_34 2%R). Defined.

(** ** Comparison, sign test and bulk copy *)

Lemma is_equal_loop_eq (dv dw : seq R) (n : nat) :
  forall i : nat,
    (Z.of_nat i + Z.of_nat n <= Z.of_nat (size dv))%Z ->
    (Z.of_nat i + Z.of_nat n <= Z.of_nat (size dw))%Z ->
    is_equal_loop dv dw n (Z.of_nat i)
    = Ok (take n (drop i dv) == take n (drop i dw)).
Proof.
elim: n => [|n IH] i Hv Hw /=; first by rewrite !take0.
rewrite load_ok /=; first lia.
rewrite load_ok /=; first lia.
rewrite Nat2Z.id (drop_nth 0%R); first by apply/ltP; lia.
rewrite (drop_nth 0%R (s := dw)); first by apply/ltP; lia.
rewrite /= eqseq_cons.
case: eqP => //= _.
have -> : (Z.of_nat i + 1 = Z.of_nat i.+1)%Z by lia.
by apply: IH; lia.
Qed.

Lemma zsl_vec_is_equal_eq (v w : zsl_vec) :
  vec_ok v -> vec_ok w ->
  zsl_vec_is_equal v w = Ok ((sz v =? sz w)%Z && (elems v == elems w)).
Proof.
move=> /vec_okP [Hv1 Hv2] /vec_okP [Hw1 Hw2]; rewrite /zsl_vec_is_equal.
case: Z.eqb_spec => //= E.
rewrite (is_equal_loop_eq (i := 0)); try lia.
by rewrite !drop0 /elems E.
Qed.

(** X4. [zsl_vec_is_equal] decides equality of well-formed vectors: it
    returns true exactly when the declared lengths agree and the first
    [sz] elements are equal, whatever lies beyond in the buffers; on
    differing lengths it returns false without reading any element. *)
Theorem zsl_vec_is_equal_spec (v w : zsl_vec) :
  (vec_ok v -> vec_ok w ->
     exists2 b, zsl_vec_is_equal v w = Ok b
              & b <-> (sz v = sz w /\ elems v = elems w)) /\
  (sz v <> sz w -> zsl_vec_is_equal v w = Ok false).
Proof.
split.
- move=> Hv Hw; rewrite zsl_vec_is_equal_eq //.
  eexists; first reflexivity.
  split; first by case/andP => /Z.eqb_eq ? /eqP ?.
  by case=> -> ->; rewrite Z.eqb_refl eqxx.
- by move=> /Z.eqb_neq H; rewrite /zsl_vec_is_equal H.
Qed.

Lemma zsl_vec_is_equal_spec_witness :
  (exists2 b, zsl_vec_is_equal vec_12 vec_12 = Ok b
            & b <-> (sz vec_12 = sz vec_12 /\ elems vec_12 = elems vec_12)) /\
  zsl_vec_is_equal vec_12 vec_000 = Ok false.
Proof.
split.
- by apply: (proj1 (zsl_vec_is_equal_spec vec_12 vec_12)).
- by apply: (proj2 (zsl_vec_is_equal_spec vec_12 vec_000)).
Defined.

Lemma is_nonneg_loop_eq (d : seq R) (n : nat) :
  forall i : nat,
    (Z.of_nat i + Z.of_nat n <= Z.of_nat (size d))%Z ->
    is_nonneg_loop d n (Z.of_nat i)
    = Ok (all (fun a => ~~ Rlt_bool a 0%R) (take n (drop i d))).
Proof.
elim: n => [|n IH] i Hd /=; first by rewrite take0.
rewrite load_ok /=; first lia.
rewrite Nat2Z.id (drop_nth 0%R) /=; first by apply/ltP; lia.
case: (Rlt_bool _ _) => //=.
have -> : (Z.of_nat i + 1 = Z.of_nat i.+1)%Z by lia.
by apply: IH; lia.
Qed.

(** X5. [zsl_vec_is_nonneg] on a well-formed vector returns true exactly
    when the test [v->data[i] < 0.0] fails for each of the first [sz]
    elements, that is when none of them is below zero; in particular it
    returns true on the empty vector. *)
Theorem zsl_vec_is_nonneg_spec (v : zsl_vec) :
  vec_ok v ->
  exists2 b, zsl_vec_is_nonneg v = Ok b
           & b <-> forall i, (0 <= i < sz v)%Z -> ~ (vget v i < 0)%R.
Proof.
move=> Hv; have Hs := size_elems Hv.
move/vec_okP: (Hv) => [Hv1 Hv2]; rewrite /zsl_vec_is_nonneg.
rewrite (is_nonneg_loop_eq (i := 0)); first lia.
rewrite drop0 -/(elems v); eexists; first reflexivity.
split.
- move=> /(all_nthP 0%R) H i Hi.
  have := H (Z.to_nat i); rewrite Hs nth_elems ?Z2Nat.id; try lia.
  move=> /(_ ltac:(apply/ltP; lia)); rewrite /Rlt_bool.
  by case: Rlt_dec.
- move=> H; apply/(all_nthP 0%R) => k; rewrite Hs => /ltP Hk.
  rewrite nth_elems; first lia.
  rewrite /Rlt_bool; case: Rlt_dec => // Hlt.
  by have := H (Z.of_nat k); move=> /(_ ltac:(lia)).
Qed.

Lemma zsl_vec_is_nonneg_spec_witness :
  exists2 b, zsl_vec_is_nonneg vec_neg12 = Ok b
           & b <-> forall i, (0 <= i < sz vec_neg12)%Z -> ~ (vget vec_neg12 i < 0)%R.
Proof. by apply: (@zsl_vec_is_nonneg_spec vec_neg12). Defined.

Lemma zsl_vec_from_arr_eq (v : zsl_vec) (a : seq R) :
  vec_ok v -> (sz v <= Z.of_nat (size a))%Z ->
  zsl_vec_from_arr v a = Ok (0%Z, with_elems v (take (Z.to_nat (sz v)) a)).
Proof.
move=> /vec_okP [Hv1 Hv2] Ha; rewrite /zsl_vec_from_arr mem_copy_ok; try lia.
by rewrite /= drop0.
Qed.

(** X6. [zsl_vec_from_arr] copies as many elements as the vector declares,
    not as many as the array holds: with an array of at least [sz] slots it
    returns 0, the vector's content is the array's first [sz] elements and
    the slots beyond [sz] are untouched; with a shorter array it reads
    outside the array. *)
Theorem zsl_vec_from_arr_spec (v : zsl_vec) (a : seq R) :
  vec_ok v ->
  ((sz v <= Z.of_nat (size a))%Z ->
     exists2 v',
       zsl_vec_from_arr v a = Ok (0%Z, v')
       & [/\ sz v' = sz v,
             elems v' = take (Z.to_nat (sz v)) a
           & drop (Z.to_nat (sz v)) (data v')
             = drop (Z.to_nat (sz v)) (data v)]) /\
  ((Z.of_nat (size a) < sz v)%Z -> zsl_vec_from_arr v a = Fault).
Proof.
move=> Hv; move/vec_okP: (Hv) => [Hv1 Hv2]; split=> Ha.
- have Hs : size (take (Z.to_nat (sz v)) a) = Z.to_nat (sz v).
    by rewrite size_take; case: ltP => // H; lia.
  rewrite zsl_vec_from_arr_eq //; eexists; first reflexivity.
  split=> //; first exact: elems_with_elems.
  by rewrite /= -{1}Hs drop_size_cat.
- rewrite /zsl_vec_from_arr /mem_copy.
  by have -> : (0 + sz v <=? Z.of_nat (size a))%Z = false; [apply/Z.leb_gt; lia | rewrite !andbF].
Qed.

Lemma zsl_vec_from_arr_spec_witness :
  (exists2 v',
     zsl_vec_from_arr vec_00 [:: 7%R; 8%R; 9%R] = Ok (0%Z, v')
     & [/\ sz v' = sz vec_00,
           elems v' = take (Z.to_nat (sz vec_00)) [:: 7%R; 8%R; 9%R]
         & drop (Z.to_nat (sz vec_00)) (data v')
           = drop (Z.to_nat (sz vec_00)) (data vec_00)]) /\
  zsl_vec_from_arr vec_000 [:: 7%R] = Fault.
Proof.
split.
- by apply: (proj1 (@zsl_vec_from_arr_spec vec_00 [:: 7%R; 8%R; 9%R] erefl)).
- by apply: (proj2 (@zsl_vec_from_arr_spec vec_000 [:: 7%R] erefl)).
Defined.

(** ** Dot product and norms *)

Lemma dot_product_rcons (l l' : seq R) (a b : R) :
  size l = size l' ->
  dot_product (rcons l a) (rcons l' b) = (dot_product l l' + a * b)%R.
Proof.
move=> Hs; rewrite /dot_product zip_rcons //.
by elim: (zip l l') => [|p z IH] /=; [ring | rewrite IH; ring].
Qed.

Lemma dot_product_comm (l l' : seq R) : dot_product l l' = dot_product l' l.
Proof.
rewrite /dot_product; elim: l l' => [|a l IH] [|b l'] //=.
by rewrite IH; ring.
Qed.

Lemma dot_product_self (l : seq R) : dot_product l l = sum_of_squares l.
Proof. by rewrite /dot_product; elim: l => [|a l IH] //=; rewrite IH. Qed.

Lemma dot_loop (dv dw : seq R) (n : nat) :
  (n <= size dv)%coq_nat -> (n <= size dw)%coq_nat ->
  for_loop n 0%Z
    (fun i res => a <- load dv i ;; b <- load dw i ;; Ok (res + a * b)%R) 0%R
  = Ok (dot_product (take n dv) (take n dw)).
Proof.
move=> Hv Hw.
pose P (i : Z) (s : R) :=
  s = dot_product (take (Z.to_nat i) dv) (take (Z.to_nat i) dw).
have [| |s -> ->] := @for_loop_inv _ P
  (fun i res => a <- load dv i ;; b <- load dw i ;; Ok (res + a * b)%R)
  n 0%Z 0%R.
- by rewrite /P !take0.
- move=> i s0 Hi ->; rewrite load_ok /=; first lia.
  rewrite load_ok /=; first lia.
  eexists; first reflexivity.
  rewrite /P; have -> : Z.to_nat (i + 1) = (Z.to_nat i).+1 by lia.
  rewrite (take_nth 0%R); first by apply/ltP; lia.
  rewrite (take_nth 0%R (s := dw)); first by apply/ltP; lia.
  rewrite dot_product_rcons // !size_take.
  by do 2 (case: ltP => ?; try lia).
- by rewrite Z.add_0_l Nat2Z.id.
Qed.

Lemma zsl_vec_dot_ok (chk : bool) (v w : zsl_vec) (d : R) :
  vec_ok v -> vec_ok w -> sz v = sz w ->
  zsl_vec_dot chk v w d = Ok (0%Z, dot_product (elems v) (elems w)).
Proof.
move=> /vec_okP [Hv1 Hv2] /vec_okP [Hw1 Hw2] E.
rewrite /zsl_vec_dot E Z.eqb_refl andbF dot_loop; try lia.
by rewrite /elems E.
Qed.

(** X7. [zsl_vec_dot] on well-formed vectors of one length returns 0 and
    writes the sum of the products of corresponding elements, whatever the
    result cell held, and is symmetric in its two vectors; with the bounds
    checks compiled in, vectors of differing lengths are refused with
    [-EINVAL] and the result cell is left as it was. *)
Theorem zsl_vec_dot_spec (v w : zsl_vec) (d : R) :
  (forall chk : bool,
     vec_ok v -> vec_ok w -> sz v = sz w ->
     zsl_vec_dot chk v w d = Ok (0%Z, dot_product (elems v) (elems w)) /\
     zsl_vec_dot chk w v d = zsl_vec_dot chk v w d) /\
  (sz v <> sz w -> zsl_vec_dot true v w d = Ok ((- EINVAL)%Z, d)).
Proof.
split.
- move=> chk Hv Hw E; rewrite !zsl_vec_dot_ok //.
  by rewrite dot_product_comm.
- by move=> /Z.eqb_neq H; rewrite /zsl_vec_dot /= H.
Qed.

Lemma zsl_vec_dot_spec_witness :
  (zsl_vec_dot true vec_12 vec_34 0%R
   = Ok (0%Z, dot_product (elems vec_12) (elems vec_34)) /\
   zsl_vec_dot true vec_34 vec_12 0%R = zsl_vec_dot true vec_12 vec_34 0%R) /\
  zsl_vec_dot true vec_12 vec_000 5%R = Ok ((- EINVAL)%Z, 5%R).
Proof.
split.
- by apply: (proj1 (zsl_vec_dot_spec vec_12 vec_34 0%R) true).
- by apply: (proj2 (zsl_vec_dot_spec vec_12 vec_000 5%R)).
Defined.

Lemma magn_norm_loops (d : seq R) (n : nat) (i : Z) (s : R) :
  for_loop n i
    (fun i res => a <- load d i ;; b <- load d i ;; Ok (res + a * b)%R) s
  = for_loop n i (fun i sum => a <- load d i ;; Ok (sum + a * a)%R) s.
Proof.
by apply: for_loop_ext => j r; rewrite /load; case: (in_buf d j).
Qed.

(** X8. [zsl_vec_magn] is [zsl_vec_norm]: on every vector, well formed or
    not, and in either build, the two return the same outcome.  On a
    well-formed vector that outcome is a number that is not negative and
    whose square is what [zsl_vec_sum_of_sqrs] returns, which is what
    [zsl_vec_dot] of the vector with itself writes. *)
Theorem zsl_vec_magn_norm (chk : bool) (v : zsl_vec) :
  zsl_vec_magn chk v = zsl_vec_norm v /\
  (vec_ok v ->
   exists n s : R,
     [/\ zsl_vec_norm v = Ok n,
         zsl_vec_sum_of_sqrs chk v = Ok s,
         zsl_vec_dot chk v v 0%R = Ok (0%Z, s),
         (n * n)%R = s
       & (0 <= n)%R]).
Proof.
split.
- rewrite /zsl_vec_magn /zsl_vec_sum_of_sqrs /zsl_vec_dot /zsl_vec_norm.
  rewrite Z.eqb_refl andbF magn_norm_loops.
  by case: (for_loop _ _ _ _).
- move=> Hv; exists (euclidean_norm (elems v)), (sum_of_squares (elems v)).
  split.
  + exact: zsl_vec_norm_ok.
  + by rewrite /zsl_vec_sum_of_sqrs zsl_vec_dot_ok //= dot_product_self.
  + by rewrite zsl_vec_dot_ok // dot_product_self.
  + exact/sqrt_sqrt/sum_of_squares_ge0.
  + exact: sqrt_pos.
Qed.

Lemma zsl_vec_magn_norm_witness :
  zsl_vec_magn true vec_34 = zsl_vec_norm vec_34 /\
  exists n s : R,
    [/\ zsl_vec_norm vec_34 = Ok n,
        zsl_vec_sum_of_sqrs true vec_34 = Ok s,
        zsl_vec_dot true vec_34 vec_34 0%R = Ok (0%Z, s),
        (n * n)%R = s
      & (0 <= n)%R].
Proof.
have [H1 H2] := zsl_vec_magn_norm true vec_34.
by split; [exact: H1 | apply: H2].
Defined.

Lemma sum_of_squares_eq0 (l : seq R) :
  sum_of_squares l = 0%R <-> all (fun a => a == 0%R) l.
Proof.
elim: l => [|a l [IH1 IH2]] //=; split.
- move=> H; have Hl := sum_of_squares_ge0 l.
  have Ha : a = 0%R by nra.
  by rewrite Ha eqxx /=; apply: IH1; nra.
- by case/andP => /eqP -> /IH2 ->; ring.
Qed.

Lemma euclidean_norm_eq0 (l : seq R) :
  euclidean_norm l = 0%R <-> all (fun a => a == 0%R) l.
Proof.
rewrite /euclidean_norm -sum_of_squares_eq0; split.
- exact: (sqrt_eq_0 _ (sum_of_squares_ge0 l)).
- by move=> ->; exact: sqrt_0.
Qed.

(** X9. The norm of a well-formed vector is zero exactly when each of its
    first [sz] elements is zero: the zero vectors, the empty one among
    them, are the only inputs on which [zsl_vec_to_unit] takes its
    fallback branch. *)
Theorem zsl_vec_norm_zero_iff (v : zsl_vec) :
  vec_ok v ->
  zsl_vec_norm v = Ok 0%R <-> forall i, (0 <= i < sz v)%Z -> vget v i = 0%R.
Proof.
move=> Hv; have Hs := size_elems Hv; move/vec_okP: (Hv) => [Hv1 Hv2].
rewrite zsl_vec_norm_ok //; split.
- case=> /euclidean_norm_eq0 /(all_nthP 0%R) H i Hi.
  have := H (Z.to_nat i); rewrite Hs nth_elems ?Z2Nat.id; try lia.
  by move=> /(_ ltac:(apply/ltP; lia)) /eqP.
- move=> H; congr Ok; apply/euclidean_norm_eq0/(all_nthP 0%R) => k.
  rewrite Hs => /ltP Hk; rewrite nth_elems; first lia.
  by apply/eqP; apply: H; lia.
Qed.

Lemma zsl_vec_norm_zero_iff_witness :
  zsl_vec_norm vec_00 = Ok 0%R <->
  forall i, (0 <= i < sz vec_00)%Z -> vget vec_00 i = 0%R.
Proof. by apply: (@zsl_vec_norm_zero_iff vec_00). Defined.

(** X10. The norm is absolutely homogeneous: after [zsl_vec_scalar_mult]
    by [s] on a well-formed vector, [zsl_vec_norm] returns [|s|] times the
    norm it returned before. *)
Theorem zsl_vec_norm_scalar_mult (v : zsl_vec) (s : R) :
  vec_ok v ->
  exists v' n,
    [/\ zsl_vec_norm v = Ok n,
        zsl_vec_scalar_mult v s = Ok (0%Z, v')
      & zsl_vec_norm v' = Ok (Rabs s * n)%R].
Proof.
move=> Hv.
have Hm : size [seq (a * s)%R | a <- elems v] = Z.to_nat (sz v).
  by rewrite size_map size_elems.
exists (with_elems v [seq (a * s)%R | a <- elems v]), (euclidean_norm (elems v)).
split; [exact: zsl_vec_norm_ok | exact: zsl_vec_scalar_mult_eq | ].
rewrite zsl_vec_norm_ok; first exact: with_elems_ok.
rewrite elems_with_elems // /euclidean_norm sum_of_squares_scale.
rewrite sqrt_mult; [exact: sum_of_squares_ge0 | nra | ].
by rewrite -/(Rsqr s) sqrt_Rsqr_abs Rmult_comm.
Qed.

Lemma zsl_vec_norm_scalar_mult_witness :
  exists v' n,
    [/\ zsl_vec_norm vec_34 = Ok n,
        zsl_vec_scalar_mult vec_34 (- 2)%R = Ok (0%Z, v')
      & zsl_vec_norm v' = Ok (Rabs (- 2) * n)%R].
Proof. by apply: (@zsl_vec_norm_scalar_mult vec_34 (- 2)%R). Defined.

(** X11. [zsl_vec_to_unit] is idempotent on well-formed vectors of length
    at least 1: a second call returns 0 and leaves the vector as the first
    call made it, in the rescaling branch and in the fallback branch
    alike. *)
Theorem zsl_vec_to_unit_idempotent (v : zsl_vec) :
  vec_ok v -> (1 <= sz v)%Z ->
  exists2 v',
    zsl_vec_to_unit v = Ok (0%Z, v') & zsl_vec_to_unit v' = Ok (0%Z, v').
Proof.
move=> Hv H1.
have Hunit (u : zsl_vec) :
    vec_ok u -> zsl_vec_norm u = Ok 1%R -> zsl_vec_to_unit u = Ok (0%Z, u).
  move=> Hu Hn; rewrite /zsl_vec_to_unit Hn /=.
  have -> : (1%R != 0%R) = true by apply/eqP; lra.
  rewrite zsl_vec_scalar_mult_eq //=; congr (Ok (_, _)).
  rewrite -[RHS]with_elems_id; congr with_elems.
  by rewrite -[RHS]map_id; apply: eq_map => a; field.
case: (Req_dec_T (euclidean_norm (elems v)) 0%R) => Hmag.
- rewrite zsl_vec_to_unit_fallback //; eexists; first reflexivity.
  move/vec_okP: (Hv) => [Hv1 Hv2].
  have [n En] : exists n, Z.to_nat (sz v) = n.+1
    by exists (Z.to_nat (sz v)).-1; lia.
  have Hok : vec_ok (Vec (sz v) (1%R :: nseq (Z.to_nat (sz v) - 1) 0%R
                                  ++ drop (Z.to_nat (sz v)) (data v))).
    apply/vec_okP; split=> //=.
    by rewrite size_cat size_nseq size_drop En subn1 /= -plusE -minusE; lia.
  apply: Hunit => //; rewrite zsl_vec_norm_ok //; congr Ok.
  rewrite /elems /= En subn1 /= take_size_cat ?size_nseq //.
  rewrite /euclidean_norm /=.
  have -> : sum_of_squares (nseq n 0%R) = 0%R.
    by apply/sum_of_squares_eq0/allP => a; rewrite mem_nseq => /andP [_ ->].
  by rewrite (_ : (1 * 1 + 0 = 1)%R) ?sqrt_1 //; ring.
- have [v' E [Hs _ Hn]] := zsl_vec_to_unit_scaled Hv Hmag.
  exists v' => //; apply: Hunit => //.
  move: E; rewrite /zsl_vec_to_unit zsl_vec_norm_ok //=.
  have -> : (euclidean_norm (elems v) != 0%R) = true by apply/eqP.
  rewrite zsl_vec_scalar_mult_eq //= => -[<-].
  by apply: with_elems_ok => //; rewrite size_map size_elems.
Qed.

Lemma zsl_vec_to_unit_idempotent_witness :
  exists2 v',
    zsl_vec_to_unit vec_34 = Ok (0%Z, v') & zsl_vec_to_unit v' = Ok (0%Z, v').
Proof. by apply: (@zsl_vec_to_unit_idempotent vec_34). Defined.

(** ** Cross product against dot product *)

Lemma cross_dot_left (a0 a1 a2 b0 b1 b2 : R) :
  ((a1 * b2 - a2 * b1) * a0
   + ((a2 * b0 - a0 * b2) * a1 + ((a0 * b1 - a1 * b0) * a2 + 0)))%R = 0%R.
Proof. ring. Qed.

Lemma cross_dot_right (a0 a1 a2 b0 b1 b2 : R) :
  ((a1 * b2 - a2 * b1) * b0
   + ((a2 * b0 - a0 * b2) * b1 + ((a0 * b1 - a1 * b0) * b2 + 0)))%R = 0%R.
Proof. ring. Qed.

(** X12. The vector [zsl_vec_cross] writes is orthogonal to both of its
    inputs: [zsl_vec_dot] of it with either input writes exactly 0; and
    the cross product of a vector with itself is the zero vector. *)
Theorem zsl_vec_cross_orthogonal (chk : bool) (v w c : zsl_vec) (d : R) :
  vec_ok v -> vec_ok w -> vec_ok c ->
  sz v = 3%Z -> sz w = 3%Z -> sz c = 3%Z ->
  (exists2 c',
     zsl_vec_cross chk v w c = Ok (0%Z, c')
     & zsl_vec_dot chk c' v d = Ok (0%Z, 0%R) /\
       zsl_vec_dot chk c' w d = Ok (0%Z, 0%R)) /\
  (exists2 c',
     zsl_vec_cross chk v v c = Ok (0%Z, c')
     & elems c' = [:: 0%R; 0%R; 0%R]).
Proof.
move=> Hv Hw Hc Ev Ew Ec.
have [a0 [a1 [a2 [ra Da]]]] := vec3_data Hv Ev.
have [b0 [b1 [b2 [rb Db]]]] := vec3_data Hw Ew.
have [c0 [c1 [c2 [rc Dc]]]] := vec3_data Hc Ec.
have Hok x y z : vec_ok (Vec 3 [:: x, y, z & drop 3 (data c)]).
  by apply/vec_okP; rewrite /= /SIZE_MOD; lia.
split.
- rewrite (zsl_vec_cross_ok chk Hv Hw Hc Ev Ew Ec).
  eexists; first reflexivity.
  rewrite !zsl_vec_dot_ok //.
  rewrite /elems /vget Ev Ew Da Db /= /dot_product /= !take0 /=.
  by rewrite cross_dot_left cross_dot_right.
- rewrite (zsl_vec_cross_ok chk Hv Hv Hc Ev Ev Ec).
  eexists; first reflexivity.
  rewrite /elems /vget Da /= take0.
  by congr [:: _; _; _]; rewrite Rmult_comm Rminus_diag.
Qed.

Lemma zsl_vec_cross_orthogonal_witness :
  (exists2 c',
     zsl_vec_cross true vec_100 vec_010 vec_000 = Ok (0%Z, c')
     & zsl_vec_dot true c' vec_100 0%R = Ok (0%Z, 0%R) /\
       zsl_vec_dot true c' vec_010 0%R = Ok (0%Z, 0%R)) /\
  (exists2 c',
     zsl_vec_cross true vec_100 vec_100 vec_000 = Ok (0%Z, c')
     & elems c' = [:: 0%R; 0%R; 0%R]).
Proof.
by apply: (@zsl_vec_cross_orthogonal true vec_100 vec_010 vec_000 0%R).
Defined.

(** ** Reversal twice *)

(** X13. [zsl_vec_rev] is an involution on well-formed vectors of length
    at least 1: reversing twice returns 0 both times and restores every
    element. *)
Theorem zsl_vec_rev_involutive (v : zsl_vec) :
  vec_ok v -> (1 <= sz v)%Z ->
  exists v1 v2,
    [/\ zsl_vec_rev v = Ok (0%Z, v1),
        zsl_vec_rev v1 = Ok (0%Z, v2),
        sz v2 = sz v,
        forall i, (0 <= i)%Z -> vget v2 i = vget v i
      & elems v2 = elems v].
Proof.
move=> Hv H1; move/vec_okP: (Hv) => [Hv1 Hv2].
have Hsize (u u' : zsl_vec) :
    vec_ok u -> (1 <= sz u)%Z -> zsl_vec_rev u = Ok (0%Z, u') -> vec_ok u'.
  move=> /vec_okP [Hu1 Hu2] Hu; rewrite /zsl_vec_rev size_wrap_small; first lia.
  have [| | | |d' -> [Hs _]] :=
    @rev_loop_ok (Z.to_nat (sz u - 1)) 0%Z (sz u - 1)%Z (data u); try lia.
  by case=> <-; apply/vec_okP; rewrite /= Hs.
have [v1 E1 [Hs1 Hin1 Hout1]] := zsl_vec_rev_ok Hv H1.
have Hok1 := Hsize _ _ Hv H1 E1.
have H1' : (1 <= sz v1)%Z by rewrite Hs1.
have [v2 E2 [Hs2 Hin2 Hout2]] := zsl_vec_rev_ok Hok1 H1'.
have Hel i : (0 <= i)%Z -> vget v2 i = vget v i.
{ move=> Hi; case: (Z.ltb_spec i (sz v)) => Hlt.
  - rewrite Hin2 ?Hs1; try lia.
    by rewrite Hin1; [lia | congr (vget v _); lia].
  - by rewrite Hout2 ?Hs1 // Hout1. }
exists v1, v2; split=> //; first by rewrite Hs2.
apply: elems_eq => //; [exact: (Hsize _ _ Hok1 H1' E2) | by rewrite Hs2 | ].
by move=> i Hi; apply: Hel; lia.
Qed.

Lemma zsl_vec_rev_involutive_witness :
  exists v1 v2,
    [/\ zsl_vec_rev vec_12345 = Ok (0%Z, v1),
        zsl_vec_rev v1 = Ok (0%Z, v2),
        sz v2 = sz vec_12345,
        forall i, (0 <= i)%Z -> vget v2 i = vget vec_12345 i
      & elems v2 = elems vec_12345].
Proof. by apply: (@zsl_vec_rev_involutive vec_12345). Defined.

(** ** Arithmetic mean *)

Lemma seq_sum_rcons (l : seq R) (a : R) :
  seq_sum (rcons l a) = (seq_sum l + a)%R.
Proof.
by rewrite /seq_sum; elim: l => [|b l IH] /=; [ring | rewrite IH; ring].
Qed.

Lemma seq_sum_map_add (l : seq R) (s : R) :
  seq_sum [seq (a + s)%R | a <- l] = (seq_sum l + INR (size l) * s)%R.
Proof.
elim: l => [|a l IH]; first by rewrite /= Rmult_0_l Rplus_0_r.
by rewrite [size _]/= S_INR /= IH; ring.
Qed.

Lemma seq_sum_map_mul (l : seq R) (s : R) :
  seq_sum [seq (a * s)%R | a <- l] = (seq_sum l * s)%R.
Proof. by elim: l => [|a l IH] /=; [ring | rewrite IH; ring]. Qed.

Lemma seq_sum_bounds (l : seq R) (lo hi : R) :
  (forall k : nat, (k < size l)%coq_nat -> (lo <= nth 0%R l k <= hi)%R) ->
  (INR (size l) * lo <= seq_sum l <= INR (size l) * hi)%R.
Proof.
elim: l => [|a l IH] H; first by rewrite /= !Rmult_0_l; lra.
have Ha := H 0%nat ltac:(rewrite /=; lia).
have Hl : forall k, (k < size l)%coq_nat -> (lo <= nth 0%R l k <= hi)%R.
  by move=> k Hk; apply: (H k.+1); rewrite /=; lia.
have := IH Hl; rewrite /= in Ha.
change (size (a :: l)) with (size l).+1; rewrite S_INR.
by change (seq_sum (a :: l)) with (a + seq_sum l)%R; move=> ?; nra.
Qed.

Lemma sum_loop (d : seq R) (n : nat) :
  (n <= size d)%coq_nat ->
  for_loop n 0%Z (fun i m => a <- load d i ;; Ok (m + a)%R) 0%R
  = Ok (seq_sum (take n d)).
Proof.
move=> Hn.
pose P (i : Z) (s : R) := s = seq_sum (take (Z.to_nat i) d).
have [| |s -> ->] := @for_loop_inv _ P
  (fun i m => a <- load d i ;; Ok (m + a)%R) n 0%Z 0%R.
- by rewrite /P take0.
- move=> i s0 Hi ->; rewrite load_ok /=; first lia.
  eexists; first reflexivity.
  rewrite /P; have -> : Z.to_nat (i + 1) = (Z.to_nat i).+1 by lia.
  rewrite (take_nth 0%R); first by apply/ltP; lia.
  by rewrite seq_sum_rcons.
- by rewrite Z.add_0_l Nat2Z.id.
Qed.

Lemma zsl_vec_ar_mean_ok (v : zsl_vec) (m : R) :
  vec_ok v -> (1 <= sz v)%Z ->
  zsl_vec_ar_mean v m = Ok (0%Z, (seq_sum (elems v) / IZR (sz v))%R).
Proof.
move=> /vec_okP [Hv1 Hv2] H1; rewrite /zsl_vec_ar_mean.
have -> : (sz v <? 1)%Z = false by apply/Z.ltb_ge.
by rewrite sum_loop //; lia.
Qed.

Lemma INR_size_elems (v : zsl_vec) : vec_ok v -> INR (size (elems v)) = IZR (sz v).
Proof.
move=> Hv; move/vec_okP: (Hv) => [Hv1 Hv2].
by rewrite size_elems // INR_IZR_INZ Z2Nat.id //; lia.
Qed.

(** X14. [zsl_vec_ar_mean] refuses the empty vector with [-EINVAL] and
    leaves the result cell as it was; on a well-formed vector of length at
    least 1 it returns 0 and writes the sum of the elements divided by the
    length, whatever the cell held, and the value written lies between any
    two bounds that enclose every element. *)
Theorem zsl_vec_ar_mean_spec (v : zsl_vec) (m : R) :
  vec_ok v ->
  (sz v = 0%Z -> zsl_vec_ar_mean v m = Ok ((- EINVAL)%Z, m)) /\
  ((1 <= sz v)%Z ->
   exists2 mu,
     zsl_vec_ar_mean v m = Ok (0%Z, mu)
     & (mu * IZR (sz v))%R = seq_sum (elems v) /\
       forall lo hi,
         (forall i, (0 <= i < sz v)%Z -> (lo <= vget v i <= hi)%R) ->
         (lo <= mu <= hi)%R).
Proof.
move=> Hv; split; first by rewrite /zsl_vec_ar_mean => ->.
move=> H1; rewrite zsl_vec_ar_mean_ok //; eexists; first reflexivity.
have Hpos : (0 < IZR (sz v))%R by apply: IZR_lt; lia.
split; first by field; lra.
move=> lo hi Hb.
have := @seq_sum_bounds (elems v) lo hi.
rewrite INR_size_elems // size_elems //.
have Hk k : (k < Z.to_nat (sz v))%coq_nat -> (lo <= nth 0%R (elems v) k <= hi)%R.
  by move=> Hk; rewrite nth_elems; [lia | apply: Hb; lia].
move=> /(_ Hk) [Hlo Hhi]; split.
- apply: (Rmult_le_reg_r (IZR (sz v))) => //.
  by rewrite /Rdiv Rmult_assoc Rinv_l; lra.
- apply: (Rmult_le_reg_r (IZR (sz v))) => //.
  by rewrite /Rdiv Rmult_assoc Rinv_l; lra.
Qed.

Lemma zsl_vec_ar_mean_spec_witness :
  zsl_vec_ar_mean vec_empty 7%R = Ok ((- EINVAL)%Z, 7%R) /\
  exists2 mu,
    zsl_vec_ar_mean vec_12345 7%R = Ok (0%Z, mu)
    & (mu * IZR (sz vec_12345))%R = seq_sum (elems vec_12345) /\
      forall lo hi,
        (forall i, (0 <= i < sz vec_12345)%Z -> (lo <= vget vec_12345 i <= hi)%R) ->
        (lo <= mu <= hi)%R.
Proof.
split.
- by apply: (proj1 (@zsl_vec_ar_mean_spec vec_empty 7%R erefl)).
- apply: (proj2 (@zsl_vec_ar_mean_spec vec_12345 7%R erefl)).
  by rewrite /=; lia.
Defined.

(** X15. The arithmetic mean follows the in-place scalar operations: after
    [zsl_vec_scalar_add] by [s] the mean [zsl_vec_ar_mean] writes is the
    former mean plus [s], and after [zsl_vec_scalar_mult] by [s] it is the
    former mean times [s]. *)
Theorem zsl_vec_ar_mean_affine (v : zsl_vec) (s m : R) :
  vec_ok v -> (1 <= sz v)%Z ->
  exists mu va vm,
    [/\ zsl_vec_ar_mean v m = Ok (0%Z, mu),
        zsl_vec_scalar_add v s = Ok (0%Z, va),
        zsl_vec_ar_mean va m = Ok (0%Z, (mu + s)%R),
        zsl_vec_scalar_mult v s = Ok (0%Z, vm)
      & zsl_vec_ar_mean vm m = Ok (0%Z, (mu * s)%R)].
Proof.
move=> Hv H1.
have Hpos : (0 < IZR (sz v))%R by apply: IZR_lt; lia.
have Ha : size [seq (a + s)%R | a <- elems v] = Z.to_nat (sz v).
  by rewrite size_map size_elems.
have Hm : size [seq (a * s)%R | a <- elems v] = Z.to_nat (sz v).
  by rewrite size_map size_elems.
exists (seq_sum (elems v) / IZR (sz v))%R.
exists (with_elems v [seq (a + s)%R | a <- elems v]).
exists (with_elems v [seq (a * s)%R | a <- elems v]).
split.
- exact: zsl_vec_ar_mean_ok.
- exact: zsl_vec_scalar_add_eq.
- rewrite zsl_vec_ar_mean_ok //; first exact: with_elems_ok.
  rewrite elems_with_elems // seq_sum_map_add INR_size_elems //=.
  by congr (Ok (_, _)); rewrite /zsl_real_t; field; lra.
- exact: zsl_vec_scalar_mult_eq.
- rewrite zsl_vec_ar_mean_ok //; first exact: with_elems_ok.
  rewrite elems_with_elems // seq_sum_map_mul /=.
  by congr (Ok (_, _)); rewrite /zsl_real_t; field; lra.
Qed.

Lemma zsl_vec_ar_mean_affine_witness :
  exists mu va vm,
    [/\ zsl_vec_ar_mean vec_12345 0%R = Ok (0%Z, mu),
        zsl_vec_scalar_add vec_12345 2%R = Ok (0%Z, va),
        zsl_vec_ar_mean va 0%R = Ok (0%Z, (mu + 2)%R),
        zsl_vec_scalar_mult vec_12345 2%R = Ok (0%Z, vm)
      & zsl_vec_ar_mean vm 0%R = Ok (0%Z, (mu * 2)%R)].
Proof.
apply: (@zsl_vec_ar_mean_affine vec_12345 2%R 0%R); first reflexivity.
by rewrite /=; lia.
Defined.

(** ** Sums of lists of vectors *)

Section SumCalls.

Variable chk : bool.
Variables (v : seq zsl_vec) (n : Z) (L : Z).

Hypothesis Hn : (1 <= n <= Z.of_nat (size v))%Z.
Hypothesis HL : size_of_int (int_of_size (sz (nth (Vec 0 [::]) v 0))) = L.
Hypothesis Hchk :
  chk -> forall i, (0 <= i < n)%Z -> sz (nth (Vec 0 [::]) v (Z.to_nat i)) = L.
Hypothesis Hcap :
  forall i, (0 <= i < n)%Z ->
    (L <= Z.of_nat (size (data (nth (Vec 0 [::]) v (Z.to_nat i)))))%Z.

(** When the first length, read through [int], is [L], every input has
    [L] slots, the size check (where compiled in) finds the length [L]
    everywhere, and the output has room for [L] elements, [zsl_vec_sum]
    returns 0. *)
Lemma zsl_vec_sum_returns (w : zsl_vec) :
  (L <= Z.of_nat (size (data w)))%Z ->
  exists2 w',
    zsl_vec_sum chk v n w = Ok (0%Z, w')
    & [/\ sz w' = L, size (data w') = size (data w),
          forall j, (0 <= j < L)%Z ->
            vget w' j = (vget w j + col_sum (take (Z.to_nat n) v) j)%R
        & forall j, (L <= j)%Z -> vget w' j = vget w j].
Proof.
move=> Hw.
have Hret : exists w', zsl_vec_sum chk v n w = Ok (0%Z, w').
{ rewrite /zsl_vec_sum.
  have -> : (n =? 0)%Z = false by apply/Z.eqb_neq; lia.
  rewrite vload_ok /=; first lia.
  have -> : (if chk
             then sum_check v (int_of_size (sz (nth (Vec 0 [::]) v 0)))
                    (Z.to_nat n) 0%Z
             else Ok true) = Ok true.
  { move: Hchk; case: (chk) => // /(_ isT) Hc.
    rewrite (sum_check_eq _ _ (i := 0%nat)); first lia.
    congr Ok; rewrite drop0 HL; apply/(all_nthP (Vec 0 [::])) => k.
    rewrite size_take.
    have -> : (if (Z.to_nat n < size v)%nat then Z.to_nat n else size v)
              = Z.to_nat n by case: ltP => //; lia.
    move=> /ltP Hk; rewrite nth_take; first by apply/ltP.
    have := @Hc (Z.of_nat k) ltac:(lia); rewrite Nat2Z.id => ->.
    by rewrite Z.eqb_refl. }
  rewrite /= HL.
  have [| |d -> _] := @for_loop_inv _ (fun _ e => size e = size (data w))
    (fun i d =>
       for_loop (Z.to_nat L) 0%Z
         (fun j d => vi <- vload v i ;;
                     a <- load d j ;; b <- load (data vi) j ;;
                     store d j (a + b)%R) d)
    (Z.to_nat n) 0%Z (data w).
  - by [].
  - move=> i s0 Hi Hs.
    have H := @Hcap i ltac:(lia).
    have [| |d' -> Hs'] := @sum_inner_ok v i (Z.to_nat L) s0.
    + by rewrite Hs; lia.
    + by move=> _; split; lia.
    + by exists d' => //; rewrite Hs'.
  - by eexists. }
case: Hret => w' E; exists w' => //.
have Hn0 : (0 < n)%Z by lia.
have [Hsz _ Hsize Hd] := zsl_vec_sum_run Hn0 E.
have HszL : sz w' = L by rewrite Hsz HL.
split=> //.
- move=> j Hj; rewrite /vget Hd Z2Nat.id; first lia.
  by have -> : (j <? sz w')%Z = true by apply/Z.ltb_lt; lia.
- move=> j Hj; rewrite /vget Hd.
  by case: Z.ltb_spec => // Hlt; lia.
Qed.

End SumCalls.

(** On [n >= 1] vectors of one length [L] an [int] holds, with room for
    [L] elements in the output, [zsl_vec_sum] returns 0. *)
Lemma zsl_vec_sum_ok (chk : bool) (v : seq zsl_vec) (n L : Z) :
  (1 <= n <= Z.of_nat (size v))%Z ->
  (0 <= L <= INT_MAX)%Z ->
  (forall i, (0 <= i < n)%Z ->
     sz (nth (Vec 0 [::]) v (Z.to_nat i)) = L /\
     (L <= Z.of_nat (size (data (nth (Vec 0 [::]) v (Z.to_nat i)))))%Z) ->
  forall w : zsl_vec,
    (L <= Z.of_nat (size (data w)))%Z ->
    exists2 w',
      zsl_vec_sum chk v n w = Ok (0%Z, w')
      & [/\ sz w' = L, size (data w') = size (data w),
            forall j, (0 <= j < L)%Z ->
              vget w' j = (vget w j + col_sum (take (Z.to_nat n) v) j)%R
          & forall j, (L <= j)%Z -> vget w' j = vget w j].
Proof.
move=> Hn HL Hv w Hw.
apply: (@zsl_vec_sum_returns chk v n L) => //.
- have [-> _] := Hv 0%Z ltac:(lia).
  exact: size_of_int_of_size.
- by move=> _ i Hi; have [] := Hv i Hi.
- by move=> i Hi; have [] := Hv i Hi.
Qed.

Lemma vec_big_ok : vec_ok vec_big.
Proof.
apply/vec_okP; split; first by rewrite /SIZE_MOD.
change (data vec_big) with (nseq (Z.to_nat 4294967298) 1%R).
change (sz vec_big) with 4294967298%Z.
rewrite size_nseq Z2Nat.id; lia.
Qed.

Lemma vec_big_2 : vget vec_big 2 = 1%R.
Proof.
rewrite /vget; change (data vec_big) with (nseq (Z.to_nat 4294967298) 1%R).
rewrite nth_nseq.
have -> : (Z.to_nat 2 < Z.to_nat 4294967298)%nat = true; last reflexivity.
apply/ltP; lia.
Qed.

(** C9 fails on the code.  The first input's length reaches the output
    through [int sz_last].  For one input of [2^32 + 2] elements, each of
    them 1, the build without the bounds checks returns 0 with the
    output's length set to 2, not to the input's length, and has added
    the first two elements only: element 2 of the output is as it was.
    The build with the checks compares the truncated length with the
    input's own and refuses the call. *)
Theorem zsl_vec_sum_truncates_length :
  [/\ vec_ok vec_big /\ vget vec_big 2 = 1%R,
      exists2 w',
        zsl_vec_sum false [:: vec_big] 1 vec_000 = Ok (0%Z, w')
        & [/\ sz w' = 2%Z, sz w' <> sz vec_big
            & vget w' 2 = vget vec_000 2]
    & zsl_vec_sum true [:: vec_big] 1 vec_000 = Ok ((- EINVAL)%Z, vec_000)].
Proof.
split; [split; [exact: vec_big_ok | exact: vec_big_2] | | reflexivity].
have Hn : (1 <= 1 <= Z.of_nat (size [:: vec_big]))%Z.
  change (size [:: vec_big]) with 1%nat; lia.
have HL : size_of_int (int_of_size (sz (nth (Vec 0 [::]) [:: vec_big] 0)))
          = 2%Z.
  reflexivity.
have Hchk : false ->
    forall i, (0 <= i < 1)%Z ->
      sz (nth (Vec 0 [::]) [:: vec_big] (Z.to_nat i)) = 2%Z.
  move=> H; discriminate H.
have Hcap : forall i, (0 <= i < 1)%Z ->
    (2 <= Z.of_nat (size (data (nth (Vec 0 [::]) [:: vec_big] (Z.to_nat i)))))%Z.
  move=> i Hi; have -> : i = 0%Z by lia.
  change (data _) with (nseq (Z.to_nat 4294967298) 1%R).
  rewrite size_nseq Z2Nat.id; lia.
have Hw : (2 <= Z.of_nat (size (data vec_000)))%Z.
  change (size (data vec_000)) with 3%nat; lia.
have [w' E [H1 _ _ H2]] := zsl_vec_sum_returns Hn HL Hchk Hcap Hw.
exists w'; first exact: E.
split; first exact: H1.
- rewrite H1; change (sz vec_big) with 4294967298%Z; lia.
- apply: H2; lia.
Qed.

(** With the bounds checks compiled in, a vector among the first [n] whose
    length is not the first one's makes [zsl_vec_sum] return [-EINVAL]
    before it writes anything. *)
Lemma zsl_vec_sum_mismatch (v : seq zsl_vec) (n : Z) (w : zsl_vec) :
  (1 <= n <= Z.of_nat (size v))%Z ->
  let L := sz (nth (Vec 0 [::]) v 0) in
  (0 <= L <= INT_MAX)%Z ->
  (exists2 i, (0 <= i < n)%Z & sz (nth (Vec 0 [::]) v (Z.to_nat i)) <> L) ->
  zsl_vec_sum true v n w = Ok ((- EINVAL)%Z, w).
Proof.
move=> Hn L HL [i Hi Hne]; rewrite /zsl_vec_sum.
have -> : (n =? 0)%Z = false by apply/Z.eqb_neq; lia.
rewrite vload_ok /=; first lia.
rewrite -/L (sum_check_eq _ _ (i := 0%nat)); first lia.
rewrite /= drop0.
have -> // : all (fun u => (size_of_int (int_of_size L) =? sz u)%Z)
                 (take (Z.to_nat n) v) = false.
apply/negbTE/negP => /(all_nthP (Vec 0 [::])) /(_ (Z.to_nat i)).
rewrite size_take nth_take; first by apply/ltP; lia.
have -> : (if (Z.to_nat n < size v)%nat then Z.to_nat n else size v)
          = Z.to_nat n by case: ltP => //; lia.
have Hlt : (Z.to_nat i < Z.to_nat n)%nat by apply/ltP; lia.
move=> /(_ Hlt); rewrite size_of_int_of_size; first lia.
by move/Z.eqb_eq => H; apply: Hne.
Qed.

(** X16. [zsl_vec_sum] on [n >= 1] well-formed vectors whose lengths an
    [int] holds: when all of them have the first one's length [L] and the
    output has room for [L] elements, the call returns 0 in either build,
    sets the output's length to [L] and adds the column sums to the
    output's first [L] elements, leaving the rest alone; when one of them
    has another length, the build with the bounds checks returns
    [-EINVAL] and leaves the output as it was. *)
Theorem zsl_vec_sum_spec (chk : bool) (v : seq zsl_vec) (n : Z) (w : zsl_vec) :
  (1 <= n <= Z.of_nat (size v))%Z ->
  (forall i, (0 <= i < n)%Z ->
     vec_ok (nth (Vec 0 [::]) v (Z.to_nat i)) /\
     (sz (nth (Vec 0 [::]) v (Z.to_nat i)) <= INT_MAX)%Z) ->
  let L := sz (nth (Vec 0 [::]) v 0) in
  ((forall i, (0 <= i < n)%Z -> sz (nth (Vec 0 [::]) v (Z.to_nat i)) = L) ->
   (L <= Z.of_nat (size (data w)))%Z ->
   exists2 w',
     zsl_vec_sum chk v n w = Ok (0%Z, w')
     & [/\ sz w' = L,
           forall j, (0 <= j < L)%Z ->
             vget w' j = (vget w j + col_sum (take (Z.to_nat n) v) j)%R
         & forall j, (L <= j)%Z -> vget w' j = vget w j]) /\
  ((exists2 i, (0 <= i < n)%Z & sz (nth (Vec 0 [::]) v (Z.to_nat i)) <> L) ->
   zsl_vec_sum true v n w = Ok ((- EINVAL)%Z, w)).
Proof.
move=> Hn Hv L.
have [/vec_okP [[HL0 _] _] HLm] := Hv 0%Z ltac:(lia).
rewrite /= -/L in HL0 HLm.
split.
- move=> Hsame Hw.
  have [| |w' E [H1 _ H2 H3]] :=
    @zsl_vec_sum_ok chk v n L Hn _ _ w Hw; first lia.
  + move=> i Hi; split; first exact: Hsame.
    by have [/vec_okP [_ Hcap] _] := Hv i Hi; rewrite -(Hsame i Hi).
  + by exists w'.
- by move=> Hne; apply: zsl_vec_sum_mismatch => //; rewrite -/L; lia.
Qed.

Lemma zsl_vec_sum_spec_witness :
  (exists2 w',
     zsl_vec_sum false [:: vec_12; vec_34] 2 vec_00 = Ok (0%Z, w')
     & [/\ sz w' = 2%Z,
           forall j, (0 <= j < 2)%Z ->
             vget w' j
             = (vget vec_00 j
                + col_sum (take (Z.to_nat 2) [:: vec_12; vec_34]) j)%R
         & forall j, (2 <= j)%Z -> vget w' j = vget vec_00 j]) /\
  zsl_vec_sum true [:: vec_12; vec_100] 2 vec_00 = Ok ((- EINVAL)%Z, vec_00).
Proof.
have Hn : (1 <= 2 <= Z.of_nat 2)%Z by lia.
split.
- apply: (proj1 (@zsl_vec_sum_spec false [:: vec_12; vec_34] 2 vec_00 Hn _)).
  + move=> i Hi; have [->|->] : i = 0%Z \/ i = 1%Z by lia.
    * by split=> //; rewrite /= /INT_MAX; lia.
    * by split=> //; rewrite /= /INT_MAX; lia.
  + by move=> i Hi; have [->|->] : i = 0%Z \/ i = 1%Z by lia.
  + by rewrite /=; lia.
- apply: (proj2 (@zsl_vec_sum_spec true [:: vec_12; vec_100] 2 vec_00 Hn _)).
  + move=> i Hi; have [->|->] : i = 0%Z \/ i = 1%Z by lia.
    * by split=> //; rewrite /= /INT_MAX; lia.
    * by split=> //; rewrite /= /INT_MAX; lia.
  + by exists 1%Z; rewrite /=; lia.
Defined.

(** ** Sums and means into a cleared output *)

Lemma zsl_vec_init_cleared (w : zsl_vec) :
  vec_ok w ->
  exists2 w0,
    zsl_vec_init w = Ok (0%Z, w0)
    & [/\ sz w0 = sz w, size (data w0) = size (data w)
        & forall j, (0 <= j < sz w)%Z -> vget w0 j = 0%R].
Proof.
move=> Hw; move/vec_okP: (Hw) => [Hw1 Hw2].
rewrite zsl_vec_init_ok //; eexists; first reflexivity.
split=> //=.
- by rewrite size_cat size_nseq size_drop -plusE -minusE; lia.
- move=> j Hj; rewrite /vget /= nth_cat size_nseq.
  have -> : (Z.to_nat j < Z.to_nat (sz w))%nat = true by apply/ltP; lia.
  by rewrite nth_nseq; case: ifP.
Qed.

(** X17. Clearing the output with [zsl_vec_init] and then calling
    [zsl_vec_sum] on [n >= 1] well-formed vectors of one length [L] (one
    an [int] holds, no more than the output's length) returns 0 twice and
    leaves exactly the column sums in the output, whose length is then
    [L]. *)
Theorem zsl_vec_sum_after_init (chk : bool) (v : seq zsl_vec) (n : Z)
    (w : zsl_vec) :
  (1 <= n <= Z.of_nat (size v))%Z ->
  let L := sz (nth (Vec 0 [::]) v 0) in
  (L <= INT_MAX)%Z ->
  (forall i, (0 <= i < n)%Z ->
     vec_ok (nth (Vec 0 [::]) v (Z.to_nat i)) /\
     sz (nth (Vec 0 [::]) v (Z.to_nat i)) = L) ->
  vec_ok w -> (L <= sz w)%Z ->
  exists w0 w',
    [/\ zsl_vec_init w = Ok (0%Z, w0),
        zsl_vec_sum chk v n w0 = Ok (0%Z, w'),
        sz w' = L
      & forall j, (0 <= j < L)%Z ->
          vget w' j = col_sum (take (Z.to_nat n) v) j].
Proof.
move=> Hn L HLm Hv Hw HLw; move/vec_okP: (Hw) => [Hw1 Hw2].
have [/vec_okP [[HL0 _] _] _] := Hv 0%Z ltac:(lia).
rewrite /= -/L in HL0.
have [w0 E0 [Hs0 Hc0 Hz0]] := zsl_vec_init_cleared Hw.
have [| | |w' E [H1 _ H2 _]] := @zsl_vec_sum_ok chk v n L Hn _ _ w0.
- lia.
- move=> i Hi; have [/vec_okP [_ Hcap] Hsz] := Hv i Hi.
  by split=> //; rewrite -Hsz.
- by rewrite Hc0; lia.
- exists w0, w'; split=> // j Hj.
  by rewrite H2 // Hz0; [lia | rewrite Rplus_0_l].
Qed.

Lemma zsl_vec_sum_after_init_witness :
  exists w0 w',
    [/\ zsl_vec_init vec_12345 = Ok (0%Z, w0),
        zsl_vec_sum true [:: vec_12; vec_34] 2 w0 = Ok (0%Z, w'),
        sz w' = 2%Z
      & forall j, (0 <= j < 2)%Z ->
          vget w' j = col_sum (take (Z.to_nat 2) [:: vec_12; vec_34]) j].
Proof.
apply: (@zsl_vec_sum_after_init true [:: vec_12; vec_34] 2 vec_12345).
- by rewrite /=; lia.
- by rewrite /= /INT_MAX; lia.
- by move=> i Hi; have [->|->] : i = 0%Z \/ i = 1%Z by lia.
- reflexivity.
- by rewrite /=; lia.
Defined.

Lemma take_head (v : seq zsl_vec) :
  (1 <= Z.of_nat (size v))%Z ->
  take (Z.to_nat 1) v = [:: nth (Vec 0 [::]) v 0].
Proof. by case: v => [|u v'] /=; [lia | rewrite take0]. Qed.

(** X18. Over the reals: [zsl_vec_mean] into an output of the inputs'
    length [L] cleared by [zsl_vec_init], on [n >= 1] well-formed vectors
    of length [L]: the call returns 0 in either build and the output has
    length [L]; each element is the column sum times the integer quotient
    [1/n], so that for [n = 1] the output holds the one input and for
    every [n >= 2] it holds zeros. *)
Theorem zsl_vec_mean_after_init (chk : bool) (v : seq zsl_vec) (n : Z)
    (m : zsl_vec) :
  (1 <= n <= Z.of_nat (size v))%Z ->
  let L := sz (nth (Vec 0 [::]) v 0) in
  (L <= INT_MAX)%Z ->
  (forall i, (0 <= i < n)%Z ->
     vec_ok (nth (Vec 0 [::]) v (Z.to_nat i)) /\
     sz (nth (Vec 0 [::]) v (Z.to_nat i)) = L) ->
  vec_ok m -> sz m = L ->
  exists m0 m',
    [/\ zsl_vec_init m = Ok (0%Z, m0),
        zsl_vec_mean chk v n m0 = Ok (0%Z, m'),
        sz m' = L,
        forall j, (0 <= j < L)%Z ->
          vget m' j = (col_sum (take (Z.to_nat n) v) j * IZR (1 / n))%R
      & forall j, (0 <= j < L)%Z ->
          vget m' j
          = if (n =? 1)%Z then vget (nth (Vec 0 [::]) v 0) j else 0%R].
Proof.
move=> Hn L HLm Hv Hm HLs; move/vec_okP: (Hm) => [Hm1 Hm2].
have [/vec_okP [[HL0 HL1] _] _] := Hv 0%Z ltac:(lia).
rewrite /= -/L in HL0 HL1.
have [m0 E0 [Hs0 Hc0 Hz0]] := zsl_vec_init_cleared Hm.
have HL : (0 <= L <= INT_MAX)%Z by lia.
have Hv' i : (0 <= i < n)%Z ->
    sz (nth (Vec 0 [::]) v (Z.to_nat i)) = L /\
    (L <= Z.of_nat (size (data (nth (Vec 0 [::]) v (Z.to_nat i)))))%Z.
  move=> Hi; have [/vec_okP [_ Hcap] Hsz] := Hv i Hi.
  by split=> //; rewrite -Hsz.
have [|w' E [H1 Hc1 H2 _]] := @zsl_vec_sum_ok chk v n L Hn HL Hv' m0.
  by rewrite Hc0; lia.
have Hw' : vec_ok w' by apply/vec_okP; rewrite H1 Hc1 Hc0; lia.
have Hrun : exists2 m', zsl_vec_mean chk v n m0 = Ok (0%Z, m') & sz m' = L.
{ rewrite /zsl_vec_mean.
  have -> : (if chk then v0 <- vload v 0%Z ;; Ok (negb (sz m0 =? sz v0)%Z)
             else Ok false) = Ok false.
  { case: (chk) => //; rewrite vload_ok /=; first lia.
    by rewrite Hs0 HLs -/L Z.eqb_refl. }
  rewrite /= E /= zsl_vec_scalar_mult_eq //=.
  by eexists; first reflexivity. }
case: Hrun => m' Em Hsm.
have Hn0 : (0 < n)%Z by lia.
have Hcl j : (0 <= j < L)%Z ->
    vget m' j = (col_sum (take (Z.to_nat n) v) j * IZR (1 / n))%R.
  move=> Hj; rewrite (zsl_vec_mean_run Hn0 Em); first by rewrite Hsm.
  by rewrite Hz0; [lia | rewrite Rplus_0_l].
exists m0, m'; split=> // j Hj; rewrite Hcl //.
case: Z.eqb_spec => [->|Hne].
- rewrite take_head; first lia.
  by rewrite /= Rplus_0_r Rmult_1_r.
- by rewrite Z.div_small; [lia | rewrite Rmult_0_r].
Qed.

Lemma zsl_vec_mean_after_init_witness :
  exists m0 m',
    [/\ zsl_vec_init vec_12 = Ok (0%Z, m0),
        zsl_vec_mean true [:: vec_24; vec_48] 2 m0 = Ok (0%Z, m'),
        sz m' = 2%Z,
        forall j, (0 <= j < 2)%Z ->
          vget m' j
          = (col_sum (take (Z.to_nat 2) [:: vec_24; vec_48]) j * IZR (1 / 2))%R
      & forall j, (0 <= j < 2)%Z ->
          vget m' j
          = if (2 =? 1)%Z then vget (nth (Vec 0 [::]) [:: vec_24; vec_48] 0) j
            else 0%R].
Proof.
apply: (@zsl_vec_mean_after_init true [:: vec_24; vec_48] 2 vec_12).
- by rewrite /=; lia.
- by rewrite /= /INT_MAX; lia.
- by move=> i Hi; have [->|->] : i = 0%Z \/ i = 1%Z by lia.
- reflexivity.
- reflexivity.
Defined.

(** X19. What [zsl_vec_mean] refuses.  With the bounds checks compiled
    in, an output whose length is not the first input's, or an input
    among the first [n] whose length is not the first one's, gives
    [-EINVAL] with the output as it was; [n = 0] gives [-EINVAL] likewise
    in either build when there is a first input to read.  The checked
    build reads the first input before it looks at [n]: on an array with
    no element it reads outside the array, where the unchecked build
    returns [-EINVAL] for [n = 0]. *)
Theorem zsl_vec_mean_rejects (v : seq zsl_vec) (n : Z) (m : zsl_vec) :
  let L := sz (nth (Vec 0 [::]) v 0) in
  ((1 <= Z.of_nat (size v))%Z ->
   [/\ sz m <> L -> zsl_vec_mean true v n m = Ok ((- EINVAL)%Z, m),
       (1 <= n <= Z.of_nat (size v))%Z -> (0 <= L <= INT_MAX)%Z ->
       (exists2 i, (0 <= i < n)%Z
                 & sz (nth (Vec 0 [::]) v (Z.to_nat i)) <> L) ->
       zsl_vec_mean true v n m = Ok ((- EINVAL)%Z, m)
     & forall chk, zsl_vec_mean chk v 0 m = Ok ((- EINVAL)%Z, m)]) /\
  (v = [::] ->
   zsl_vec_mean true v n m = Fault /\
   zsl_vec_mean false v 0 m = Ok ((- EINVAL)%Z, m)).
Proof.
move=> L; split; last by move=> ->.
move=> Hs.
have Hload : vload v 0%Z = Ok (nth (Vec 0 [::]) v 0).
  by rewrite vload_ok //; lia.
split.
- move=> /Z.eqb_neq Hne.
  by rewrite /zsl_vec_mean Hload /= -/L Hne.
- move=> Hn HL Hex; rewrite /zsl_vec_mean Hload /= -/L.
  case: Z.eqb_spec => //= _.
  by rewrite zsl_vec_sum_mismatch.
- move=> chk; rewrite /zsl_vec_mean.
  case: chk; rewrite ?Hload /=; last by [].
  by case: Z.eqb_spec.
Qed.

Lemma zsl_vec_mean_rejects_witness :
  [/\ zsl_vec_mean true [:: vec_12; vec_100] 2 vec_000
      = Ok ((- EINVAL)%Z, vec_000),
      zsl_vec_mean true [:: vec_12; vec_100] 2 vec_00
      = Ok ((- EINVAL)%Z, vec_00)
    & forall chk,
        zsl_vec_mean chk [:: vec_12; vec_100] 0 vec_00
        = Ok ((- EINVAL)%Z, vec_00)] /\
  (zsl_vec_mean true [::] 2 vec_00 = Fault /\
   zsl_vec_mean false [::] 0 vec_00 = Ok ((- EINVAL)%Z, vec_00)).
Proof.
have [H1 H2] := @zsl_vec_mean_rejects [:: vec_12; vec_100] 2 vec_00.
have [H3 _] := @zsl_vec_mean_rejects [:: vec_12; vec_100] 2 vec_000.
have Hs : (1 <= Z.of_nat (size [:: vec_12; vec_100]))%Z by rewrite /=; lia.
have [_ Hb Hc] := H1 Hs.
have [Ha _ _] := H3 Hs.
split.
- split; [by apply: Ha | | exact: Hc].
  apply: Hb; [by rewrite /=; lia | by rewrite /= /INT_MAX; lia | ].
  by exists 1%Z; rewrite /=; lia.
- by apply: (proj2 (@zsl_vec_mean_rejects [::] 2 vec_00)).
Defined.

(** ** Copying a whole vector *)

Lemma mem_copy_size (dst src : seq R) (off n : Z) (d : seq R) :
  mem_copy dst src off n = Ok d -> size d = size dst.
Proof.
rewrite /mem_copy.
case: Z.leb_spec => //= H1; case: Z.leb_spec => //= H2.
case: Z.leb_spec => //= H3; case: Z.leb_spec => //= H4 [<-].
rewrite size_cat size_take size_drop size_drop.
by case: ltP; rewrite -?plusE -?minusE; lia.
Qed.

(** X20. [zsl_vec_get_subset] asked for all of a well-formed vector [v] of
    length at least 1, into a well-formed destination of the same length,
    returns 0 in either build and leaves a destination of that length
    holding the elements of [v], the buffer beyond the length untouched.
    For the empty vector the build with the bounds checks returns
    [-EINVAL] (offset 0 is not below length 0), the other build returns 0;
    the destination is as it was in both. *)
Theorem zsl_vec_get_subset_copy (chk : bool) (v vsub : zsl_vec) :
  vec_ok v -> vec_ok vsub -> sz vsub = sz v ->
  ((1 <= sz v)%Z ->
   exists2 vsub',
     zsl_vec_get_subset chk v 0 (sz v) vsub = Ok (0%Z, vsub')
     & [/\ sz vsub' = sz v,
           elems vsub' = elems v
         & forall i, (sz v <= i)%Z -> vget vsub' i = vget vsub i]) /\
  (sz v = 0%Z ->
   zsl_vec_get_subset chk v 0 (sz v) vsub
   = Ok ((if chk then - EINVAL else 0)%Z, vsub)).
Proof.
move=> Hv Hvsub Hsz.
move/vec_okP: (Hv) => [Hv1 Hv2]; move/vec_okP: (Hvsub) => [Hs1 Hs2].
split.
- move=> H1.
  have Hcall : zsl_vec_get_subset chk v 0 (sz v) vsub
               = Ok (0%Z, with_elems vsub (elems v)).
  { rewrite /zsl_vec_get_subset.
    have -> : (sz v <=? 0)%Z = false by apply/Z.leb_gt; lia.
    rewrite andbF Z.add_0_l Z.sub_0_r size_wrap_small; first lia.
    rewrite Z.leb_refl andbT.
    have -> : (if chk then sz v else sz v) = sz v by case: (chk).
    rewrite Hsz Z.ltb_irrefl andbF mem_copy_ok /=; try lia.
    by rewrite /with_elems /elems drop0 Hsz. }
  have Hse : size (elems v) = Z.to_nat (sz vsub) by rewrite Hsz size_elems.
  rewrite Hcall; eexists; first reflexivity.
  split=> //.
  + exact: elems_with_elems.
  + move=> i Hi; rewrite /vget /= nth_cat Hse.
    have -> : (Z.to_nat i < Z.to_nat (sz vsub))%nat = false by apply/ltP; lia.
    by rewrite nth_drop; congr (nth _ _ _); rewrite -plusE -minusE; lia.
- move=> H0; rewrite /zsl_vec_get_subset H0 Hsz H0 /=.
  case: (chk) => //=.
  rewrite mem_copy_ok /=; try lia.
  rewrite take0 drop0 /=.
  by move: Hsz; rewrite H0; case: (vsub) => s d /= ->.
Qed.

Lemma zsl_vec_get_subset_copy_witness :
  (exists2 vsub',
     zsl_vec_get_subset true vec_12345 0 (sz vec_12345) vec_11_22_33_44_55
     = Ok (0%Z, vsub')
     & [/\ sz vsub' = sz vec_12345,
           elems vsub' = elems vec_12345
         & forall i, (sz vec_12345 <= i)%Z ->
                     vget vsub' i = vget vec_11_22_33_44_55 i]) /\
  zsl_vec_get_subset true vec_empty 0 (sz vec_empty) vec_empty
  = Ok ((- EINVAL)%Z, vec_empty).
Proof.
split.
- apply: (proj1 (@zsl_vec_get_subset_copy true vec_12345 vec_11_22_33_44_55
                   erefl erefl erefl)).
  by rewrite /=; lia.
- by apply: (proj2 (@zsl_vec_get_subset_copy true vec_empty vec_empty
                      erefl erefl erefl)).
Defined.

(** X21. With the bounds checks compiled in, [zsl_vec_get_subset] is
    safe for every request: on well-formed vectors of fewer than [2^61]
    elements (so that the byte count [len * sizeof(zsl_real_t)] of the
    copy cannot wrap) and for every offset and length a [size_t] holds,
    the call returns, touching no slot outside a buffer, with 0 or
    [-EINVAL]; the destination stays well formed, its declared length is
    never raised, and with [-EINVAL] it is as it was.  Without the checks
    the same holds of a request that lies inside both buffers. *)
Theorem zsl_vec_get_subset_never_grows (v : zsl_vec) (offset len : Z)
    (vsub : zsl_vec) :
  vec_ok v -> vec_ok vsub ->
  (sz v < 2305843009213693952)%Z -> (sz vsub < 2305843009213693952)%Z ->
  (0 <= offset < SIZE_MOD)%Z -> (0 <= len < SIZE_MOD)%Z ->
  (exists rc vsub',
     [/\ zsl_vec_get_subset true v offset len vsub = Ok (rc, vsub'),
         rc = 0%Z \/ (rc = (- EINVAL)%Z /\ vsub' = vsub),
         vec_ok vsub',
         (sz vsub' <= sz vsub)%Z
       & size (data vsub') = size (data vsub)]) /\
  ((offset + len <= Z.of_nat (size (data v)))%Z ->
   (len <= Z.of_nat (size (data vsub)))%Z ->
   (len < 2305843009213693952)%Z ->
   exists2 vsub',
     zsl_vec_get_subset false v offset len vsub = Ok (0%Z, vsub')
     & [/\ sz vsub' = Z.min (sz vsub) len,
           vec_ok vsub'
         & size (data vsub') = size (data vsub)]).
Proof.
move=> Hv Hs Bv Bs Ho Hl.
move/vec_okP: (Hv) => [Hv1 Hv2]; move/vec_okP: (Hs) => [Hs1 Hs2].
rewrite /SIZE_MOD in Ho Hl Hv1 Hs1.
split.
- rewrite /zsl_vec_get_subset /=.
  case: Z.leb_spec => Hoff.
    by exists (- EINVAL)%Z, vsub; split=> //; [right | lia].
  set len1 := (if (sz v <=? size_wrap (offset + len))%Z
               then size_wrap (sz v - offset) else len).
  have Hlen1 : (0 <= len1)%Z /\ ((len1 <= sz vsub)%Z -> (offset + len1 <= sz v)%Z).
  { rewrite /len1; case: Z.leb_spec => Hw.
    - by rewrite size_wrap_small /SIZE_MOD; lia.
    - split; first lia.
      move=> Hle; move: Hw; rewrite size_wrap_small /SIZE_MOD; lia. }
  case: Hlen1 => Hl0 Hl1.
  case: Z.ltb_spec => Hfit.
    by exists (- EINVAL)%Z, vsub; split=> //; [right | lia].
  have Hin := Hl1 Hfit.
  have E : mem_copy (data vsub) (data v) offset len1 = _ :=
    @mem_copy_ok (data vsub) (data v) offset len1 _ _ _ _.
  rewrite E; try lia.
  have Hsz := mem_copy_size (E ltac:(lia) ltac:(lia) ltac:(lia) ltac:(lia)).
  eexists _, _; split; first reflexivity.
  + by left.
  + by apply/vec_okP; rewrite /= Hsz /SIZE_MOD; case: Z.ltb_spec; lia.
  + by rewrite /=; case: Z.ltb_spec; lia.
  + exact: Hsz.
- move=> Hin Hfit Hb; rewrite /zsl_vec_get_subset /=.
  have E : mem_copy (data vsub) (data v) offset len = _ :=
    @mem_copy_ok (data vsub) (data v) offset len _ _ _ _.
  rewrite E; try lia.
  have Hsz := mem_copy_size (E ltac:(lia) ltac:(lia) ltac:(lia) ltac:(lia)).
  eexists; first reflexivity.
  split.
  + by rewrite /=; case: Z.ltb_spec; lia.
  + by apply/vec_okP; rewrite /= Hsz /SIZE_MOD; case: Z.ltb_spec; lia.
  + exact: Hsz.
Qed.

Lemma zsl_vec_get_subset_never_grows_witness :
  (exists rc vsub',
     [/\ zsl_vec_get_subset true vec_12345 3 10 vec_000 = Ok (rc, vsub'),
         rc = 0%Z \/ (rc = (- EINVAL)%Z /\ vsub' = vec_000),
         vec_ok vsub',
         (sz vsub' <= sz vec_000)%Z
       & size (data vsub') = size (data vec_000)]) /\
  (exists2 vsub',
     zsl_vec_get_subset false vec_12345 3 2 vec_000 = Ok (0%Z, vsub')
     & [/\ sz vsub' = Z.min (sz vec_000) 2,
           vec_ok vsub'
         & size (data vsub') = size (data vec_000)]).
Proof.
have [H1 H2] :=
  @zsl_vec_get_subset_never_grows vec_12345 3 10 vec_000 erefl erefl
    ltac:(rewrite /=; lia) ltac:(rewrite /=; lia)
    ltac:(rewrite /SIZE_MOD; lia) ltac:(rewrite /SIZE_MOD; lia).
have [_ H3] :=
  @zsl_vec_get_subset_never_grows vec_12345 3 2 vec_000 erefl erefl
    ltac:(rewrite /=; lia) ltac:(rewrite /=; lia)
    ltac:(rewrite /SIZE_MOD; lia) ltac:(rewrite /SIZE_MOD; lia).
split; first exact: H1.
by apply: H3; rewrite /=; lia.
Defined.

(** ** Addition, subtraction and negation together *)

Lemma vget_with_elems_map (g : R -> R) (v : zsl_vec) (i : Z) :
  vec_ok v -> (0 <= i)%Z ->
  vget (with_elems v [seq g a | a <- elems v]) i
  = if (i <? sz v)%Z then g (vget v i) else vget v i.
Proof.
move=> Hv H0; move/vec_okP: (Hv) => [Hv1 Hv2].
rewrite /vget /= nth_cat size_map size_elems //.
case: Z.ltb_spec => Hi.
- have -> : (Z.to_nat i < Z.to_nat (sz v))%nat = true by apply/ltP; lia.
  rewrite (nth_map 0%R); first by rewrite size_elems //; apply/ltP; lia.
  rewrite nth_elems; first lia.
  by rewrite /vget Nat2Z.id.
- have -> : (Z.to_nat i < Z.to_nat (sz v))%nat = false by apply/ltP; lia.
  by rewrite nth_drop; congr (nth _ _ _); rewrite -plusE -minusE; lia.
Qed.

(** X22. Subtracting [w] is adding the negation of [w]: on well-formed
    vectors of one length, [zsl_vec_neg], [zsl_vec_sub] and
    [zsl_vec_add] all return 0, and [zsl_vec_sub v w x] leaves in [x]
    what [zsl_vec_add v (-w) x] leaves there, slot by slot over the whole
    buffer. *)
Theorem zsl_vec_sub_as_add_neg (chk : bool) (v w x : zsl_vec) :
  vec_ok v -> vec_ok w -> vec_ok x -> sz v = sz w -> sz v = sz x ->
  exists wn xs xa,
    [/\ zsl_vec_neg w = Ok (0%Z, wn),
        zsl_vec_sub chk v w x = Ok (0%Z, xs),
        zsl_vec_add chk v wn x = Ok (0%Z, xa),
        sz xs = sz xa
      & forall i, (0 <= i)%Z -> vget xs i = vget xa i].
Proof.
move=> Hv Hw Hx Evw Evx.
have Hs : size [seq (- a)%R | a <- elems w] = Z.to_nat (sz w).
  by rewrite size_map size_elems.
have Hwn : vec_ok (with_elems w [seq (- a)%R | a <- elems w]).
  exact: with_elems_ok.
have [xs Es [Hs1 _ Hs2 Hs3]] := zsl_vec_sub_ok chk Hv Hw Hx Evw Evx.
have [xa Ea [Ha1 _ Ha2 Ha3]] := zsl_vec_add_ok chk Hv Hwn Hx Evw Evx.
exists (with_elems w [seq (- a)%R | a <- elems w]), xs, xa.
split=> //; first exact: zsl_vec_neg_eq.
- by rewrite Hs1 Ha1.
- move=> i Hi; case: (Z.ltb_spec i (sz v)) => Hlt.
  + rewrite Hs2 ?Ha2; try lia.
    rewrite vget_with_elems_map // -Evw.
    by have -> : (i <? sz v)%Z = true by apply/Z.ltb_lt.
  + by rewrite Hs3 ?Ha3.
Qed.

Lemma zsl_vec_sub_as_add_neg_witness :
  exists wn xs xa,
    [/\ zsl_vec_neg vec_12 = Ok (0%Z, wn),
        zsl_vec_sub true vec_34 vec_12 vec_00 = Ok (0%Z, xs),
        zsl_vec_add true vec_34 wn vec_00 = Ok (0%Z, xa),
        sz xs = sz xa
      & forall i, (0 <= i)%Z -> vget xs i = vget xa i].
Proof. by apply: (@zsl_vec_sub_as_add_neg true vec_34 vec_12 vec_00). Defined.

(** X23. The laws of addition, on well-formed vectors of one length and in
    either build, every call returning 0: [zsl_vec_add] is associative;
    a vector cleared by [zsl_vec_init] is its neutral element; and adding
    to a vector what [zsl_vec_neg] makes of it gives zeros. *)
Theorem zsl_vec_add_laws (chk : bool) (u v w x : zsl_vec) :
  vec_ok u -> vec_ok v -> vec_ok w -> vec_ok x ->
  sz u = sz x -> sz v = sz x -> sz w = sz x ->
  [/\ exists x1 x2 x3 x4,
        [/\ zsl_vec_add chk u v x = Ok (0%Z, x1),
            zsl_vec_add chk x1 w x = Ok (0%Z, x2),
            zsl_vec_add chk v w x = Ok (0%Z, x3),
            zsl_vec_add chk u x3 x = Ok (0%Z, x4)
          & forall i, (0 <= i)%Z -> vget x2 i = vget x4 i],
      exists z xz,
        [/\ zsl_vec_init w = Ok (0%Z, z),
            zsl_vec_add chk v z x = Ok (0%Z, xz)
          & elems xz = elems v]
    & exists vn xi,
        [/\ zsl_vec_neg v = Ok (0%Z, vn),
            zsl_vec_add chk v vn x = Ok (0%Z, xi)
          & forall i, (0 <= i < sz x)%Z -> vget xi i = 0%R]].
Proof.
move=> Hu Hv Hw Hx Eu Ev Ew.
have Euv : sz u = sz v by rewrite Eu Ev.
have Evw : sz v = sz w by rewrite Ev Ew.
split.
- have [x1 E1 [S1 O1 I1 T1]] := zsl_vec_add_ok chk Hu Hv Hx Euv Eu.
  have E1w : sz x1 = sz w by rewrite S1 Ew.
  have [x2 E2 [S2 O2 I2 T2]] := zsl_vec_add_ok chk O1 Hw Hx E1w S1.
  have [x3 E3 [S3 O3 I3 T3]] := zsl_vec_add_ok chk Hv Hw Hx Evw Ev.
  have Eu3 : sz u = sz x3 by rewrite S3.
  have [x4 E4 [S4 O4 I4 T4]] := zsl_vec_add_ok chk Hu O3 Hx Eu3 Eu.
  exists x1, x2, x3, x4; split=> // i Hi.
  case: (Z.ltb_spec i (sz x)) => Hlt.
  + rewrite I2 ?S1; try lia.
    rewrite I1 ?Eu; try lia.
    rewrite I4 ?Eu; try lia.
    rewrite I3 ?Ev; try lia.
    by rewrite Rplus_assoc.
  + by rewrite T2 ?T4 ?S1 ?Eu.
- have [z Ez [Sz Cz Zz]] := zsl_vec_init_cleared Hw.
  have Hz : vec_ok z.
    by move/vec_okP: Hw => [? ?]; apply/vec_okP; rewrite Sz Cz.
  have Evz : sz v = sz z by rewrite Sz.
  have [xz Exz [S O I T]] := zsl_vec_add_ok chk Hv Hz Hx Evz Ev.
  exists z, xz; split=> //.
  apply: elems_eq => //; first by rewrite S.
  move=> i; rewrite S -Ev => Hi; rewrite I // Zz; first lia.
  by rewrite Rplus_0_r.
- have Hs : size [seq (- a)%R | a <- elems v] = Z.to_nat (sz v).
    by rewrite size_map size_elems.
  have Hvn : vec_ok (with_elems v [seq (- a)%R | a <- elems v]).
    exact: with_elems_ok.
  have [xi Exi [S O I T]] := zsl_vec_add_ok chk Hv Hvn Hx (erefl _) Ev.
  exists (with_elems v [seq (- a)%R | a <- elems v]), xi.
  split=> //; first exact: zsl_vec_neg_eq.
  move=> i Hi; rewrite I ?Ev // vget_with_elems_map //; first lia.
  have -> : (i <? sz v)%Z = true by apply/Z.ltb_lt; lia.
  by rewrite Rplus_opp_r.
Qed.

Lemma zsl_vec_add_laws_witness :
  [/\ exists x1 x2 x3 x4,
        [/\ zsl_vec_add true vec_12 vec_34 vec_00 = Ok (0%Z, x1),
            zsl_vec_add true x1 vec_24 vec_00 = Ok (0%Z, x2),
            zsl_vec_add true vec_34 vec_24 vec_00 = Ok (0%Z, x3),
            zsl_vec_add true vec_12 x3 vec_00 = Ok (0%Z, x4)
          & forall i, (0 <= i)%Z -> vget x2 i = vget x4 i],
      exists z xz,
        [/\ zsl_vec_init vec_24 = Ok (0%Z, z),
            zsl_vec_add true vec_34 z vec_00 = Ok (0%Z, xz)
          & elems xz = elems vec_34]
    & exists vn xi,
        [/\ zsl_vec_neg vec_34 = Ok (0%Z, vn),
            zsl_vec_add true vec_34 vn vec_00 = Ok (0%Z, xi)
          & forall i, (0 <= i < sz vec_00)%Z -> vget xi i = 0%R]].
Proof. by apply: (@zsl_vec_add_laws true vec_12 vec_34 vec_24 vec_00). Defined.

(** ** The geometry of the norm and the distance *)

Lemma size_seq_diff (a b : seq R) :
  size a = size b -> size (seq_diff a b) = size a.
Proof. by move=> H; rewrite /seq_diff size_map size_zip -H minnn. Qed.

Lemma sum_of_squares_diff_sym (a b : seq R) :
  sum_of_squares (seq_diff a b) = sum_of_squares (seq_diff b a).
Proof.
rewrite /seq_diff; elim: a b => [|x a IH] [|y b] //=.
by rewrite IH; ring.
Qed.

Lemma sum_of_squares_diff_self (a : seq R) :
  sum_of_squares (seq_diff a a) = 0%R.
Proof. by rewrite /seq_diff; elim: a => [|x a IH] //=; rewrite IH; ring. Qed.

Lemma seq_diff_eq0 (a b : seq R) :
  size a = size b -> all (fun x => x == 0%R) (seq_diff a b) -> a = b.
Proof.
rewrite /seq_diff; elim: a b => [|x a IH] [|y b] //= [Hs] /andP [/eqP Hxy Hall].
by rewrite (IH b Hs Hall); congr (_ :: _); lra.
Qed.

(** The inequality of Cauchy and Schwarz, on lists. *)
Lemma dot_product_cauchy_schwarz (a b : seq R) :
  (dot_product a b * dot_product a b <= sum_of_squares a * sum_of_squares b)%R.
Proof.
elim: a b => [|x a IH] [|y b].
- by rewrite /dot_product /=; lra.
- by rewrite /dot_product /=; lra.
- by rewrite /dot_product /=; lra.
- have HA := sum_of_squares_ge0 a; have HB := sum_of_squares_ge0 b.
  have := IH b.
  change (dot_product (x :: a) (y :: b)) with (x * y + dot_product a b)%R.
  change (sum_of_squares (x :: a)) with (x * x + sum_of_squares a)%R.
  change (sum_of_squares (y :: b)) with (y * y + sum_of_squares b)%R.
  move: (dot_product a b) (sum_of_squares a) (sum_of_squares b) HA HB
    => D A B HA HB HD.
  have Hy : (0 <= x * x * B + A * (y * y))%R by nra.
  have Hsq : (Rsqr (2 * (x * y) * D) <= Rsqr (x * x * B + A * (y * y)))%R.
    rewrite /Rsqr.
    have H1 : (0 <= (x * x * B - A * (y * y)) * (x * x * B - A * (y * y)))%R.
      exact: Rle_0_sqr.
    have H2 : (0 <= (x * y) * (x * y))%R by exact: Rle_0_sqr.
    have H3 : ((x * y) * (x * y) * (D * D) <= (x * y) * (x * y) * (A * B))%R.
      exact: Rmult_le_compat_l.
    by lra.
  have := Rsqr_incr_0_var _ _ Hsq Hy.
  by lra.
Qed.

Lemma dot_product_le_norms (a b : seq R) :
  (Rabs (dot_product a b) <= euclidean_norm a * euclidean_norm b)%R.
Proof.
rewrite /euclidean_norm -sqrt_mult; try exact: sum_of_squares_ge0.
rewrite -sqrt_Rsqr_abs; apply: sqrt_le_1_alt.
exact: dot_product_cauchy_schwarz.
Qed.

Lemma sum_of_squares_add (c a b : seq R) :
  size a = size c -> size b = size c ->
  (forall k : nat, (k < size c)%coq_nat ->
     nth 0%R c k = (nth 0%R a k + nth 0%R b k)%R) ->
  sum_of_squares c
  = (sum_of_squares a + 2 * dot_product a b + sum_of_squares b)%R.
Proof.
elim: c a b => [|z c IH] [|x a] [|y b] //=.
- by move=> _ _ _; rewrite /dot_product /=; lra.
- move=> [Ha] [Hb] H.
  have H0 : z = (x + y)%R by apply: (H 0%nat); lia.
  have HS k : (k < size c)%coq_nat -> nth 0%R c k = (nth 0%R a k + nth 0%R b k)%R.
    by move=> Hk; apply: (H k.+1); lia.
  rewrite (IH a b Ha Hb HS) H0.
  change (dot_product (x :: a) (y :: b)) with (x * y + dot_product a b)%R.
  by lra.
Qed.

(** The triangle inequality of the Euclidean norm, on lists. *)
Lemma euclidean_norm_triangle (c a b : seq R) :
  size a = size c -> size b = size c ->
  (forall k : nat, (k < size c)%coq_nat ->
     nth 0%R c k = (nth 0%R a k + nth 0%R b k)%R) ->
  (euclidean_norm c <= euclidean_norm a + euclidean_norm b)%R.
Proof.
move=> Ha Hb H.
have HC := sum_of_squares_ge0 c.
have HA := sum_of_squares_ge0 a; have HB := sum_of_squares_ge0 b.
have Hcs := dot_product_le_norms a b.
have Habs := Rle_abs (dot_product a b).
have Ecc := sqrt_sqrt _ HC.
have Eaa := sqrt_sqrt _ HA; have Ebb := sqrt_sqrt _ HB.
have Pc := sqrt_pos (sum_of_squares c).
have Pa := sqrt_pos (sum_of_squares a); have Pb := sqrt_pos (sum_of_squares b).
have Eadd := sum_of_squares_add Ha Hb H.
rewrite /euclidean_norm in Hcs *.
apply: Rsqr_incr_0_var; last lra.
by rewrite /Rsqr; lra.
Qed.

(** X24. [zsl_vec_dist] on well-formed vectors of one length, in either
    build: the result is a number, not [NAN]; it is nonnegative and the
    same in both orders of the arguments; it is zero exactly when the
    two vectors have the same elements; and the distance of a vector to
    itself is zero. *)
Theorem zsl_vec_dist_metric (chk : bool) (v w : zsl_vec) :
  vec_ok v -> vec_ok w -> sz v = sz w ->
  exists2 d,
    zsl_vec_dist chk v w = Ok (Real d)
    & [/\ (0 <= d)%R,
          zsl_vec_dist chk w v = Ok (Real d),
          d = 0%R <-> elems v = elems w
        & zsl_vec_dist chk v v = Ok (Real 0%R)].
Proof.
move=> Hv Hw E.
have Hs : size (elems v) = size (elems w) by rewrite !size_elems // E.
rewrite !zsl_vec_dist_ok //; eexists; first reflexivity.
split.
- exact: sqrt_pos.
- by rewrite /euclidean_norm sum_of_squares_diff_sym.
- split; first by move/euclidean_norm_eq0; apply: seq_diff_eq0.
  by move=> ->; rewrite /euclidean_norm sum_of_squares_diff_self sqrt_0.
- by rewrite /euclidean_norm sum_of_squares_diff_self sqrt_0.
Qed.

Lemma zsl_vec_dist_metric_witness :
  exists2 d,
    zsl_vec_dist true vec_12 vec_34 = Ok (Real d)
    & [/\ (0 <= d)%R,
          zsl_vec_dist true vec_34 vec_12 = Ok (Real d),
          d = 0%R <-> elems vec_12 = elems vec_34
        & zsl_vec_dist true vec_12 vec_12 = Ok (Real 0%R)].
Proof. by apply: (@zsl_vec_dist_metric true vec_12 vec_34). Defined.

(** X25. The inequality of Cauchy and Schwarz for the code: on
    well-formed vectors of one length the absolute value of what
    [zsl_vec_dot] writes is at most the product of what [zsl_vec_norm]
    returns for each. *)
Theorem zsl_vec_dot_cauchy_schwarz (chk : bool) (v w : zsl_vec) (d0 : R) :
  vec_ok v -> vec_ok w -> sz v = sz w ->
  exists d nv nw,
    [/\ zsl_vec_dot chk v w d0 = Ok (0%Z, d),
        zsl_vec_norm v = Ok nv,
        zsl_vec_norm w = Ok nw
      & (Rabs d <= nv * nw)%R].
Proof.
move=> Hv Hw E.
exists (dot_product (elems v) (elems w)).
exists (euclidean_norm (elems v)), (euclidean_norm (elems w)).
split; [exact: zsl_vec_dot_ok | exact: zsl_vec_norm_ok
       | exact: zsl_vec_norm_ok | exact: dot_product_le_norms].
Qed.

Lemma zsl_vec_dot_cauchy_schwarz_witness :
  exists d nv nw,
    [/\ zsl_vec_dot true vec_12 vec_34 0%R = Ok (0%Z, d),
        zsl_vec_norm vec_12 = Ok nv,
        zsl_vec_norm vec_34 = Ok nw
      & (Rabs d <= nv * nw)%R].
Proof.
by apply: (@zsl_vec_dot_cauchy_schwarz true vec_12 vec_34 0%R).
Defined.

(** X26. The triangle inequality, on well-formed vectors of one length
    and in either build: the distance [zsl_vec_dist] from [u] to [w] is
    at most the distance from [u] to [v] plus that from [v] to [w]; and
    the norm [zsl_vec_norm] of what [zsl_vec_add] makes of [v] and [w] is
    at most the sum of their norms. *)
Theorem zsl_vec_triangle (chk : bool) (u v w x : zsl_vec) :
  vec_ok u -> vec_ok v -> vec_ok w -> vec_ok x ->
  sz u = sz x -> sz v = sz x -> sz w = sz x ->
  (exists a b c,
     [/\ zsl_vec_dist chk u v = Ok (Real a),
         zsl_vec_dist chk v w = Ok (Real b),
         zsl_vec_dist chk u w = Ok (Real c)
       & (c <= a + b)%R]) /\
  (exists x' nv nw nx,
     [/\ zsl_vec_add chk v w x = Ok (0%Z, x'),
         zsl_vec_norm v = Ok nv,
         zsl_vec_norm w = Ok nw,
         zsl_vec_norm x' = Ok nx
       & (nx <= nv + nw)%R]).
Proof.
move=> Hu Hv Hw Hx Eu Ev Ew.
have Euv : sz u = sz v by rewrite Eu Ev.
have Evw : sz v = sz w by rewrite Ev Ew.
have Euw : sz u = sz w by rewrite Eu Ew.
have Su := size_elems Hu; have Sv := size_elems Hv; have Sw := size_elems Hw.
split.
- exists (euclidean_norm (seq_diff (elems u) (elems v))).
  exists (euclidean_norm (seq_diff (elems v) (elems w))).
  exists (euclidean_norm (seq_diff (elems u) (elems w))).
  split; try exact: zsl_vec_dist_ok.
  have Huv : size (elems u) = size (elems v) by rewrite Su Sv Euv.
  have Hvw : size (elems v) = size (elems w) by rewrite Sv Sw Evw.
  have Huw : size (elems u) = size (elems w) by rewrite Su Sw Euw.
  apply: euclidean_norm_triangle.
  + by rewrite !size_seq_diff.
  + by rewrite !size_seq_diff // Huv.
  + move=> k; rewrite size_seq_diff // => Hk.
    by rewrite !nth_seq_diff //; try lra; rewrite -Huv.
- have [x' E [S O I T]] := zsl_vec_add_ok chk Hv Hw Hx Evw Ev.
  have Sx := size_elems O.
  exists x', (euclidean_norm (elems v)), (euclidean_norm (elems w)).
  exists (euclidean_norm (elems x')).
  split=> //; try exact: zsl_vec_norm_ok.
  apply: euclidean_norm_triangle.
  + by rewrite Sv Sx S Ev.
  + by rewrite Sw Sx S Ew.
  + move=> k; rewrite Sx S => Hk.
    rewrite !nth_elems; try lia.
    by apply: I; lia.
Qed.

Lemma zsl_vec_triangle_witness :
  (exists a b c,
     [/\ zsl_vec_dist true vec_12 vec_34 = Ok (Real a),
         zsl_vec_dist true vec_34 vec_24 = Ok (Real b),
         zsl_vec_dist true vec_12 vec_24 = Ok (Real c)
       & (c <= a + b)%R]) /\
  (exists x' nv nw nx,
     [/\ zsl_vec_add true vec_34 vec_24 vec_00 = Ok (0%Z, x'),
         zsl_vec_norm vec_34 = Ok nv,
         zsl_vec_norm vec_24 = Ok nw,
         zsl_vec_norm x' = Ok nx
       & (nx <= nv + nw)%R]).
Proof. by apply: (@zsl_vec_triangle true vec_12 vec_34 vec_24 vec_00). Defined.
